(** * XCSF representation layer: GP trees, neural nets, configuration

    A shallow embedding of the C sources
      - gp.c                (GP trees: traverse, grow, eval, crossover,
                             mutate, save, load),
      - neural.c            (doubly-linked list of layers: insert, remove,
                             push, save, load),
      - neural_layer_args.c (layer argument validation),
      - config.c            (boolean configuration keys),
    together with the properties of the specification that concern them.

    Conventions.  A C [int] is a [Z]; arithmetic that would overflow a
    32-bit [int] is undefined behaviour in C and is not reached by the
    inputs considered here.  A C [double] is a primitive binary64 [float].
    A function that can fault (null or out-of-bounds access, [exit]) or
    whose recursion is bounded by fuel returns an [option]. *)

From Stdlib Require Import ZArith List Bool Uint63.
From Corelib Require Import PrimFloat.
From stdpp Require Import base option list gmap strings.

Local Open Scope Z_scope.

(** Reading [a[i]] for a C [int] index: a fault outside the array. *)
Definition array_get {A} (a : list A) (i : Z) : option A :=
  if i <? 0 then None else a !! Z.to_nat i.

(** Writing [a[i] = v]: a fault outside the array. *)
Definition array_set {A} (a : list A) (i : Z) (v : A) : option (list A) :=
  if (i <? 0) || (Z.of_nat (length a) <=? i) then None
  else Some (<[Z.to_nat i := v]> a).

(** ** Binary persistence

    A file is the list of its bytes, each a [Z] in [[0, 256)].  An [int]
    is stored in four bytes, least significant first, in two's
    complement.  A read that finds too few bytes is a failure: the C code
    does not test the count [fread] returns, and goes on with whatever the
    destination held. *)
Definition stream : Type := list Z.

Definition int_range (z : Z) : Prop := - 2 ^ 31 <= z < 2 ^ 31.

Definition int_bytes (z : Z) : list Z :=
  let u := z mod 2 ^ 32 in
  [u mod 256; (u / 2 ^ 8) mod 256; (u / 2 ^ 16) mod 256; (u / 2 ^ 24) mod 256].

Definition bytes_int (b0 b1 b2 b3 : Z) : Z :=
  let u := b0 + 2 ^ 8 * b1 + 2 ^ 16 * b2 + 2 ^ 24 * b3 in
  if u <? 2 ^ 31 then u else u - 2 ^ 32.

(** [fread(&x, sizeof(int), 1, fp)] *)
Definition fread_int (f : stream) : option (Z * stream) :=
  match f with
  | b0 :: b1 :: b2 :: b3 :: f' => Some (bytes_int b0 b1 b2 b3, f')
  | _ => None
  end.

(** [fread(a, sizeof(int), n, fp)] into fresh storage of [n] cells. *)
Fixpoint fread_ints (n : nat) (f : stream) : option (list Z * stream) :=
  match n with
  | O => Some ([], f)
  | S n' =>
    '(x, f) ← fread_int f;
    '(a, f) ← fread_ints n' f;
    Some (x :: a, f)
  end.

(** [fwrite(a, sizeof(int), n, fp)]: a fault when [a] has fewer than [n]
    cells. *)
Definition fwrite_ints (a : list Z) (n : Z) : option (list Z) :=
  if (n <? 0) || (Z.of_nat (length a) <? n) then None
  else Some (concat (int_bytes <$> take (Z.to_nat n) a)).

(** The object representation of a [double]: eight bytes from which the
    value is recovered. *)
Class Double (D : Type) := {
  double_bytes : D -> list Z;
  bytes_double : list Z -> D;
  double_bytes_length : forall d, length (double_bytes d) = 8%nat;
  bytes_double_bytes : forall d, bytes_double (double_bytes d) = d
}.

(** [fwrite(a, sizeof(double), n, fp)] *)
Definition fwrite_doubles `{Double D} (a : list D) (n : nat)
    : option (list Z) :=
  if (length a <? n)%nat then None
  else Some (concat (double_bytes <$> take n a)).

Definition fread_double `{Double D} (f : stream) : option (D * stream) :=
  if (length f <? 8)%nat then None
  else Some (bytes_double (take 8 f), drop 8 f).

(** [fread(a, sizeof(double), n, fp)] into the existing storage [a]: a
    fault when [a] has fewer than [n] cells. *)
Fixpoint fread_doubles `{Double D} (a : list D) (n : nat) (f : stream)
    : option (list D * stream) :=
  match n with
  | O => Some (a, f)
  | S n' =>
    match a with
    | [] => None
    | _ :: a' =>
      '(d, f) ← fread_double f;
      '(a', f) ← fread_doubles a' n' f;
      Some (d :: a', f)
    end
  end.

Lemma bytes_int_bytes z b0 b1 b2 b3 :
  int_range z -> int_bytes z = [b0; b1; b2; b3] -> bytes_int b0 b1 b2 b3 = z.
Proof.
  unfold int_range, int_bytes, bytes_int. intros Hz [= <- <- <- <-].
  change (2 ^ 31) with 2147483648 in *. change (2 ^ 32) with 4294967296.
  change (2 ^ 8) with 256. change (2 ^ 16) with 65536.
  change (2 ^ 24) with 16777216.
  set (u := z mod 4294967296).
  assert (Hu : 0 <= u < 4294967296) by (apply Z.mod_pos_bound; lia).
  assert (Hz' : u = z \/ u = z + 4294967296).
  { unfold u. destruct (Z.le_gt_cases 0 z).
    - left. apply Z.mod_small. lia.
    - right. symmetry. apply Z.mod_unique with (q := -1); lia. }
  assert (Hsum : u mod 256 + 256 * ((u / 256) mod 256)
                 + 65536 * ((u / 65536) mod 256)
                 + 16777216 * ((u / 16777216) mod 256) = u).
  { clearbody u. clear Hz Hz'. Z.div_mod_to_equations. lia. }
  rewrite Hsum. destruct (Z.ltb_spec u 2147483648); lia.
Qed.

Lemma fread_int_bytes z rest :
  int_range z -> fread_int (int_bytes z ++ rest) = Some (z, rest).
Proof.
  intros Hz. pose proof (bytes_int_bytes z) as Hb.
  unfold int_bytes in *. cbn [app fread_int].
  rewrite (Hb _ _ _ _ Hz eq_refl). reflexivity.
Qed.

Lemma fread_ints_bytes (a : list Z) rest :
  Forall int_range a ->
  fread_ints (length a) (concat (int_bytes <$> a) ++ rest) = Some (a, rest).
Proof.
  induction 1 as [|z a Hz Ha IH]; [reflexivity|].
  cbn [length fread_ints fmap list_fmap concat].
  rewrite <- app_assoc, fread_int_bytes by assumption.
  cbn [mbind option_bind]. rewrite IH. reflexivity.
Qed.

Lemma fread_double_bytes `{Double D} (d : D) rest :
  fread_double (double_bytes d ++ rest) = Some (d, rest).
Proof.
  unfold fread_double. pose proof (double_bytes_length d) as L.
  rewrite length_app, L. cbn [Nat.ltb Nat.leb Nat.add].
  replace 8%nat with (length (double_bytes d)) by assumption.
  rewrite take_app_length, drop_app_length, bytes_double_bytes. reflexivity.
Qed.

Lemma fread_doubles_bytes `{Double D} (a old : list D) rest :
  length old = length a ->
  fread_doubles old (length a) (concat (double_bytes <$> a) ++ rest)
  = Some (a, rest).
Proof.
  revert old. induction a as [|d a IH]; intros old Hlen.
  - destruct old; [reflexivity|discriminate].
  - destruct old as [|o old]; [discriminate|].
    cbn [length fread_doubles fmap list_fmap concat].
    rewrite <- app_assoc, fread_double_bytes. cbn [mbind option_bind].
    rewrite IH by (simpl in Hlen; lia). reflexivity.
Qed.

Module GP.

Definition GP_MAX_LEN : Z := 10000.
Definition GP_NUM_FUNC : Z := 4.
Definition ADD : Z := 0.
Definition SUB : Z := 1.
Definition MUL : Z := 2.
Definition DIV : Z := 3.
Definition N_MU : nat := 1.

(** The fields of [struct XCSF] that gp.c reads. *)
Record XCSF := {
  GP_NUM_CONS : Z;
  GP_INIT_DEPTH : Z;
  x_dim : Z;
  gp_cons : list float
}.

(** [struct GP_TREE]; the representation of a [double] is a parameter so
    that the persistence functions can treat it as raw storage.  The
    pointer [mu] is [None] while it refers to no live storage (never
    allocated, or freed). *)
Record GP_TREE (double : Type) := {
  tree : list Z;
  len : Z;
  p : Z;
  mu : option (list double)
}.
Arguments tree {double} _.
Arguments len {double} _.
Arguments p {double} _.
Arguments mu {double} _.

Definition set_p {D} (gp : GP_TREE D) (q : Z) : GP_TREE D :=
  {| tree := tree gp; len := len gp; p := q; mu := mu gp |}.

(** The code of the terminal reading input variable [i]. *)
Definition IN (xcsf : XCSF) (i : Z) : Z := GP_NUM_FUNC + GP_NUM_CONS xcsf + i.

(** [tree_eval]: recursive descent with the cursor [gp->p] held in the
    tree object.  The two operands of [+], [-] and [*] are evaluated left
    to right. *)
Fixpoint tree_eval {D} (fuel : nat) (xcsf : XCSF) (gp : GP_TREE D)
    (x : list float) : option (float * GP_TREE D) :=
  match fuel with
  | O => None
  | S fuel' =>
    node ← array_get (tree gp) (p gp);
    let gp := set_p gp (p gp + 1) in
    if GP_NUM_FUNC + GP_NUM_CONS xcsf <=? node then
      v ← array_get x (node - GP_NUM_FUNC - GP_NUM_CONS xcsf);
      Some (v, gp)
    else if GP_NUM_FUNC <=? node then
      v ← array_get (gp_cons xcsf) (node - GP_NUM_FUNC);
      Some (v, gp)
    else if node =? ADD then
      '(a, gp) ← tree_eval fuel' xcsf gp x;
      '(b, gp) ← tree_eval fuel' xcsf gp x;
      Some ((a + b)%float, gp)
    else if node =? SUB then
      '(a, gp) ← tree_eval fuel' xcsf gp x;
      '(b, gp) ← tree_eval fuel' xcsf gp x;
      Some ((a - b)%float, gp)
    else if node =? MUL then
      '(a, gp) ← tree_eval fuel' xcsf gp x;
      '(b, gp) ← tree_eval fuel' xcsf gp x;
      Some ((a * b)%float, gp)
    else if node =? DIV then
      '(num, gp) ← tree_eval fuel' xcsf gp x;
      '(den, gp) ← tree_eval fuel' xcsf gp x;
      if (den =? 0)%float then Some (num, gp)
      else Some ((num / den)%float, gp)
    else None
  end.


(** [tree_traverse]: the position after the sub-tree that starts at [p].
    [None] is an out-of-bounds read, the [exit] of the [default] case, or
    exhausted fuel; [traverse_fuel] is enough for every tree that the C
    recursion traverses without fault (see [tree_traverse_flatten]). *)
Fixpoint tree_traverse (fuel : nat) (tree : list Z) (p : Z) : option Z :=
  match fuel with
  | O => None
  | S fuel' =>
    node ← array_get tree p;
    if GP_NUM_FUNC <=? node then Some (p + 1)
    else if (node =? ADD) || (node =? SUB) || (node =? MUL) || (node =? DIV)
    then q ← tree_traverse fuel' tree (p + 1);
         tree_traverse fuel' tree q
    else None
  end.

Definition traverse_fuel (tree : list Z) : nat := S (length tree).

(** The utilities of utils.c are not part of the sources: the random
    number generator is a parameter.  [irand_uniform lo hi] draws an
    integer in [[lo, hi)], [rand_uniform lo hi] a real number. *)
Class Random (rng : Type) := {
  irand_uniform : Z -> Z -> rng -> Z * rng;
  rand_uniform : float -> float -> rng -> float * rng;
  irand_uniform_range : forall lo hi s,
    lo < hi -> lo <= fst (irand_uniform lo hi s) < hi
}.

(** The self-adaptive mutation module sam.c is not part of the sources
    either: [sam_init n types] fills [n] fresh rates, [sam_adapt mu n types]
    adapts them in place; both may draw random numbers. *)
Class Sam (rng : Type) := {
  SAM_RATE_SELECT : Z;
  sam_init : nat -> list Z -> rng -> list float * rng;
  sam_adapt : list float -> nat -> list Z -> rng -> list float * rng
}.

Definition MU_TYPE `{Sam rng} : list Z := [SAM_RATE_SELECT].

(** [malloc(sizeof(int) * n)]: fresh storage of [n] cells. *)
Definition malloc_ints (n : Z) : option (list Z) :=
  if n <? 0 then None else Some (replicate (Z.to_nat n) 0).

(** [memcpy(&dst[d], &src[s], sizeof(int) * n)]: a fault when either range
    leaves its array. *)
Definition memcpy (dst : list Z) (d : Z) (src : list Z) (s n : Z)
    : option (list Z) :=
  if (d <? 0) || (s <? 0) || (n <? 0)
     || (Z.of_nat (length dst) <? d + n) || (Z.of_nat (length src) <? s + n)
  then None
  else Some (take (Z.to_nat d) dst
             ++ take (Z.to_nat n) (drop (Z.to_nat s) src)
             ++ drop (Z.to_nat (d + n)) dst).

(** [tree_crossover]: sub-tree crossover.  [tree_free] releases the code
    array and the mutation rates of both parents; only the code arrays are
    replaced afterwards. *)
Definition tree_crossover {D} `{Random rng} (xcsf : XCSF)
    (p1 p2 : GP_TREE D) (s : rng) : option (GP_TREE D * GP_TREE D * rng) :=
  let len1 := len p1 in
  let len2 := len p2 in
  let '(start1, s) := irand_uniform 0 len1 s in
  end1 ← tree_traverse (traverse_fuel (tree p1)) (tree p1) start1;
  let '(start2, s) := irand_uniform 0 len2 s in
  end2 ← tree_traverse (traverse_fuel (tree p2)) (tree p2) start2;
  let nlen1 := start1 + (end2 - start2) + (len1 - end1) in
  new1 ← malloc_ints nlen1;
  new1 ← memcpy new1 0 (tree p1) 0 start1;
  new1 ← memcpy new1 start1 (tree p2) start2 (end2 - start2);
  new1 ← memcpy new1 (start1 + (end2 - start2)) (tree p1) end1 (len1 - end1);
  let nlen2 := start2 + (end1 - start1) + (len2 - end2) in
  new2 ← malloc_ints nlen2;
  new2 ← memcpy new2 0 (tree p2) 0 start2;
  new2 ← memcpy new2 start2 (tree p1) start1 (end1 - start1);
  new2 ← memcpy new2 (start2 + (end1 - start1)) (tree p2) end2 (len2 - end2);
  l1 ← tree_traverse (traverse_fuel new1) new1 0;
  l2 ← tree_traverse (traverse_fuel new2) new2 0;
  Some ({| tree := new1; len := l1; p := p p1; mu := None |},
        {| tree := new2; len := l2; p := p p2; mu := None |}, s).

Definition is_function (c : Z) : bool :=
  (c =? ADD) || (c =? SUB) || (c =? MUL) || (c =? DIV).

(** [tree_grow]: random growth into [buffer] from position [p]; the result
    is the position after the grown sub-tree, or [-1] when position [max]
    is reached.  [None] is a write outside the buffer, the [exit] of the
    [default] case, or exhausted fuel. *)
Fixpoint tree_grow `{Random rng} (fuel : nat) (xcsf : XCSF)
    (buffer : list Z) (p max depth : Z) (s : rng)
    : option (Z * list Z * rng) :=
  match fuel with
  | O => None
  | S fuel' =>
    let '(prim, s) := irand_uniform 0 2 s in
    if max <=? p then Some (-1, buffer, s)
    else
      let prim := if p =? 0 then 1 else prim in
      if (prim =? 0) || (depth =? 0) then
        let '(prim, s) :=
          irand_uniform GP_NUM_FUNC
            (GP_NUM_FUNC + GP_NUM_CONS xcsf + x_dim xcsf) s in
        buffer ← array_set buffer p prim;
        Some (p + 1, buffer, s)
      else
        let '(prim, s) := irand_uniform 0 GP_NUM_FUNC s in
        if is_function prim then
          buffer ← array_set buffer p prim;
          '(one_child, buffer, s) ←
            tree_grow fuel' xcsf buffer (p + 1) max (depth - 1) s;
          if one_child <? 0 then Some (-1, buffer, s)
          else tree_grow fuel' xcsf buffer one_child max (depth - 1) s
        else None
  end.

(** Fuel that covers every growth within [GP_MAX_LEN] positions (see
    [tree_grow_total]). *)
Definition grow_fuel : nat := S (Z.to_nat GP_MAX_LEN).

(** The [do ... while (gp->len < 0)] loop of [tree_rand], for at most
    [tries] attempts. *)
Fixpoint tree_rand_grow `{Random rng} (tries : nat) (xcsf : XCSF)
    (buffer : list Z) (s : rng) : option (Z * list Z * rng) :=
  match tries with
  | O => None
  | S tries' =>
    '(len, buffer, s) ←
      tree_grow grow_fuel xcsf buffer 0 GP_MAX_LEN (GP_INIT_DEPTH xcsf) s;
    if len <? 0 then tree_rand_grow tries' xcsf buffer s
    else Some (len, buffer, s)
  end.

(** [tree_rand], from the declaration of [buffer] on. *)
Definition tree_rand_from `{Random rng} `{!Sam rng} (tries : nat)
    (xcsf : XCSF) (gp : GP_TREE float) (buffer : list Z) (s : rng)
    : option (GP_TREE float * rng) :=
  '(len, buffer, s) ← tree_rand_grow tries xcsf buffer s;
  tree ← malloc_ints len;
  tree ← memcpy tree 0 buffer 0 len;
  let '(mu, s) := sam_init N_MU MU_TYPE s in
  Some ({| tree := tree; len := len; p := p gp; mu := Some mu |}, s).

(** [tree_rand]: the stack buffer is not initialised; its contents do not
    matter (see [tree_rand_from_buffer]). *)
Definition tree_rand `{Random rng} `{!Sam rng} (tries : nat) (xcsf : XCSF)
    (gp : GP_TREE float) (s : rng) : option (GP_TREE float * rng) :=
  tree_rand_from tries xcsf gp (replicate (Z.to_nat GP_MAX_LEN) 0) s.

(** [tree_mutate]: the scan of the code array, [n] positions from [i] on.
    [mu] is the storage that [gp->mu] points to. *)
Fixpoint tree_mutate_scan `{Random rng} (n : nat) (i : Z) (terminal_max : Z)
    (mu : list float) (tree : list Z) (changed : bool) (s : rng)
    : option (list Z * bool * rng) :=
  match n with
  | O => Some (tree, changed, s)
  | S n' =>
    let '(r, s) := rand_uniform 0 1 s in
    mu0 ← array_get mu 0;
    if (r <? mu0)%float then
      node ← array_get tree i;
      if GP_NUM_FUNC <=? node then
        let '(v, s) := irand_uniform GP_NUM_FUNC terminal_max s in
        tree ← array_set tree i v;
        tree_mutate_scan n' (i + 1) terminal_max mu tree true s
      else
        let '(v, s) := irand_uniform 0 GP_NUM_FUNC s in
        tree ← array_set tree i v;
        tree_mutate_scan n' (i + 1) terminal_max mu tree true s
    else tree_mutate_scan n' (i + 1) terminal_max mu tree changed s
  end.

Definition tree_mutate `{Random rng} `{!Sam rng} (xcsf : XCSF)
    (gp : GP_TREE float) (s : rng) : option (bool * GP_TREE float * rng) :=
  m ← mu gp;
  let '(m, s) := sam_adapt m N_MU MU_TYPE s in
  let terminal_max := GP_NUM_FUNC + GP_NUM_CONS xcsf + x_dim xcsf in
  '(t, changed, s) ←
    tree_mutate_scan (Z.to_nat (len gp)) 0 terminal_max m (tree gp) false s;
  Some (changed, {| tree := t; len := len gp; p := p gp; mu := Some m |}, s).

(** [tree_save]: the bytes written and the number of elements written. *)
Definition tree_save `{Double D} (xcsf : XCSF) (gp : GP_TREE D)
    : option (list Z * Z) :=
  t ← fwrite_ints (tree gp) (len gp);
  m ← mu gp;
  m ← fwrite_doubles m N_MU;
  Some (int_bytes (p gp) ++ int_bytes (len gp) ++ t ++ m,
        1 + 1 + len gp + Z.of_nat N_MU).

(** [tree_load]: the tree read into [gp], the rest of the file and the
    number of elements read.  The code array is allocated here; the
    mutation rates are read into the storage that [gp->mu] already points
    to. *)
Definition tree_load `{Double D} (xcsf : XCSF) (gp : GP_TREE D) (f : stream)
    : option (GP_TREE D * stream * Z) :=
  '(p', f) ← fread_int f;
  '(len', f) ← fread_int f;
  if len' <? 1 then None
  else
    '(t, f) ← fread_ints (Z.to_nat len') f;
    m ← mu gp;
    '(m, f) ← fread_doubles m N_MU f;
    Some ({| tree := t; len := len'; p := p'; mu := Some m |}, f,
          1 + 1 + len' + Z.of_nat N_MU).

(** Expressions, the trees that the prefix encoding denotes: a terminal
    has a code from [GP_NUM_FUNC] on, a function node one of the four
    function codes and exactly two descendants. *)
Inductive expr : Type :=
  | Term (c : Z)
  | Fn (f : Z) (a b : expr).

Fixpoint flatten (e : expr) : list Z :=
  match e with
  | Term c => [c]
  | Fn f a b => f :: flatten a ++ flatten b
  end.

Fixpoint wf_expr (e : expr) : Prop :=
  match e with
  | Term c => GP_NUM_FUNC <= c
  | Fn f a b => 0 <= f < GP_NUM_FUNC /\ wf_expr a /\ wf_expr b
  end.

(** A code array is a valid prefix-encoded tree when it is the prefix
    form of a well-formed expression. *)
Definition prefix_tree (t : list Z) : Prop :=
  exists e, wf_expr e /\ t = flatten e.

(** A valid GP tree: a valid code array whose recorded length is the
    length of the array. *)
Definition valid_tree {D} (gp : GP_TREE D) : Prop :=
  prefix_tree (tree gp) /\ len gp = Z.of_nat (length (tree gp)).

(** ** Protected division *)

Section Eval.
Context {D : Type}.
Implicit Types (gp : GP_TREE D) (x : list float).

Lemma tree_eval_S fuel xcsf gp x :
  tree_eval (S fuel) xcsf gp x =
    (node ← array_get (tree gp) (p gp);
     let gp := set_p gp (p gp + 1) in
     if GP_NUM_FUNC + GP_NUM_CONS xcsf <=? node then
       v ← array_get x (node - GP_NUM_FUNC - GP_NUM_CONS xcsf);
       Some (v, gp)
     else if GP_NUM_FUNC <=? node then
       v ← array_get (gp_cons xcsf) (node - GP_NUM_FUNC);
       Some (v, gp)
     else if node =? ADD then
       '(a, gp) ← tree_eval fuel xcsf gp x;
       '(b, gp) ← tree_eval fuel xcsf gp x;
       Some ((a + b)%float, gp)
     else if node =? SUB then
       '(a, gp) ← tree_eval fuel xcsf gp x;
       '(b, gp) ← tree_eval fuel xcsf gp x;
       Some ((a - b)%float, gp)
     else if node =? MUL then
       '(a, gp) ← tree_eval fuel xcsf gp x;
       '(b, gp) ← tree_eval fuel xcsf gp x;
       Some ((a * b)%float, gp)
     else if node =? DIV then
       '(num, gp) ← tree_eval fuel xcsf gp x;
       '(den, gp) ← tree_eval fuel xcsf gp x;
       if (den =? 0)%float then Some (num, gp)
       else Some ((num / den)%float, gp)
     else None).
Proof. reflexivity. Qed.

(** An input terminal reads [x] and advances the cursor by one. *)
Lemma tree_eval_input fuel xcsf gp x i v gp' :
  0 <= GP_NUM_CONS xcsf -> 0 <= i ->
  array_get (tree gp) (p gp) = Some (IN xcsf i) ->
  array_get x i = Some v ->
  gp' = set_p gp (p gp + 1) ->
  tree_eval (S fuel) xcsf gp x = Some (v, gp').
Proof.
  intros Hc Hi Hnode Hx ->. rewrite tree_eval_S, Hnode. simpl.
  unfold IN, GP_NUM_FUNC in *.
  destruct (Z.leb_spec (4 + GP_NUM_CONS xcsf) (4 + GP_NUM_CONS xcsf + i)); [|lia].
  replace (4 + GP_NUM_CONS xcsf + i - 4 - GP_NUM_CONS xcsf) with i by lia.
  rewrite Hx. reflexivity.
Qed.

(** Subtraction node: the difference of its two operands. *)
Lemma tree_eval_sub fuel xcsf gp x a b gp1 gp2 :
  0 <= GP_NUM_CONS xcsf ->
  array_get (tree gp) (p gp) = Some SUB ->
  tree_eval fuel xcsf (set_p gp (p gp + 1)) x = Some (a, gp1) ->
  tree_eval fuel xcsf gp1 x = Some (b, gp2) ->
  tree_eval (S fuel) xcsf gp x = Some ((a - b)%float, gp2).
Proof.
  intros Hc Hnode H1 H2. rewrite tree_eval_S, Hnode. simpl.
  unfold GP_NUM_FUNC, SUB.
  destruct (Z.leb_spec (4 + GP_NUM_CONS xcsf) 1); [lia|].
  simpl. rewrite H1. simpl. rewrite H2. reflexivity.
Qed.

Lemma tree_eval_div fuel xcsf gp x num den gp1 gp2 :
  0 <= GP_NUM_CONS xcsf ->
  array_get (tree gp) (p gp) = Some DIV ->
  tree_eval fuel xcsf (set_p gp (p gp + 1)) x = Some (num, gp1) ->
  tree_eval fuel xcsf gp1 x = Some (den, gp2) ->
  tree_eval (S fuel) xcsf gp x =
    Some (if (den =? 0)%float then num else (num / den)%float, gp2).
Proof.
  intros Hc Hnode H1 H2. rewrite tree_eval_S, Hnode. simpl.
  unfold GP_NUM_FUNC, DIV.
  destruct (Z.leb_spec (4 + GP_NUM_CONS xcsf) 3); [lia|].
  simpl. rewrite H1. simpl. rewrite H2. simpl.
  destruct (den =? 0)%float; reflexivity.
Qed.

(** The scenario tree [DIV(IN:0, SUB(IN:0, IN:0))]. *)
Definition scenario_tree (xcsf : XCSF) (m : option (list D)) : GP_TREE D :=
  {| tree := [DIV; IN xcsf 0; SUB; IN xcsf 0; IN xcsf 0];
     len := 5; p := 0; mu := m |}.

Lemma scenario_tree_eval xcsf m fuel :
  0 <= GP_NUM_CONS xcsf ->
  tree_eval (S (S (S fuel))) xcsf (scenario_tree xcsf m) [3%float] =
    Some (3%float, set_p (scenario_tree xcsf m) 5).
Proof.
  intros Hc. set (gp := scenario_tree xcsf m).
  assert (H1 : tree_eval (S (S fuel)) xcsf (set_p gp (p gp + 1)) [3%float]
               = Some (3%float, set_p gp 2)).
  { apply (tree_eval_input _ _ _ _ 0); (assumption || lia || reflexivity). }
  assert (H2 : tree_eval (S (S fuel)) xcsf (set_p gp 2) [3%float]
               = Some ((3 - 3)%float, set_p gp 5)).
  { apply (tree_eval_sub _ _ _ _ _ _ (set_p gp 4)); [assumption|reflexivity| |].
    - apply (tree_eval_input _ _ _ _ 0); (assumption || lia || reflexivity).
    - apply (tree_eval_input _ _ _ _ 0); (assumption || lia || reflexivity). }
  rewrite (tree_eval_div _ _ gp _ _ _ _ _ Hc eq_refl H1 H2). reflexivity.
Qed.

End Eval.

Definition xcsf0 : XCSF :=
  {| GP_NUM_CONS := 2; GP_INIT_DEPTH := 3; x_dim := 1;
     gp_cons := [0.5%float; 2%float] |}.

(** ** Traversal of prefix-encoded trees *)

Lemma array_get_middle {A} (pre post : list A) (c : A) :
  array_get (pre ++ c :: post) (Z.of_nat (length pre)) = Some c.
Proof.
  unfold array_get.
  destruct (Z.ltb_spec (Z.of_nat (length pre)) 0); [lia|].
  rewrite Nat2Z.id. apply list_lookup_middle. reflexivity.
Qed.

Lemma flatten_length_pos e : (0 < length (flatten e))%nat.
Proof. destruct e; simpl; lia. Qed.

(** Traversing from the first node of an embedded sub-tree stops right
    after it, as soon as the fuel covers its length. *)
Lemma tree_traverse_flatten e :
  wf_expr e ->
  forall fuel pre post,
    (length (flatten e) <= fuel)%nat ->
    tree_traverse fuel (pre ++ flatten e ++ post) (Z.of_nat (length pre))
    = Some (Z.of_nat (length pre + length (flatten e))).
Proof.
  induction e as [c|f a IHa b IHb]; simpl; intros Hwf fuel pre post Hfuel.
  - destruct fuel as [|fuel]; [lia|]. simpl.
    rewrite array_get_middle. simpl.
    destruct (Z.leb_spec GP_NUM_FUNC c); [|lia].
    f_equal. lia.
  - destruct Hwf as (Hf & Hwa & Hwb).
    destruct fuel as [|fuel]; [lia|]. simpl.
    rewrite array_get_middle. simpl.
    destruct (Z.leb_spec GP_NUM_FUNC f); [lia|].
    assert (Hfn : (f =? ADD) || (f =? SUB) || (f =? MUL) || (f =? DIV) = true).
    { unfold ADD, SUB, MUL, DIV, GP_NUM_FUNC in *.
      assert (f = 0 \/ f = 1 \/ f = 2 \/ f = 3) as [->|[->|[->| ->]]] by lia;
        reflexivity. }
    rewrite Hfn. rewrite length_app in Hfuel.
    specialize (IHa Hwa fuel (pre ++ [f]) (flatten b ++ post)).
    rewrite length_app in IHa. simpl in IHa.
    replace (Z.of_nat (length pre) + 1) with (Z.of_nat (length pre + 1)) by lia.
    replace (pre ++ f :: (flatten a ++ flatten b) ++ post)
      with ((pre ++ [f]) ++ flatten a ++ flatten b ++ post)
      by (rewrite <- !app_assoc; reflexivity).
    rewrite IHa by lia. simpl.
    specialize (IHb Hwb fuel ((pre ++ [f]) ++ flatten a) post).
    rewrite !length_app in IHb. simpl in IHb.
    replace (((pre ++ [f]) ++ flatten a ++ flatten b ++ post))
      with (((pre ++ [f]) ++ flatten a) ++ flatten b ++ post)
      by (rewrite <- !app_assoc; reflexivity).
    rewrite IHb by lia. f_equal. rewrite length_app. lia.
Qed.

(** A valid code array is traversed from position 0 to its length. *)
Lemma tree_traverse_prefix_tree t :
  prefix_tree t ->
  tree_traverse (traverse_fuel t) t 0 = Some (Z.of_nat (length t)).
Proof.
  intros (e & Hwf & ->).
  pose proof (tree_traverse_flatten e Hwf (traverse_fuel (flatten e)) [] []) as H.
  simpl in H. rewrite app_nil_r in H. apply H. unfold traverse_fuel. lia.
Qed.

(** Every position of a valid code array starts a sub-tree, and that
    sub-tree can be replaced by any other one. *)
Lemma subtree_at e :
  wf_expr e ->
  forall k, (k < length (flatten e))%nat ->
  exists sub pre post,
    wf_expr sub /\ flatten e = pre ++ flatten sub ++ post /\ length pre = k /\
    forall sub', wf_expr sub' -> prefix_tree (pre ++ flatten sub' ++ post).
Proof.
  induction e as [c|f a IHa b IHb]; simpl; intros Hwf k Hk.
  - exists (Term c), [], []. simpl.
    split; [assumption|]. split; [reflexivity|]. split; [lia|].
    intros sub' Hsub'. exists sub'. rewrite app_nil_r. auto.
  - destruct Hwf as (Hf & Hwa & Hwb).
    destruct k as [|k].
    + exists (Fn f a b), [], []. simpl. rewrite app_nil_r.
      split; [auto|]. split; [reflexivity|]. split; [reflexivity|].
      intros sub' Hsub'. exists sub'. rewrite app_nil_r. auto.
    + rewrite length_app in Hk.
      destruct (Nat.lt_ge_cases k (length (flatten a))) as [Hlt|Hge].
      * destruct (IHa Hwa k Hlt) as (sub & pre & post & Hs & Heq & Hlen & Hrep).
        exists sub, (f :: pre), (post ++ flatten b).
        split; [assumption|]. split; [|split; [simpl; lia|]].
        -- rewrite Heq. simpl. rewrite <- !app_assoc. reflexivity.
        -- intros sub' Hsub'. destruct (Hrep sub' Hsub') as (a' & Hwa' & Ha').
           exists (Fn f a' b). simpl. split; [auto|].
           rewrite <- Ha'. rewrite <- !app_assoc. reflexivity.
      * destruct (IHb Hwb (k - length (flatten a))%nat ltac:(lia))
          as (sub & pre & post & Hs & Heq & Hlen & Hrep).
        exists sub, (f :: flatten a ++ pre), post.
        split; [assumption|].
        split; [|split; [simpl; rewrite length_app; lia|]].
        -- rewrite Heq. simpl. rewrite <- !app_assoc. reflexivity.
        -- intros sub' Hsub'. destruct (Hrep sub' Hsub') as (b' & Hwb' & Hb').
           exists (Fn f a b'). simpl. split; [auto|].
           rewrite <- Hb'. rewrite <- !app_assoc. reflexivity.
Qed.

(** ** Evaluation as a recursion over the expression

    The value of an expression, computed without a cursor: the reading
    of [tree_eval] as a pure recursion. *)
Definition apply_function (f : Z) (a b : float) : float :=
  if f =? ADD then (a + b)%float
  else if f =? SUB then (a - b)%float
  else if f =? MUL then (a * b)%float
  else if (b =? 0)%float then a else (a / b)%float.

Fixpoint expr_eval (xcsf : XCSF) (x : list float) (e : expr) : option float :=
  match e with
  | Term c =>
    if GP_NUM_FUNC + GP_NUM_CONS xcsf <=? c
    then array_get x (c - GP_NUM_FUNC - GP_NUM_CONS xcsf)
    else array_get (gp_cons xcsf) (c - GP_NUM_FUNC)
  | Fn f a b =>
    va ← expr_eval xcsf x a;
    vb ← expr_eval xcsf x b;
    Some (apply_function f va vb)
  end.

(** On an embedded sub-tree, [tree_eval] returns the value of the
    expression and leaves the cursor right after it, as soon as the fuel
    covers its length; it fails exactly when a terminal reads outside
    the inputs or the constants. *)
Lemma tree_eval_flatten {D} xcsf x e :
  wf_expr e -> 0 <= GP_NUM_CONS xcsf ->
  forall fuel pre post (gp : GP_TREE D),
    tree gp = pre ++ flatten e ++ post ->
    p gp = Z.of_nat (length pre) ->
    (length (flatten e) <= fuel)%nat ->
    tree_eval fuel xcsf gp x =
      (v ← expr_eval xcsf x e;
       Some (v, set_p gp (Z.of_nat (length pre + length (flatten e))))).
Proof.
  intros Hwf Hc. induction e as [c|f a IHa b IHb];
    intros fuel pre post gp Ht Hp Hfuel.
  - destruct fuel as [|fuel]; [cbn in Hfuel; lia|].
    rewrite tree_eval_S, Ht, Hp. cbn [flatten app].
    rewrite array_get_middle. cbn [mbind option_bind expr_eval].
    cbn [wf_expr] in Hwf. cbn [length].
    replace (Z.of_nat (length pre + 1)) with (Z.of_nat (length pre) + 1)
      by lia.
    destruct (Z.leb_spec (GP_NUM_FUNC + GP_NUM_CONS xcsf) c).
    + reflexivity.
    + destruct (Z.leb_spec GP_NUM_FUNC c); [reflexivity|lia].
  - destruct Hwf as (Hf & Hwa & Hwb).
    destruct fuel as [|fuel]; [cbn in Hfuel; lia|].
    cbn [flatten length] in Hfuel. rewrite length_app in Hfuel.
    rewrite tree_eval_S, Ht, Hp. cbn [flatten app].
    rewrite array_get_middle. cbn [mbind option_bind expr_eval].
    destruct (Z.leb_spec (GP_NUM_FUNC + GP_NUM_CONS xcsf) f); [lia|].
    destruct (Z.leb_spec GP_NUM_FUNC f); [lia|].
    set (gp1 := set_p gp (Z.of_nat (length pre) + 1)).
    assert (E1 : tree_eval fuel xcsf gp1 x =
                 (v ← expr_eval xcsf x a;
                  Some (v, set_p gp1 (Z.of_nat (length (pre ++ [f])
                                                + length (flatten a)))))).
    { apply (IHa Hwa fuel (pre ++ [f]) (flatten b ++ post)).
      - cbn [gp1 set_p tree]. rewrite Ht. cbn [flatten app].
        rewrite <- !app_assoc. reflexivity.
      - cbn [gp1 set_p p]. rewrite length_app. cbn. lia.
      - lia. }
    assert (E2 : forall gp2 : GP_TREE D,
               tree gp2 = tree gp ->
               p gp2 = Z.of_nat (length (pre ++ [f]) + length (flatten a)) ->
               tree_eval fuel xcsf gp2 x =
               (v ← expr_eval xcsf x b;
                Some (v, set_p gp2
                           (Z.of_nat (length pre
                                      + length (flatten (Fn f a b))))))).
    { intros gp2 Ht2 Hp2.
      rewrite (IHb Hwb fuel ((pre ++ [f]) ++ flatten a) post gp2).
      - cbn [flatten length]. rewrite !length_app. cbn [length].
        replace (length pre + 1 + length (flatten a) + length (flatten b))%nat
          with (length pre + S (length (flatten a) + length (flatten b)))%nat
          by lia.
        reflexivity.
      - rewrite Ht2, Ht. cbn [flatten app]. rewrite <- !app_assoc.
        reflexivity.
      - rewrite Hp2, !length_app. reflexivity.
      - lia. }
    assert (Hsub : forall g : float -> float -> float,
      ('(va, gpa) ← tree_eval fuel xcsf gp1 x;
       '(vb, gpb) ← tree_eval fuel xcsf gpa x;
       Some (g va vb, gpb)) =
      (va ← expr_eval xcsf x a; vb ← expr_eval xcsf x b;
       Some (g va vb,
             set_p gp (Z.of_nat (length pre
                                 + length (flatten (Fn f a b))))))).
    { intros g. rewrite E1. destruct (expr_eval xcsf x a) as [va|];
        [|reflexivity].
      cbn [mbind option_bind]. rewrite E2; [|reflexivity|reflexivity].
      destruct (expr_eval xcsf x b) as [vb|]; reflexivity. }
    unfold apply_function, ADD, SUB, MUL, DIV, GP_NUM_FUNC in *.
    assert (f = 0 \/ f = 1 \/ f = 2 \/ f = 3) as [->|[->|[->| ->]]] by lia;
      cbn [Z.eqb Pos.eqb].
    + rewrite (Hsub (fun u v => (u + v)%float)).
      destruct (expr_eval xcsf x a); [|reflexivity]. cbn [mbind option_bind].
      destruct (expr_eval xcsf x b); reflexivity.
    + rewrite (Hsub (fun u v => (u - v)%float)).
      destruct (expr_eval xcsf x a); [|reflexivity]. cbn [mbind option_bind].
      destruct (expr_eval xcsf x b); reflexivity.
    + rewrite (Hsub (fun u v => (u * v)%float)).
      destruct (expr_eval xcsf x a); [|reflexivity]. cbn [mbind option_bind].
      destruct (expr_eval xcsf x b); reflexivity.
    + transitivity
        ('(va, gpa) ← tree_eval fuel xcsf gp1 x;
         '(vb, gpb) ← tree_eval fuel xcsf gpa x;
         Some (if (vb =? 0)%float then va else (va / vb)%float, gpb)).
      { destruct (tree_eval fuel xcsf gp1 x) as [[va gpa]|]; [|reflexivity].
        cbn [mbind option_bind].
        destruct (tree_eval fuel xcsf gpa x) as [[vb gpb]|]; [|reflexivity].
        cbn [mbind option_bind]. destruct (vb =? 0)%float; reflexivity. }
      rewrite (Hsub (fun u v => if (v =? 0)%float then u else (u / v)%float)).
      destruct (expr_eval xcsf x a); [|reflexivity]. cbn [mbind option_bind].
      destruct (expr_eval xcsf x b); reflexivity.
Qed.

(** C1. Protected division.  For every tree, cursor and input vector:
    when the node under the cursor is [DIV], followed by the codes of a
    numerator sub-tree of value [num] and of a denominator sub-tree of
    value [den], [tree_eval] returns [num] if [den] compares equal to
    zero and [num / den] otherwise, with the cursor left after the
    denominator.  In particular [DIV(IN:0, SUB(IN:0, IN:0))] on
    [x = [3.0]] returns [3.0], for every amount of fuel from three
    on. *)
Theorem tree_eval_protected_division {D} xcsf :
  0 <= GP_NUM_CONS xcsf ->
  (forall (gp : GP_TREE D) x pre a b post num den fuel,
     wf_expr a -> wf_expr b ->
     tree gp = pre ++ DIV :: flatten a ++ flatten b ++ post ->
     p gp = Z.of_nat (length pre) ->
     expr_eval xcsf x a = Some num ->
     expr_eval xcsf x b = Some den ->
     (S (length (flatten a) + length (flatten b)) <= fuel)%nat ->
     let after :=
       set_p gp (Z.of_nat (length pre
                           + S (length (flatten a) + length (flatten b)))) in
     ((den =? 0)%float = true ->
      tree_eval fuel xcsf gp x = Some (num, after)) /\
     ((den =? 0)%float = false ->
      tree_eval fuel xcsf gp x = Some ((num / den)%float, after))) /\
  (forall (m : option (list D)) k,
     tree_eval (S (S (S k))) xcsf (scenario_tree xcsf m) [3%float]
     = Some (3%float, set_p (scenario_tree xcsf m) 5)).
Proof.
  intros Hc. split.
  - intros gp x pre a b post num den fuel Hwa Hwb Ht Hp Ha Hb Hfuel after.
    assert (E : tree_eval fuel xcsf gp x
                = Some (if (den =? 0)%float then num else (num / den)%float,
                        after)).
    { rewrite (tree_eval_flatten xcsf x (Fn DIV a b)) with (pre := pre)
                                                          (post := post).
      - cbn [expr_eval]. rewrite Ha, Hb. cbn [mbind option_bind].
        unfold after. cbn [flatten length]. rewrite length_app.
        reflexivity.
      - cbn [wf_expr]. unfold DIV, GP_NUM_FUNC. repeat split; (lia || assumption).
      - assumption.
      - rewrite Ht. cbn [flatten app]. rewrite <- app_assoc. reflexivity.
      - assumption.
      - cbn [flatten length]. rewrite length_app. assumption. }
    split; intros Hz; rewrite E, Hz; reflexivity.
  - intros m k. apply scenario_tree_eval. assumption.
Qed.

Lemma tree_eval_protected_division_witness :
  tree_eval 5 xcsf0 (scenario_tree xcsf0 (Some [0.5%float])) [3%float]
  = Some (3%float, set_p (scenario_tree xcsf0 (Some [0.5%float])) 5).
Proof.
  assert (Hc : 0 <= GP_NUM_CONS xcsf0) by (vm_compute; discriminate).
  apply (proj1 (tree_eval_protected_division xcsf0 Hc)
           (scenario_tree xcsf0 (Some [0.5%float])) [3%float] []
           (Term (IN xcsf0 0))
           (Fn SUB (Term (IN xcsf0 0)) (Term (IN xcsf0 0))) []
           3%float 0%float 5%nat).
  - vm_compute. discriminate.
  - vm_compute. repeat split; discriminate.
  - reflexivity.
  - reflexivity.
  - reflexivity.
  - reflexivity.
  - vm_compute. lia.
  - reflexivity.
Defined.

(** Evaluating a valid tree from cursor 0 with fuel for its length is
    evaluating the expression it encodes; the cursor ends on the length
    of the tree. *)
Theorem tree_eval_valid_tree {D} xcsf x (gp : GP_TREE D) :
  valid_tree gp -> p gp = 0 -> 0 <= GP_NUM_CONS xcsf ->
  exists e,
    wf_expr e /\ tree gp = flatten e /\
    forall fuel, (length (tree gp) <= fuel)%nat ->
      tree_eval fuel xcsf gp x =
        (v ← expr_eval xcsf x e; Some (v, set_p gp (len gp))).
Proof.
  intros [(e & Hwf & Ht) Hlen] Hp Hc. exists e.
  split; [assumption|]. split; [assumption|]. intros fuel Hfuel.
  rewrite (tree_eval_flatten xcsf x e Hwf Hc fuel [] [] gp).
  - rewrite Hlen, Ht. reflexivity.
  - rewrite app_nil_r. assumption.
  - assumption.
  - rewrite <- Ht. assumption.
Qed.

(** ** Sub-tree crossover *)

Lemma memcpy_app (A X B P Y Q : list Z) (d s n : Z) :
  d = Z.of_nat (length A) -> s = Z.of_nat (length P) ->
  n = Z.of_nat (length Y) -> length X = length Y ->
  memcpy (A ++ X ++ B) d (P ++ Y ++ Q) s n = Some (A ++ Y ++ B).
Proof.
  intros -> -> -> HXY. unfold memcpy. rewrite !length_app.
  repeat match goal with
  | |- context [Z.ltb ?a ?b] => destruct (Z.ltb_spec a b); [lia|]
  end. simpl.
  rewrite !Nat2Z.id. rewrite take_app_length, drop_app_length, take_app_length.
  replace (Z.to_nat (Z.of_nat (length A) + Z.of_nat (length Y)))
    with (length (A ++ X)) by (rewrite length_app; lia).
  rewrite (app_assoc A X B), drop_app_length. reflexivity.
Qed.

(** The three copies that build a child: the head of the receiver, the
    donated range, the tail of the receiver. *)
Lemma crossover_child (pre1 s1 post1 pre2 s2 post2 : list Z) :
  let t1 := pre1 ++ s1 ++ post1 in
  let t2 := pre2 ++ s2 ++ post2 in
  let start1 := Z.of_nat (length pre1) in
  let end1 := Z.of_nat (length pre1 + length s1) in
  let start2 := Z.of_nat (length pre2) in
  let end2 := Z.of_nat (length pre2 + length s2) in
  let len1 := Z.of_nat (length t1) in
  exists n0 n1 n2,
    malloc_ints (start1 + (end2 - start2) + (len1 - end1)) = Some n0 /\
    memcpy n0 0 t1 0 start1 = Some n1 /\
    memcpy n1 start1 t2 start2 (end2 - start2) = Some n2 /\
    memcpy n2 (start1 + (end2 - start2)) t1 end1 (len1 - end1)
    = Some (pre1 ++ s2 ++ post1).
Proof.
  intros t1 t2 start1 end1 start2 end2 len1.
  unfold malloc_ints.
  assert (Hn : start1 + (end2 - start2) + (len1 - end1)
               = Z.of_nat (length pre1 + (length s2 + length post1))).
  { unfold start1, end1, start2, end2, len1, t1. rewrite !length_app. lia. }
  rewrite Hn. destruct (Z.ltb_spec (Z.of_nat (length pre1 + (length s2 + length post1))) 0); [lia|].
  rewrite Nat2Z.id, !replicate_add.
  set (za := replicate (length pre1) 0).
  set (zb := replicate (length s2) 0).
  set (zc := replicate (length post1) 0).
  exists (za ++ zb ++ zc), (pre1 ++ zb ++ zc), (pre1 ++ s2 ++ zc).
  split; [reflexivity|]. split; [|split].
  - apply (memcpy_app [] za (zb ++ zc) [] pre1 (s1 ++ post1));
      try reflexivity. apply length_replicate.
  - apply (memcpy_app pre1 zb zc pre2 s2 post2); try reflexivity.
    + unfold end2, start2. lia.
    + apply length_replicate.
  - pose proof (memcpy_app (pre1 ++ s2) zc [] (pre1 ++ s1) post1 []
                  (start1 + (end2 - start2)) end1 (len1 - end1)) as E.
    rewrite !app_nil_r, <- !app_assoc in E. apply E.
    + unfold start1, end2, start2. rewrite length_app. lia.
    + unfold end1. rewrite length_app. lia.
    + unfold len1, end1, t1. rewrite !length_app. lia.
    + apply length_replicate.
Qed.

(** The child that crossover leaves in place of a parent. *)
Definition child {D} (gp : GP_TREE D) (t : list Z) : GP_TREE D :=
  {| tree := t; len := Z.of_nat (length t); p := p gp; mu := None |}.

Lemma tree_crossover_splice {D} `{Random rng} xcsf (p1 p2 : GP_TREE D)
    (s s1 s2 : rng) start1 start2 pre1 sub1 post1 pre2 sub2 post2 :
  irand_uniform 0 (len p1) s = (start1, s1) ->
  irand_uniform 0 (len p2) s1 = (start2, s2) ->
  tree p1 = pre1 ++ flatten sub1 ++ post1 ->
  tree p2 = pre2 ++ flatten sub2 ++ post2 ->
  start1 = Z.of_nat (length pre1) ->
  start2 = Z.of_nat (length pre2) ->
  len p1 = Z.of_nat (length (tree p1)) ->
  len p2 = Z.of_nat (length (tree p2)) ->
  wf_expr sub1 -> wf_expr sub2 ->
  prefix_tree (pre1 ++ flatten sub2 ++ post1) ->
  prefix_tree (pre2 ++ flatten sub1 ++ post2) ->
  tree_crossover xcsf p1 p2 s
  = Some (child p1 (pre1 ++ flatten sub2 ++ post1),
          child p2 (pre2 ++ flatten sub1 ++ post2), s2).
Proof.
  intros R1 R2 T1 T2 -> -> L1 L2 W1 W2 V1 V2.
  unfold tree_crossover. rewrite R1.
  rewrite T1 at 1 2. rewrite tree_traverse_flatten;
    [|assumption|unfold traverse_fuel; rewrite !length_app; lia].
  cbn [mbind option_bind]. rewrite R2.
  rewrite T2 at 1 2. rewrite tree_traverse_flatten;
    [|assumption|unfold traverse_fuel; rewrite !length_app; lia].
  cbn [mbind option_bind]. rewrite L1, L2, T1, T2.
  destruct (crossover_child pre1 (flatten sub1) post1 pre2 (flatten sub2) post2)
    as (a0 & a1 & a2 & A0 & A1 & A2 & A3).
  destruct (crossover_child pre2 (flatten sub2) post2 pre1 (flatten sub1) post1)
    as (b0 & b1 & b2 & B0 & B1 & B2 & B3).
  cbv zeta in A0, A1, A2, A3, B0, B1, B2, B3.
  rewrite A0. cbn [mbind option_bind]. rewrite A1. cbn [mbind option_bind].
  rewrite A2. cbn [mbind option_bind]. rewrite A3. cbn [mbind option_bind].
  rewrite B0. cbn [mbind option_bind]. rewrite B1. cbn [mbind option_bind].
  rewrite B2. cbn [mbind option_bind]. rewrite B3. cbn [mbind option_bind].
  rewrite !tree_traverse_prefix_tree by assumption.
  reflexivity.
Qed.


(** C3 (amended). For every pair of valid GP trees and every state of the
    random number generator, crossover returns two valid prefix-encoded
    trees: traversing each from position 0 reaches exactly its recomputed
    length, which is the length of its code array.  The children are the
    parents with the two traversed ranges [start1, end1) and
    [start2, end2) exchanged, so the two lengths add up to the sum of the
    parents' lengths; no bound by [GP_MAX_LEN] is enforced. *)
Theorem tree_crossover_valid {D} `{Random rng} xcsf (p1 p2 : GP_TREE D)
    (s : rng) :
  valid_tree p1 -> valid_tree p2 ->
  exists c1 c2 s',
    tree_crossover xcsf p1 p2 s = Some (c1, c2, s') /\
    valid_tree c1 /\ valid_tree c2 /\
    tree_traverse (traverse_fuel (tree c1)) (tree c1) 0 = Some (len c1) /\
    tree_traverse (traverse_fuel (tree c2)) (tree c2) 0 = Some (len c2) /\
    len c1 + len c2 = len p1 + len p2 /\
    exists start1 end1 start2 end2 : nat,
      (start1 < end1 <= length (tree p1))%nat /\
      (start2 < end2 <= length (tree p2))%nat /\
      tree_traverse (traverse_fuel (tree p1)) (tree p1) (Z.of_nat start1)
        = Some (Z.of_nat end1) /\
      tree_traverse (traverse_fuel (tree p2)) (tree p2) (Z.of_nat start2)
        = Some (Z.of_nat end2) /\
      tree c1 = take start1 (tree p1)
                ++ take (end2 - start2) (drop start2 (tree p2))
                ++ drop end1 (tree p1) /\
      tree c2 = take start2 (tree p2)
                ++ take (end1 - start1) (drop start1 (tree p1))
                ++ drop end2 (tree p2).
Proof.
  intros [(e1 & We1 & T1) L1] [(e2 & We2 & T2) L2].
  destruct (irand_uniform 0 (len p1) s) as [start1 s1] eqn:R1.
  destruct (irand_uniform 0 (len p2) s1) as [start2 s2] eqn:R2.
  pose proof (flatten_length_pos e1) as P1.
  pose proof (flatten_length_pos e2) as P2.
  pose proof (irand_uniform_range 0 (len p1) s) as G1.
  pose proof (irand_uniform_range 0 (len p2) s1) as G2.
  rewrite R1 in G1. rewrite R2 in G2. simpl in G1, G2.
  rewrite L1, T1 in G1. rewrite L2, T2 in G2.
  specialize (G1 ltac:(lia)). specialize (G2 ltac:(lia)).
  destruct (subtree_at e1 We1 (Z.to_nat start1) ltac:(lia))
    as (sub1 & pre1 & post1 & Ws1 & F1 & Hp1 & Rep1).
  destruct (subtree_at e2 We2 (Z.to_nat start2) ltac:(lia))
    as (sub2 & pre2 & post2 & Ws2 & F2 & Hp2 & Rep2).
  rewrite <- T1 in F1. rewrite <- T2 in F2.
  exists (child p1 (pre1 ++ flatten sub2 ++ post1)),
         (child p2 (pre2 ++ flatten sub1 ++ post2)), s2.
  split.
  { apply (tree_crossover_splice xcsf p1 p2 s s1 s2 start1 start2);
      auto; lia. }
  split; [split; [apply Rep1; assumption|reflexivity]|].
  split; [split; [apply Rep2; assumption|reflexivity]|].
  split; [apply tree_traverse_prefix_tree, Rep1; assumption|].
  split; [apply tree_traverse_prefix_tree, Rep2; assumption|].
  split.
  { simpl. rewrite L1, L2, F1, F2, !length_app. lia. }
  pose proof (flatten_length_pos sub1) as Q1.
  pose proof (flatten_length_pos sub2) as Q2.
  exists (length pre1), (length pre1 + length (flatten sub1))%nat,
         (length pre2), (length pre2 + length (flatten sub2))%nat.
  split; [rewrite F1, !length_app; lia|].
  split; [rewrite F2, !length_app; lia|].
  split.
  { rewrite F1 at 2. apply tree_traverse_flatten; [assumption|].
    unfold traverse_fuel. rewrite F1, !length_app. lia. }
  split.
  { rewrite F2 at 2. apply tree_traverse_flatten; [assumption|].
    unfold traverse_fuel. rewrite F2, !length_app. lia. }
  assert (Hmid : forall (a b c : list Z),
             take (length a + length b - length a) (drop (length a) (a ++ b ++ c)) = b).
  { intros a b c. rewrite drop_app_length.
    replace (length a + length b - length a)%nat with (length b) by lia.
    apply take_app_length. }
  assert (Hend : forall (a b c : list Z),
             drop (length a + length b) (a ++ b ++ c) = c).
  { intros a b c. rewrite app_assoc, <- length_app. apply drop_app_length. }
  split; simpl.
  - rewrite F1, F2, take_app_length, Hmid, Hend. reflexivity.
  - rewrite F1, F2, take_app_length, Hmid, Hend. reflexivity.
Qed.

(** ** A concrete generator for the examples

    The draws are read off a tape of integers: an integer draw is reduced
    into the requested range, a real draw is a multiple of 1/1024 of it. *)
Definition tape : Type := list Z.

Definition tape_irand (lo hi : Z) (s : tape) : Z * tape :=
  match s with
  | [] => (lo, [])
  | r :: s' => (lo + r mod (hi - lo), s')
  end.

Definition tape_rand (lo hi : float) (s : tape) : float * tape :=
  match s with
  | [] => (lo, [])
  | r :: s' =>
    ((lo + (hi - lo) * (of_uint63 (Uint63.of_Z (r mod 1024)) / 1024))%float, s')
  end.

Lemma tape_irand_range lo hi s :
  lo < hi -> lo <= fst (tape_irand lo hi s) < hi.
Proof.
  intros Hlt. destruct s as [|r s']; simpl; [lia|].
  pose proof (Z.mod_pos_bound r (hi - lo) ltac:(lia)). lia.
Qed.

#[export] Instance tape_Random : Random tape :=
  {| irand_uniform := tape_irand;
     rand_uniform := tape_rand;
     irand_uniform_range := tape_irand_range |}.

(** A stand-in for sam.c in the examples: rates start at one half and
    adaptation leaves them as they are. *)
#[export] Instance tape_Sam : Sam tape :=
  {| SAM_RATE_SELECT := 0;
     sam_init := fun n _ s => (replicate n 0.5%float, s);
     sam_adapt := fun m _ _ s => (m, s) |}.

Lemma scenario_tree_valid {D} xcsf (m : option (list D)) :
  0 <= GP_NUM_CONS xcsf -> valid_tree (scenario_tree xcsf m).
Proof.
  intros Hc. split; [|reflexivity].
  exists (Fn DIV (Term (IN xcsf 0))
            (Fn SUB (Term (IN xcsf 0)) (Term (IN xcsf 0)))).
  split; [|reflexivity].
  cbn [wf_expr]. unfold IN, GP_NUM_FUNC, DIV, SUB. lia.
Qed.

Lemma tree_eval_valid_tree_witness :
  exists e,
    wf_expr e /\ tree (scenario_tree xcsf0 (Some [0.5%float])) = flatten e /\
    forall fuel,
      (length (tree (scenario_tree xcsf0 (Some [0.5%float]))) <= fuel)%nat ->
      tree_eval fuel xcsf0 (scenario_tree xcsf0 (Some [0.5%float])) [3%float]
      = (v ← expr_eval xcsf0 [3%float] e;
         Some (v, set_p (scenario_tree xcsf0 (Some [0.5%float]))
                    (len (scenario_tree xcsf0 (Some [0.5%float]))))).
Proof.
  apply (tree_eval_valid_tree xcsf0 [3%float]
           (scenario_tree xcsf0 (Some [0.5%float]))).
  - apply scenario_tree_valid. vm_compute. discriminate.
  - reflexivity.
  - vm_compute. discriminate.
Defined.

Lemma tree_crossover_valid_witness :
  exists c1 c2 s',
    tree_crossover xcsf0 (scenario_tree xcsf0 (Some [0.5%float]))
      (scenario_tree xcsf0 (Some [0.5%float])) [2; 1] = Some (c1, c2, s') /\
    valid_tree c1 /\ valid_tree c2.
Proof.
  destruct (tree_crossover_valid xcsf0
              (scenario_tree xcsf0 (Some [0.5%float]))
              (scenario_tree xcsf0 (Some [0.5%float])) [2; 1])
    as (c1 & c2 & s' & E & V1 & V2 & _).
  - apply scenario_tree_valid. vm_compute. discriminate.
  - apply scenario_tree_valid. vm_compute. discriminate.
  - exists c1, c2, s'. auto.
Defined.

(** A comb of [n] additions: [ADD(c, ADD(c, ... c))]. *)
Fixpoint comb (n : nat) : expr :=
  match n with
  | O => Term 4
  | S n' => Fn ADD (Term 4) (comb n')
  end.

Lemma comb_wf n : wf_expr (comb n).
Proof.
  induction n as [|n IH]; simpl; unfold GP_NUM_FUNC, ADD; [lia|].
  repeat split; (lia || assumption).
Qed.

Lemma comb_length n : length (flatten (comb n)) = (2 * n + 1)%nat.
Proof.
  induction n as [|n IH]; simpl; [reflexivity|]. rewrite IH. lia.
Qed.

(** A tree of 9999 nodes, within [GP_MAX_LEN]. *)
Definition comb_tree : GP_TREE float :=
  {| tree := flatten (comb 4999); len := 9999; p := 0;
     mu := Some [0.5%float] |}.

Lemma comb_tree_valid : valid_tree comb_tree.
Proof.
  split.
  - exists (comb 4999). split; [apply comb_wf|reflexivity].
  - unfold comb_tree; cbn [tree len]. rewrite comb_length. reflexivity.
Qed.

(** C3, counterexample. Two valid parents of 9999 nodes each, both within
    [GP_MAX_LEN]: when the first draw selects the terminal at position 1
    of the first parent and the second draw the root of the second, the
    first child has 19997 nodes, more than [GP_MAX_LEN]. *)
Lemma tree_crossover_exceeds_GP_MAX_LEN :
  valid_tree comb_tree /\ len comb_tree <= GP_MAX_LEN /\
  exists c1 c2 s',
    tree_crossover xcsf0 comb_tree comb_tree [1; 0] = Some (c1, c2, s') /\
    len c1 = 19997 /\ ~ len c1 <= GP_MAX_LEN.
Proof.
  split; [apply comb_tree_valid|].
  split; [unfold GP_MAX_LEN; cbn; lia|].
  exists (child comb_tree ([ADD] ++ flatten (comb 4999) ++ flatten (comb 4998))),
         (child comb_tree ([] ++ flatten (Term 4) ++ [])), [].
  assert (Hlen : len (child comb_tree
                   ([ADD] ++ flatten (comb 4999) ++ flatten (comb 4998)))
                 = 19997).
  { cbn [child len]. rewrite !length_app, !comb_length. reflexivity. }
  split; [|rewrite Hlen; unfold GP_MAX_LEN; lia].
  apply (tree_crossover_splice xcsf0 comb_tree comb_tree [1; 0] [0] []
           1 0 [ADD] (Term 4) (flatten (comb 4998)) [] (comb 4999) []).
  - reflexivity.
  - reflexivity.
  - reflexivity.
  - cbn [comb_tree tree]. rewrite app_nil_r. reflexivity.
  - reflexivity.
  - reflexivity.
  - cbn [comb_tree tree len]. rewrite comb_length. reflexivity.
  - cbn [comb_tree tree len]. rewrite comb_length. reflexivity.
  - cbn [wf_expr]; unfold GP_NUM_FUNC; lia.
  - apply comb_wf.
  - exists (Fn ADD (comb 4999) (comb 4998)). split; [|reflexivity].
    cbn [wf_expr]. split; [unfold GP_NUM_FUNC, ADD; lia|].
    split; apply comb_wf.
  - exists (Term 4). split; [cbn [wf_expr]; unfold GP_NUM_FUNC; lia|reflexivity].
Qed.

(** ** Random growth *)

Lemma array_set_Some {A} (a b : list A) (i : Z) (v : A) :
  array_set a i v = Some b ->
  0 <= i < Z.of_nat (length a) /\ b = <[Z.to_nat i := v]> a.
Proof.
  unfold array_set.
  destruct (Z.ltb_spec i 0); [discriminate|].
  destruct (Z.leb_spec (Z.of_nat (length a)) i); [discriminate|].
  simpl. intros [= <-]. split; [lia|reflexivity].
Qed.

Lemma array_set_in_range {A} (a : list A) (i : Z) (v : A) :
  0 <= i < Z.of_nat (length a) ->
  array_set a i v = Some (<[Z.to_nat i := v]> a).
Proof.
  intros Hi. unfold array_set.
  destruct (Z.ltb_spec i 0); [lia|].
  destruct (Z.leb_spec (Z.of_nat (length a)) i); [lia|]. reflexivity.
Qed.

Lemma is_function_range c : is_function c = true <-> 0 <= c < GP_NUM_FUNC.
Proof.
  unfold is_function, ADD, SUB, MUL, DIV, GP_NUM_FUNC.
  rewrite !orb_true_iff, !Z.eqb_eq. lia.
Qed.

Section Grow.
Context `{Random rng}.

(** The three ways in which one call of [tree_grow] returns. *)
Inductive grow_step (fuel : nat) (xcsf : XCSF) (buffer : list Z)
    (p max depth : Z) (s : rng) (r : Z) (b : list Z) (s' : rng) : Prop :=
  | grow_full :
      max <= p -> r = -1 -> b = buffer -> s' = snd (irand_uniform 0 2 s) ->
      grow_step fuel xcsf buffer p max depth s r b s'
  | grow_terminal c :
      p < max ->
      (p <> 0 /\ fst (irand_uniform 0 2 s) = 0) \/ depth = 0 ->
      irand_uniform GP_NUM_FUNC (GP_NUM_FUNC + GP_NUM_CONS xcsf + x_dim xcsf)
        (snd (irand_uniform 0 2 s)) = (c, s') ->
      array_set buffer p c = Some b -> r = p + 1 ->
      grow_step fuel xcsf buffer p max depth s r b s'
  | grow_function c s1 b0 r1 b1 s2 :
      p < max ->
      p = 0 \/ fst (irand_uniform 0 2 s) <> 0 -> depth <> 0 ->
      irand_uniform 0 GP_NUM_FUNC (snd (irand_uniform 0 2 s)) = (c, s1) ->
      is_function c = true ->
      array_set buffer p c = Some b0 ->
      tree_grow fuel xcsf b0 (p + 1) max (depth - 1) s1 = Some (r1, b1, s2) ->
      (r1 < 0 /\ r = -1 /\ b = b1 /\ s' = s2) \/
      (0 <= r1 /\
       tree_grow fuel xcsf b1 r1 max (depth - 1) s2 = Some (r, b, s')) ->
      grow_step fuel xcsf buffer p max depth s r b s'.

Lemma tree_grow_inv fuel xcsf buffer p max depth s r b s' :
  tree_grow (S fuel) xcsf buffer p max depth s = Some (r, b, s') ->
  grow_step fuel xcsf buffer p max depth s r b s'.
Proof.
  cbn [tree_grow]. destruct (irand_uniform 0 2 s) as [prim0 s0] eqn:E0.
  destruct (Z.leb_spec max p) as [Hm|Hm].
  { intros [= <- <- <-]. apply grow_full; try reflexivity; try assumption.
    rewrite E0. reflexivity. }
  destruct (((if p =? 0 then 1 else prim0) =? 0) || (depth =? 0)) eqn:Et.
  - destruct (irand_uniform GP_NUM_FUNC _ s0) as [c s1] eqn:E1.
    destruct (array_set buffer p c) as [b0|] eqn:Ea; [|discriminate].
    cbn [mbind option_bind]. intros [= <- <- <-].
    apply (grow_terminal _ _ _ _ _ _ _ _ _ _ c); try assumption;
      try reflexivity; rewrite ?E0; cbn [fst snd]; try assumption.
    apply orb_true_iff in Et. destruct Et as [Et|Et]; [left|right; lia].
    destruct (Z.eqb_spec p 0); [discriminate|]. split; [assumption|lia].
  - apply orb_false_iff in Et. destruct Et as [Et1 Et2].
    destruct (irand_uniform 0 GP_NUM_FUNC s0) as [c s1] eqn:E1.
    destruct (is_function c) eqn:Ef; [|discriminate].
    destruct (array_set buffer p c) as [b0|] eqn:Ea; [|discriminate].
    cbn [mbind option_bind].
    destruct (tree_grow fuel xcsf b0 (p + 1) max (depth - 1) s1)
      as [[[r1 b1] s2]|] eqn:Eg; [|discriminate].
    cbn [mbind option_bind]. intros Hr.
    apply (grow_function _ _ _ _ _ _ _ _ _ _ c s1 b0 r1 b1 s2);
      rewrite ?E0; cbn [fst snd]; try assumption; try lia.
    + destruct (Z.eqb_spec p 0); [left; assumption|right; lia].
    + destruct (Z.ltb_spec r1 0).
      * left. injection Hr as <- <- <-. auto.
      * right. auto.
Qed.

(** Growth from [p] leaves the buffer below [p] alone, keeps its size,
    and ends within [max]. *)
Lemma tree_grow_frame fuel : forall xcsf buffer p max depth s r b s',
  0 <= p ->
  tree_grow fuel xcsf buffer p max depth s = Some (r, b, s') ->
  length b = length buffer /\ (r = -1 \/ p < r <= max) /\
  forall i, (i < Z.to_nat p)%nat -> b !! i = buffer !! i.
Proof.
  induction fuel as [|fuel IH]; intros xcsf buffer p max depth s r b s' Hp Hg;
    [discriminate|].
  apply tree_grow_inv in Hg.
  destruct Hg as [Hm -> -> _
                 |c Hm _ _ Ha ->
                 |c s1 b0 r1 b1 s2 Hm _ _ _ _ Ha Hg1 Hg2].
  - auto.
  - apply array_set_Some in Ha. destruct Ha as [Hi ->].
    rewrite length_insert. split; [reflexivity|]. split; [lia|].
    intros i Hlt. apply list_lookup_insert_ne. lia.
  - apply array_set_Some in Ha. destruct Ha as [Hi ->].
    apply IH in Hg1; [|lia]. destruct Hg1 as (L1 & R1 & F1).
    rewrite length_insert in L1.
    assert (F0 : forall i, (i < Z.to_nat p)%nat -> b1 !! i = buffer !! i).
    { intros i Hlt. rewrite F1 by lia. apply list_lookup_insert_ne. lia. }
    destruct Hg2 as [(Hneg & -> & -> & _)|(Hpos & Hg2)].
    + auto.
    + apply IH in Hg2; [|lia]. destruct Hg2 as (L2 & R2 & F2).
      split; [congruence|]. split; [lia|].
      intros i Hlt. rewrite F2 by lia. apply F0. assumption.
Qed.

(** A grown tree whose depth bound is not zero has a function at its root. *)
Lemma tree_grow_root fuel xcsf buffer max depth s r b s' :
  depth <> 0 -> 0 <= r ->
  tree_grow fuel xcsf buffer 0 max depth s = Some (r, b, s') ->
  exists c, b !! 0%nat = Some c /\ 0 <= c < GP_NUM_FUNC.
Proof.
  intros Hd Hr Hg. destruct fuel as [|fuel]; [discriminate|].
  apply tree_grow_inv in Hg.
  destruct Hg as [Hm -> _ _
                 |c Hm [[Hp _]|Hd0] _ _ _
                 |c s1 b0 r1 b1 s2 Hm _ _ _ Hf Ha Hg1 Hg2]; try lia.
  apply array_set_Some in Ha. destruct Ha as [Hi ->].
  exists c. split; [|apply is_function_range; assumption].
  assert (Hb1 : b1 !! 0%nat = Some c).
  { apply tree_grow_frame in Hg1; [|lia]. destruct Hg1 as (_ & _ & F1).
    rewrite F1 by lia. apply list_lookup_insert_eq. lia. }
  destruct Hg2 as [(Hneg & -> & _)|(Hpos & Hg2)]; [lia|].
  pose proof Hg1 as Hg1'. apply tree_grow_frame in Hg1'; [|lia].
  destruct Hg1' as (_ & [->|R1] & _); [lia|].
  apply tree_grow_frame in Hg2; [|lia]. destruct Hg2 as (_ & _ & F2).
  rewrite F2 by lia. assumption.
Qed.

(** With fuel beyond [max - p] every call returns: the recursion is
    bounded by the positions left, whatever the depth bound. *)
Lemma tree_grow_total fuel : forall xcsf buffer p max depth s,
  0 <= p -> max <= Z.of_nat (length buffer) ->
  (Z.to_nat (max - p) < fuel)%nat ->
  exists r b s', tree_grow fuel xcsf buffer p max depth s = Some (r, b, s').
Proof.
  induction fuel as [|fuel IH]; intros xcsf buffer p max depth s Hp Hmax Hfuel;
    [lia|].
  cbn [tree_grow]. destruct (irand_uniform 0 2 s) as [prim0 s0].
  destruct (Z.leb_spec max p) as [Hm|Hm]; [eauto|].
  destruct (((if p =? 0 then 1 else prim0) =? 0) || (depth =? 0)).
  - destruct (irand_uniform GP_NUM_FUNC _ s0) as [c s1].
    rewrite array_set_in_range by lia. cbn [mbind option_bind]. eauto.
  - pose proof (irand_uniform_range 0 GP_NUM_FUNC s0) as Hc.
    destruct (irand_uniform 0 GP_NUM_FUNC s0) as [c s1]. cbn [fst] in Hc.
    specialize (Hc ltac:(unfold GP_NUM_FUNC; lia)).
    apply is_function_range in Hc. rewrite Hc.
    rewrite array_set_in_range by lia. cbn [mbind option_bind].
    destruct (IH xcsf (<[Z.to_nat p := c]> buffer) (p + 1) max (depth - 1) s1)
      as (r1 & b1 & s2 & Eg1); [lia|rewrite length_insert; lia|lia|].
    rewrite Eg1. cbn [mbind option_bind].
    destruct (Z.ltb_spec r1 0); [eauto|].
    apply tree_grow_frame in Eg1; [|lia]. destruct Eg1 as (L1 & R1 & _).
    rewrite length_insert in L1.
    apply IH; lia.
Qed.

(** What growth leaves in the buffer from [p] up to the returned position
    does not depend on what the buffer held before. *)
Lemma tree_grow_buffer fuel : forall xcsf b1 b2 p max depth s r b1' s',
  0 <= p -> length b1 = length b2 ->
  tree_grow fuel xcsf b1 p max depth s = Some (r, b1', s') ->
  exists b2',
    tree_grow fuel xcsf b2 p max depth s = Some (r, b2', s') /\
    forall i, (Z.to_nat p <= i < Z.to_nat r)%nat -> b1' !! i = b2' !! i.
Proof.
  induction fuel as [|fuel IH];
    intros xcsf b1 b2 p max depth s r b1' s' Hp Hlen Hg; [discriminate|].
  cbn [tree_grow] in *. destruct (irand_uniform 0 2 s) as [prim0 s0].
  destruct (Z.leb_spec max p) as [Hm|Hm].
  { injection Hg as <- <- <-. exists b2. split; [reflexivity|].
    intros i Hi. simpl in Hi. lia. }
  destruct (((if p =? 0 then 1 else prim0) =? 0) || (depth =? 0)).
  - destruct (irand_uniform GP_NUM_FUNC _ s0) as [c s1].
    destruct (array_set b1 p c) as [b0|] eqn:Ea; [|discriminate].
    apply array_set_Some in Ea. destruct Ea as [Hi ->].
    rewrite array_set_in_range by lia. cbn [mbind option_bind] in *.
    injection Hg as <- <- <-. eexists. split; [reflexivity|].
    intros i Hr. assert (i = Z.to_nat p) as -> by lia.
    rewrite !list_lookup_insert_eq by lia. reflexivity.
  - destruct (irand_uniform 0 GP_NUM_FUNC s0) as [c s1].
    destruct (is_function c); [|discriminate].
    destruct (array_set b1 p c) as [b0|] eqn:Ea; [|discriminate].
    apply array_set_Some in Ea. destruct Ea as [Hi ->].
    rewrite array_set_in_range by lia. cbn [mbind option_bind] in *.
    destruct (tree_grow fuel xcsf (<[Z.to_nat p := c]> b1) (p + 1) max
                (depth - 1) s1) as [[[r1 b1a] s2]|] eqn:Eg1; [|discriminate].
    cbn [mbind option_bind] in Hg.
    assert (Hp1 : 0 <= p + 1) by lia.
    assert (Hl1 : length (<[Z.to_nat p := c]> b1)
                  = length (<[Z.to_nat p := c]> b2))
      by (rewrite !length_insert; lia).
    destruct (IH _ _ _ _ _ _ _ _ _ _ Hp1 Hl1 Eg1) as (b2a & Eg2 & Agree1).
    rewrite Eg2. cbn [mbind option_bind].
    pose proof (tree_grow_frame _ _ _ _ _ _ _ _ _ _ Hp1 Eg1)
      as (L1 & R1 & F1).
    pose proof (tree_grow_frame _ _ _ _ _ _ _ _ _ _ Hp1 Eg2)
      as (L2 & _ & F2).
    rewrite length_insert in L1, L2.
    destruct (Z.ltb_spec r1 0).
    { injection Hg as <- <- <-. exists b2a. split; [reflexivity|].
      intros i Hr. simpl in Hr. lia. }
    assert (Hr1 : 0 <= r1) by lia.
    assert (Hl2 : length b1a = length b2a) by lia.
    destruct (IH _ _ _ _ _ _ _ _ _ _ Hr1 Hl2 Hg) as (b2' & Eg2' & Agree2).
    exists b2'. split; [assumption|].
    pose proof (tree_grow_frame _ _ _ _ _ _ _ _ _ _ Hr1 Hg)
      as (_ & R & F1').
    pose proof (tree_grow_frame _ _ _ _ _ _ _ _ _ _ Hr1 Eg2')
      as (_ & _ & F2').
    intros i Hr.
    destruct (Nat.lt_ge_cases i (Z.to_nat r1)) as [Hlt|Hge];
      [|apply Agree2; lia].
    rewrite F1', F2' by assumption.
    destruct (Nat.eq_dec i (Z.to_nat p)) as [->|Hne].
    + rewrite F1, F2 by lia. rewrite !list_lookup_insert_eq by lia. reflexivity.
    + apply Agree1. lia.
Qed.

(** The same for the retry loop: the tree found, and the state of the
    generator after it, do not depend on the initial buffer. *)
Lemma tree_rand_grow_buffer tries : forall xcsf b1 b2 s n b1' s',
  length b1 = length b2 ->
  tree_rand_grow tries xcsf b1 s = Some (n, b1', s') ->
  exists b2',
    tree_rand_grow tries xcsf b2 s = Some (n, b2', s') /\
    length b2' = length b1' /\
    forall i, (i < Z.to_nat n)%nat -> b1' !! i = b2' !! i.
Proof.
  induction tries as [|tries IH]; intros xcsf b1 b2 s n b1' s' Hlen Hr;
    [discriminate|].
  cbn [tree_rand_grow] in *.
  destruct (tree_grow grow_fuel xcsf b1 0 GP_MAX_LEN (GP_INIT_DEPTH xcsf) s)
    as [[[r b1a] s1]|] eqn:Eg1; [|discriminate].
  cbn [mbind option_bind] in Hr.
  destruct (tree_grow_buffer _ _ _ b2 _ _ _ _ _ _ _ (Z.le_refl 0) Hlen Eg1)
    as (b2a & Eg2 & Agree).
  rewrite Eg2. cbn [mbind option_bind].
  pose proof (tree_grow_frame _ _ _ _ _ _ _ _ _ _ (Z.le_refl 0) Eg1) as (L1 & _).
  pose proof (tree_grow_frame _ _ _ _ _ _ _ _ _ _ (Z.le_refl 0) Eg2) as (L2 & _).
  destruct (Z.ltb_spec r 0).
  - apply (IH xcsf b1a b2a); [congruence|assumption].
  - injection Hr as <- <- <-. exists b2a. split; [reflexivity|].
    split; [congruence|]. intros i Hi. apply Agree. simpl. lia.
Qed.

Lemma tree_rand_grow_spec tries : forall xcsf buffer s n b s',
  tree_rand_grow tries xcsf buffer s = Some (n, b, s') ->
  length b = length buffer /\ 0 < n <= GP_MAX_LEN /\
  (GP_INIT_DEPTH xcsf <> 0 ->
   exists c, b !! 0%nat = Some c /\ 0 <= c < GP_NUM_FUNC).
Proof.
  induction tries as [|tries IH]; intros xcsf buffer s n b s' Hr;
    [discriminate|].
  cbn [tree_rand_grow] in Hr.
  destruct (tree_grow grow_fuel xcsf buffer 0 GP_MAX_LEN (GP_INIT_DEPTH xcsf) s)
    as [[[r b1] s1]|] eqn:Eg; [|discriminate].
  cbn [mbind option_bind] in Hr.
  pose proof (tree_grow_frame _ _ _ _ _ _ _ _ _ _ (Z.le_refl 0) Eg)
    as (L & R & _).
  destruct (Z.ltb_spec r 0) as [Hneg|Hpos].
  - apply IH in Hr. destruct Hr as (L' & Hn & Hroot).
    split; [congruence|]. auto.
  - injection Hr as <- <- <-. split; [assumption|]. split; [lia|].
    intros Hd. apply (tree_grow_root _ _ _ _ _ _ _ _ _ Hd Hpos Eg).
Qed.

Lemma take_agree {A} (l1 l2 : list A) (n : nat) :
  (forall i, (i < n)%nat -> l1 !! i = l2 !! i) -> take n l1 = take n l2.
Proof.
  intros Hagree. apply list_eq. intros i.
  destruct (Nat.lt_ge_cases i n) as [Hlt|Hge].
  - rewrite !lookup_take_lt by assumption. apply Hagree. assumption.
  - rewrite !lookup_take_ge by assumption. reflexivity.
Qed.

(** The copy of the grown tree out of the buffer. *)
Lemma memcpy_from_buffer (buffer : list Z) (n : Z) :
  0 <= n <= Z.of_nat (length buffer) ->
  (tree ← malloc_ints n; memcpy tree 0 buffer 0 n)
  = Some (take (Z.to_nat n) buffer).
Proof.
  intros Hn. unfold malloc_ints.
  destruct (Z.ltb_spec n 0); [lia|]. cbn [mbind option_bind].
  unfold memcpy. rewrite length_replicate.
  repeat match goal with
  | |- context [Z.ltb ?a ?b] => destruct (Z.ltb_spec a b); [lia|]
  end. cbn [orb].
  change (Z.to_nat 0) with 0%nat. rewrite take_0, drop_0. cbn [app].
  replace (Z.to_nat (0 + n)) with (length (replicate (Z.to_nat n) 0))
    by (rewrite length_replicate; lia).
  rewrite drop_all, app_nil_r. reflexivity.
Qed.

End Grow.

Section Rand.
Context `{Random rng} `{!Sam rng}.

Lemma tree_rand_from_buffer tries xcsf gp (b1 b2 : list Z) (s : rng) :
  length b1 = length b2 ->
  tree_rand_from tries xcsf gp b1 s = tree_rand_from tries xcsf gp b2 s.
Proof.
  intros Hlen. unfold tree_rand_from.
  destruct (tree_rand_grow tries xcsf b1 s) as [[[n b1'] s1]|] eqn:E1.
  - destruct (tree_rand_grow_buffer _ _ _ b2 _ _ _ _ Hlen E1)
      as (b2' & E2 & L & Agree).
    rewrite E2. cbn [mbind option_bind].
    unfold memcpy. rewrite L.
    rewrite (take_agree (drop (Z.to_nat 0) b1') (drop (Z.to_nat 0) b2'));
      [reflexivity|].
    intros i Hi. change (Z.to_nat 0) with 0%nat. rewrite !drop_0.
    apply Agree. assumption.
  - destruct (tree_rand_grow tries xcsf b2 s) as [[[n b2'] s1]|] eqn:E2;
      [|reflexivity].
    destruct (tree_rand_grow_buffer _ _ _ b1 _ _ _ _ (eq_sym Hlen) E2)
      as (b1' & E1' & _). congruence.
Qed.

(** C6 (amended). Random growth with a depth bound [GP_INIT_DEPTH] other
    than zero always leaves a function node (a code below [GP_NUM_FUNC])
    at the root of the tree it produces, for every sequence of random
    draws.  Every growth attempt returns, either a length within
    [GP_MAX_LEN] or [-1] because position [GP_MAX_LEN] was reached; after
    a [-1] the run continues exactly as a fresh [tree_rand] from the state
    the generator is then in: the partial tree is discarded and growth
    starts again from position 0. *)
Theorem tree_rand_root_function tries xcsf (gp : GP_TREE float) (s : rng) :
  (GP_INIT_DEPTH xcsf <> 0 ->
   forall gp' s', tree_rand tries xcsf gp s = Some (gp', s') ->
   exists c, array_get (tree gp') 0 = Some c /\ 0 <= c < GP_NUM_FUNC) /\
  (exists r b s1,
     tree_grow grow_fuel xcsf (replicate (Z.to_nat GP_MAX_LEN) 0) 0
       GP_MAX_LEN (GP_INIT_DEPTH xcsf) s = Some (r, b, s1) /\
     (r = -1 \/ 0 < r <= GP_MAX_LEN)) /\
  (forall b s1,
     tree_grow grow_fuel xcsf (replicate (Z.to_nat GP_MAX_LEN) 0) 0
       GP_MAX_LEN (GP_INIT_DEPTH xcsf) s = Some (-1, b, s1) ->
     tree_rand (S tries) xcsf gp s = tree_rand tries xcsf gp s1).
Proof.
  split; [|split].
  - intros Hd gp' s'. unfold tree_rand, tree_rand_from.
    destruct (tree_rand_grow tries xcsf _ s) as [[[n b] s1]|] eqn:E;
      [|discriminate].
    cbn [mbind option_bind].
    apply tree_rand_grow_spec in E. destruct E as (L & Hn & Hroot).
    rewrite length_replicate in L.
    pose proof (memcpy_from_buffer b n ltac:(unfold GP_MAX_LEN in *; lia)) as M.
    destruct (malloc_ints n) as [t0|]; [|discriminate].
    cbn [mbind option_bind] in *. rewrite M. cbn [mbind option_bind].
    destruct (sam_init N_MU MU_TYPE s1) as [m s2].
    intros [= <- <-]. cbn [tree].
    destruct (Hroot Hd) as (c & Hc & Hrange). exists c. split; [|assumption].
    unfold array_get. cbn. rewrite lookup_take_lt by lia. assumption.
  - destruct (tree_grow_total grow_fuel xcsf
                (replicate (Z.to_nat GP_MAX_LEN) 0) 0 GP_MAX_LEN
                (GP_INIT_DEPTH xcsf) s) as (r & b & s1 & E).
    + lia.
    + rewrite length_replicate. unfold GP_MAX_LEN. lia.
    + unfold grow_fuel. lia.
    + exists r, b, s1. split; [assumption|].
      apply tree_grow_frame in E; [|lia]. destruct E as (_ & R & _). lia.
  - intros b s1 E. unfold tree_rand at 1. unfold tree_rand_from.
    cbn [tree_rand_grow]. rewrite E. cbn [mbind option_bind].
    change (-1 <? 0) with true. cbv iota.
    apply tree_grow_frame in E; [|lia]. destruct E as (L & _).
    apply (tree_rand_from_buffer tries xcsf gp b _ s1). assumption.
Qed.

End Rand.

Definition gp0 : GP_TREE float :=
  {| tree := []; len := 0; p := 0; mu := None |}.

Lemma tree_rand_root_function_witness :
  exists c,
    array_get (tree {| tree := [3; 6; 5]; len := 3; p := 0;
                       mu := Some [0.5%float] |}) 0 = Some c /\
    0 <= c < GP_NUM_FUNC.
Proof.
  apply (proj1 (tree_rand_root_function 1 xcsf0 gp0 [0; 3; 0; 2; 0; 1])
           ltac:(vm_compute; discriminate) _ []).
  vm_compute. reflexivity.
Defined.

Definition xcsf_depth0 : XCSF :=
  {| GP_NUM_CONS := 2; GP_INIT_DEPTH := 0; x_dim := 1;
     gp_cons := [0.5%float; 2%float] |}.

(** C6, counterexample. With [GP_INIT_DEPTH = 0] the test [depth == 0]
    overrides the forced function at the root: the tree produced is the
    single terminal 5. *)
Lemma tree_rand_depth0_terminal_root :
  GP_INIT_DEPTH xcsf_depth0 = 0 /\
  tree_rand 1 xcsf_depth0 gp0 [0; 1]
  = Some ({| tree := [5]; len := 1; p := 0; mu := Some [0.5%float] |}, []) /\
  ~ (5 < GP_NUM_FUNC).
Proof.
  split; [reflexivity|]. split; [vm_compute; reflexivity|].
  unfold GP_NUM_FUNC. lia.
Qed.

(** ** Point mutation *)

Section Mutate.
Context `{Random rng} `{!Sam rng}.

Lemma tree_mutate_scan_spec n : forall i tmax m t changed (s : rng) t' changed' s',
  0 <= i ->
  tree_mutate_scan n i tmax m t changed s = Some (t', changed', s') ->
  length t' = length t /\
  (changed' = false -> t' = t /\ changed = false) /\
  (GP_NUM_FUNC < tmax ->
   forall j c c', t !! j = Some c -> t' !! j = Some c' ->
                  (GP_NUM_FUNC <= c <-> GP_NUM_FUNC <= c')).
Proof.
  induction n as [|n IH]; intros i tmax m t changed s t' changed' s' Hi Hs.
  { injection Hs as <- <- <-. split; [reflexivity|]. split; [auto|].
    intros _ j c c' Hc Hc'. rewrite Hc in Hc'. injection Hc' as <-. tauto. }
  cbn [tree_mutate_scan] in Hs.
  destruct (rand_uniform 0 1 s) as [r s0].
  destruct (array_get m 0) as [mu0|]; [|discriminate].
  cbn [mbind option_bind] in Hs.
  destruct (r <? mu0)%float.
  2:{ apply IH in Hs; [assumption|lia]. }
  destruct (array_get t i) as [node|] eqn:En; [|discriminate].
  cbn [mbind option_bind] in Hs.
  assert (Hstep : forall v s1,
    (GP_NUM_FUNC < tmax -> (GP_NUM_FUNC <= node <-> GP_NUM_FUNC <= v)) ->
    (t1 ← array_set t i v; tree_mutate_scan n (i + 1) tmax m t1 true s1)
      = Some (t', changed', s') ->
    length t' = length t /\
    (changed' = false -> t' = t /\ changed = false) /\
    (GP_NUM_FUNC < tmax ->
     forall j c c', t !! j = Some c -> t' !! j = Some c' ->
                    (GP_NUM_FUNC <= c <-> GP_NUM_FUNC <= c'))).
  { intros v s1 Hv Hs1.
    destruct (array_set t i v) as [t1|] eqn:Ea; [|discriminate].
    cbn [mbind option_bind] in Hs1.
    apply array_set_Some in Ea. destruct Ea as [Hr ->].
    apply IH in Hs1; [|lia]. destruct Hs1 as (L & C & K).
    rewrite length_insert in L.
    split; [assumption|]. split.
    - intros Hf. destruct (C Hf) as [_ ?]. discriminate.
    - intros Ht j c c' Hc Hc'.
      destruct (Nat.eq_dec j (Z.to_nat i)) as [->|Hne].
      + unfold array_get in En. destruct (Z.ltb_spec i 0); [lia|].
        rewrite Hc in En. injection En as ->.
        rewrite (Hv Ht). apply (K Ht (Z.to_nat i)); [|assumption].
        apply list_lookup_insert_eq. lia.
      + apply (K Ht j); [|assumption].
        rewrite list_lookup_insert_ne by lia. assumption. }
  destruct (Z.leb_spec GP_NUM_FUNC node) as [Hn|Hn].
  - pose proof (irand_uniform_range GP_NUM_FUNC tmax s0) as Hv.
    destruct (irand_uniform GP_NUM_FUNC tmax s0) as [v s1]. cbn [fst] in Hv.
    apply (Hstep v s1); [|assumption]. intros Ht. specialize (Hv Ht). lia.
  - pose proof (irand_uniform_range 0 GP_NUM_FUNC s0) as Hv.
    destruct (irand_uniform 0 GP_NUM_FUNC s0) as [v s1]. cbn [fst] in Hv.
    apply (Hstep v s1); [|assumption]. intros Ht.
    specialize (Hv ltac:(unfold GP_NUM_FUNC; lia)). lia.
Qed.

(** Whenever [tree_mutate] leaves at least one node of the tree
    different from its value before the call, it returns true: a result
    of false means that the code array is unchanged.  The scan keeps the
    length, and, when there is at least one terminal code, replaces
    functions by functions and terminals by terminals. *)
Theorem tree_mutate_changed xcsf (gp : GP_TREE float) (s : rng)
    changed gp' s' :
  tree_mutate xcsf gp s = Some (changed, gp', s') ->
  (tree gp' <> tree gp -> changed = true) /\
  length (tree gp') = length (tree gp) /\
  (0 < GP_NUM_CONS xcsf + x_dim xcsf ->
   forall j c c', tree gp !! j = Some c -> tree gp' !! j = Some c' ->
                  (GP_NUM_FUNC <= c <-> GP_NUM_FUNC <= c')).
Proof.
  unfold tree_mutate. destruct (mu gp) as [m|]; [|discriminate].
  cbn [mbind option_bind].
  destruct (sam_adapt m N_MU MU_TYPE s) as [m' s0].
  destruct (tree_mutate_scan _ 0 _ m' (tree gp) false s0)
    as [[[t ch] s1]|] eqn:Es; [|discriminate].
  cbn [mbind option_bind]. intros [= <- <- <-]. cbn [tree].
  apply tree_mutate_scan_spec in Es; [|lia]. destruct Es as (L & C & K).
  split; [|split].
  - intros Hne. destruct ch; [reflexivity|].
    destruct (C eq_refl) as [-> _]. contradiction.
  - assumption.
  - intros Ht. apply K. lia.
Qed.

End Mutate.

Lemma tree_mutate_changed_witness :
  let gp := scenario_tree xcsf0 (Some [0.5%float]) in
  let gp' := {| tree := [3; 5; 1; 6; 6]; len := 5; p := 0;
                mu := Some [0.5%float] |} in
  (tree gp' <> tree gp -> true = true) /\
  length (tree gp') = length (tree gp) /\
  (0 < GP_NUM_CONS xcsf0 + x_dim xcsf0 ->
   forall j c c', tree gp !! j = Some c -> tree gp' !! j = Some c' ->
                  (GP_NUM_FUNC <= c <-> GP_NUM_FUNC <= c')).
Proof.
  apply (@tree_mutate_changed tape tape_Random tape_Sam xcsf0
           (scenario_tree xcsf0 (Some [0.5%float]))
           [1023; 0; 1; 1023; 1023; 1023] true
           {| tree := [3; 5; 1; 6; 6]; len := 5; p := 0;
              mu := Some [0.5%float] |} []).
  vm_compute. reflexivity.
Defined.

(** C7, failing input. The root [DIV] is selected for mutation and the
    draw among the functions returns [DIV] again: no node differs from its
    value before the call, and the rates are as they were, yet
    [tree_mutate] returns true: [changed] is set before the draw and
    never compared with the value replaced. *)
Lemma tree_mutate_true_without_change :
  tree_mutate xcsf0 (scenario_tree xcsf0 (Some [0.5%float]))
    [0; 3; 1023; 1023; 1023; 1023]
  = Some (true, scenario_tree xcsf0 (Some [0.5%float]), []).
Proof. vm_compute. reflexivity. Qed.

(** ** Persistence of GP trees *)

(** The values that the C type of a GP tree admits: [int] fields, a code
    array of [len >= 1] cells and [N_MU] mutation rates. *)
Definition tree_storable {D} (gp : GP_TREE D) : Prop :=
  int_range (p gp) /\ int_range (len gp) /\ Forall int_range (tree gp) /\
  1 <= len gp /\ len gp = Z.of_nat (length (tree gp)) /\
  exists m, mu gp = Some m /\ length m = N_MU.

(** Saving a tree and loading the bytes into a tree object whose rates
    are allocated gives back every attribute of the tree, consumes exactly
    the bytes written and counts as many elements. *)
Lemma tree_save_load `{Double D} xcsf (gp dest : GP_TREE D) m0 rest :
  tree_storable gp ->
  mu dest = Some m0 -> length m0 = N_MU ->
  exists data n,
    tree_save xcsf gp = Some (data, n) /\
    tree_load xcsf dest (data ++ rest) = Some (gp, rest, n).
Proof.
  intros (Hp & Hl & Ht & H1 & Hlen & m & Hm & Hml) Hd Hd0.
  unfold tree_save, fwrite_ints, fwrite_doubles.
  destruct (Z.ltb_spec (len gp) 0); [lia|].
  destruct (Z.ltb_spec (Z.of_nat (length (tree gp))) (len gp)); [lia|].
  cbn [orb mbind option_bind]. rewrite Hm. cbn [mbind option_bind].
  rewrite Hml, Nat.ltb_irrefl. cbn [mbind option_bind].
  eexists _, _. split; [reflexivity|].
  unfold tree_load. rewrite <- !app_assoc.
  rewrite fread_int_bytes by assumption. cbn [mbind option_bind].
  rewrite fread_int_bytes by assumption. cbn [mbind option_bind].
  destruct (Z.ltb_spec (len gp) 1); [lia|].
  rewrite Hlen, Nat2Z.id, firstn_all.
  rewrite fread_ints_bytes by assumption. cbn [mbind option_bind].
  rewrite Hd. cbn [mbind option_bind].
  rewrite <- Hml, firstn_all.
  rewrite fread_doubles_bytes by congruence. cbn [mbind option_bind].
  destruct gp as [t l q mm]. cbn in *. subst. reflexivity.
Qed.

(** A [double] given by the eight bytes of its object representation,
    for the examples. *)
Definition raw_double : Type := Z * Z * Z * Z * Z * Z * Z * Z.

Definition raw_bytes (d : raw_double) : list Z :=
  let '(b0, b1, b2, b3, b4, b5, b6, b7) := d in
  [b0; b1; b2; b3; b4; b5; b6; b7].

Definition bytes_raw (bs : list Z) : raw_double :=
  match bs with
  | b0 :: b1 :: b2 :: b3 :: b4 :: b5 :: b6 :: b7 :: _ =>
    (b0, b1, b2, b3, b4, b5, b6, b7)
  | _ => (0, 0, 0, 0, 0, 0, 0, 0)
  end.

Lemma raw_bytes_length d : length (raw_bytes d) = 8%nat.
Proof. destruct d as [[[[[[[? ?] ?] ?] ?] ?] ?] ?]. reflexivity. Qed.

Lemma bytes_raw_bytes d : bytes_raw (raw_bytes d) = d.
Proof. destruct d as [[[[[[[? ?] ?] ?] ?] ?] ?] ?]. reflexivity. Qed.

#[export] Instance raw_Double : Double raw_double :=
  {| double_bytes := raw_bytes;
     bytes_double := bytes_raw;
     double_bytes_length := raw_bytes_length;
     bytes_double_bytes := bytes_raw_bytes |}.

(** The scenario tree with the rate 0.5 (0x3FE0000000000000). *)
Definition saved_tree : GP_TREE raw_double :=
  scenario_tree xcsf0 (Some [(0, 0, 0, 0, 0, 0, 224, 63)]).

Lemma tree_save_load_witness :
  exists data n,
    tree_save xcsf0 saved_tree = Some (data, n) /\
    tree_load xcsf0
      {| tree := []; len := 0; p := 0;
         mu := Some [(0, 0, 0, 0, 0, 0, 0, 0)] |} (data ++ [7; 7])
    = Some (saved_tree, [7; 7], n).
Proof.
  apply (tree_save_load xcsf0 saved_tree _ [(0, 0, 0, 0, 0, 0, 0, 0)]).
  - assert (R : forall z, 0 <= z < 100 -> int_range z)
      by (unfold int_range; lia).
    split; [apply R; cbn; lia|]. split; [apply R; cbn; lia|].
    split; [|split; [cbn; lia|split; [reflexivity|]]].
    + vm_compute tree.
      repeat (apply Forall_cons_2; [apply R; lia|]). apply Forall_nil_2.
    + eexists. split; reflexivity.
  - reflexivity.
  - reflexivity.
Defined.

(** ** Trees grown at random *)

(** The depth of an expression: a terminal has depth 0. *)
Fixpoint expr_depth (e : expr) : Z :=
  match e with
  | Term _ => 0
  | Fn _ a b => 1 + Z.max (expr_depth a) (expr_depth b)
  end.

Lemma expr_depth_nonneg e : 0 <= expr_depth e.
Proof. induction e; cbn [expr_depth]; lia. Qed.

Section GrowExpr.
Context `{Random rng}.

(** A growth that returns a position has written, from [p] on, the prefix
    form of a well-formed expression whose terminals are constants or
    inputs and whose depth is within the bound when the bound is not
    negative. *)
Lemma tree_grow_expr fuel : forall xcsf buffer p max depth s r b s',
  0 < GP_NUM_CONS xcsf + x_dim xcsf -> 0 <= p -> 0 <= r ->
  tree_grow fuel xcsf buffer p max depth s = Some (r, b, s') ->
  exists e,
    wf_expr e /\ r = p + Z.of_nat (length (flatten e)) /\
    (forall i, (i < length (flatten e))%nat ->
               b !! (Z.to_nat p + i)%nat = flatten e !! i) /\
    Forall (fun c => c < GP_NUM_FUNC + GP_NUM_CONS xcsf + x_dim xcsf)
           (flatten e) /\
    (0 <= depth -> expr_depth e <= depth).
Proof.
  induction fuel as [|fuel IH];
    intros xcsf buffer p max depth s r b s' Ht Hp Hr Hg; [discriminate|].
  apply tree_grow_inv in Hg.
  destruct Hg as [Hm -> _ _
                 |c Hm _ Hc Ha ->
                 |c s1 b0 r1 b1 s2 Hm _ Hd Hc Hf Ha Hg1 Hg2]; [lia| |].
  - pose proof (irand_uniform_range GP_NUM_FUNC
                  (GP_NUM_FUNC + GP_NUM_CONS xcsf + x_dim xcsf)
                  (snd (irand_uniform 0 2 s)) ltac:(lia)) as Hrange.
    rewrite Hc in Hrange. cbn [fst] in Hrange.
    apply array_set_Some in Ha. destruct Ha as [Hi ->].
    exists (Term c). cbn [wf_expr flatten length expr_depth].
    split; [lia|]. split; [lia|]. split; [|split].
    + intros i Hi0. assert (i = 0%nat) as -> by lia.
      rewrite Nat.add_0_r. cbn. apply list_lookup_insert_eq. lia.
    + constructor; [cbn beta; lia|constructor].
    + auto.
  - apply array_set_Some in Ha. destruct Ha as [Hi ->].
    apply is_function_range in Hf.
    destruct Hg2 as [(Hneg & -> & _)|(Hpos & Hg2)]; [lia|].
    assert (Hp1 : 0 <= p + 1) by lia.
    pose proof (tree_grow_frame _ _ _ _ _ _ _ _ _ _ Hp1 Hg1)
      as (L1 & R1 & F1).
    destruct R1 as [->|R1]; [lia|].
    pose proof (tree_grow_frame _ _ _ _ _ _ _ _ _ _ Hpos Hg2)
      as (L2 & R2 & F2).
    destruct R2 as [->|R2]; [lia|].
    destruct (IH _ _ _ _ _ _ _ _ _ Ht Hp1 Hpos Hg1)
      as (e1 & W1 & E1 & B1 & T1 & D1).
    destruct (IH _ _ _ _ _ _ _ _ _ Ht Hpos Hr Hg2)
      as (e2 & W2 & E2 & B2 & T2 & D2).
    exists (Fn c e1 e2). cbn [wf_expr flatten length expr_depth].
    rewrite length_app.
    split; [auto|]. split; [lia|]. split; [|split].
    + intros i Hi0. destruct i as [|i].
      * rewrite Nat.add_0_r.
        change ((c :: flatten e1 ++ flatten e2) !! 0%nat) with (Some c).
        rewrite F2 by lia. rewrite F1 by lia.
        apply list_lookup_insert_eq. lia.
      * change ((c :: flatten e1 ++ flatten e2) !! S i)
          with ((flatten e1 ++ flatten e2) !! i).
        destruct (Nat.lt_ge_cases i (length (flatten e1))) as [Hlt|Hge].
        -- rewrite lookup_app_l by assumption.
           rewrite F2 by lia. rewrite <- B1 by assumption.
           f_equal. lia.
        -- rewrite lookup_app_r by assumption.
           rewrite <- B2 by lia. f_equal. lia.
    + constructor; [cbn beta; unfold GP_NUM_FUNC in *; lia|].
      apply Forall_app. split; assumption.
    + intros Hd0. specialize (D1 ltac:(lia)). specialize (D2 ltac:(lia)). lia.
Qed.

(** Within a non-negative depth bound [depth] a growth takes at most
    [2 ^ (depth + 1) - 1] positions: when that many are left below [max],
    it never gives up. *)
Lemma tree_grow_fits fuel : forall xcsf buffer p max depth s r b s',
  0 <= depth -> 0 <= p -> p + 2 ^ (depth + 1) - 1 <= max ->
  tree_grow fuel xcsf buffer p max depth s = Some (r, b, s') ->
  p < r <= p + 2 ^ (depth + 1) - 1.
Proof.
  induction fuel as [|fuel IH];
    intros xcsf buffer p max depth s r b s' Hd Hp Hmax Hg; [discriminate|].
  assert (Hpow : 2 ^ (depth + 1) = 2 * 2 ^ depth)
    by (rewrite Z.pow_add_r by lia; lia).
  assert (Hpos : 0 < 2 ^ depth) by (apply Z.pow_pos_nonneg; lia).
  apply tree_grow_inv in Hg.
  destruct Hg as [Hm -> _ _
                 |c Hm _ Hc Ha ->
                 |c s1 b0 r1 b1 s2 Hm _ Hd0 Hc Hf Ha Hg1 Hg2]; [lia|lia|].
  replace depth with (depth - 1 + 1) in Hpow, Hpos, Hmax |- * by lia.
  assert (Hpow' : 2 ^ (depth - 1 + 1) = 2 * 2 ^ (depth - 1))
    by (rewrite Z.pow_add_r by lia; lia).
  apply IH in Hg1; [|lia|lia|lia].
  destruct Hg2 as [(Hneg & _)|(_ & Hg2)]; [lia|].
  apply IH in Hg2; [|lia|lia|lia]. lia.
Qed.

End GrowExpr.



Section RandValid.
Context `{Random rng} `{!Sam rng}.


Lemma tree_rand_grow_expr tries : forall xcsf buffer (s : rng) n b s',
  0 < GP_NUM_CONS xcsf + x_dim xcsf ->
  tree_rand_grow tries xcsf buffer s = Some (n, b, s') ->
  exists e,
    wf_expr e /\ n = Z.of_nat (length (flatten e)) /\
    take (Z.to_nat n) b = flatten e /\
    Forall (fun c => c < GP_NUM_FUNC + GP_NUM_CONS xcsf + x_dim xcsf)
           (flatten e) /\
    (0 <= GP_INIT_DEPTH xcsf -> expr_depth e <= GP_INIT_DEPTH xcsf).
Proof.
  induction tries as [|tries IH]; intros xcsf buffer s n b s' Ht Hr;
    [discriminate|].
  cbn [tree_rand_grow] in Hr.
  destruct (tree_grow grow_fuel xcsf buffer 0 GP_MAX_LEN (GP_INIT_DEPTH xcsf) s)
    as [[[r b1] s1]|] eqn:Eg; [|discriminate].
  cbn [mbind option_bind] in Hr.
  destruct (Z.ltb_spec r 0) as [Hneg|Hpos]; [eapply IH; eassumption|].
  injection Hr as <- <- <-.
  pose proof (tree_grow_frame _ _ _ _ _ _ _ _ _ _ (Z.le_refl 0) Eg)
    as (L & _ & _).
  destruct (tree_grow_expr _ _ _ _ _ _ _ _ _ _ Ht (Z.le_refl 0) Hpos Eg)
    as (e & W & E & B & T & D).
  exists e. split; [assumption|]. split; [lia|].
  split; [|split; assumption].
  apply list_eq. intros i.
  destruct (Nat.lt_ge_cases i (length (flatten e))) as [Hlt|Hge].
  - rewrite lookup_take_lt by lia. apply (B i Hlt).
  - rewrite lookup_take_ge by lia. symmetry. apply lookup_ge_None_2. lia.
Qed.


End RandValid.

Section RandTheorems.
Context `{Random rng} `{!Sam rng}.

(** Every tree that [tree_rand] produces is a valid prefix-encoded tree
    of 1 to [GP_MAX_LEN] nodes: each function node has exactly two
    descendants, each terminal is the code of a constant or of an input,
    and the depth is within [GP_INIT_DEPTH] when that bound is not
    negative.  The cursor [p] of the tree object is left as it was. *)
Theorem tree_rand_valid tries xcsf (gp : GP_TREE float) (s : rng) gp' s' :
  0 < GP_NUM_CONS xcsf + x_dim xcsf ->
  tree_rand tries xcsf gp s = Some (gp', s') ->
  valid_tree gp' /\ 1 <= len gp' <= GP_MAX_LEN /\ p gp' = p gp /\
  exists e,
    wf_expr e /\ tree gp' = flatten e /\
    Forall (fun c => c < GP_NUM_FUNC + GP_NUM_CONS xcsf + x_dim xcsf)
           (tree gp') /\
    (0 <= GP_INIT_DEPTH xcsf -> expr_depth e <= GP_INIT_DEPTH xcsf).
Proof.
  intros Ht. unfold tree_rand, tree_rand_from.
  destruct (tree_rand_grow tries xcsf _ s) as [[[n b] s1]|] eqn:E;
    [|discriminate].
  cbn [mbind option_bind].
  pose proof (tree_rand_grow_spec _ _ _ _ _ _ _ E) as (L & Hn & _).
  rewrite length_replicate in L.
  destruct (tree_rand_grow_expr _ _ _ _ _ _ _ Ht E)
    as (e & W & En & Tk & T & D).
  pose proof (memcpy_from_buffer b n ltac:(unfold GP_MAX_LEN in *; lia)) as M.
  destruct (malloc_ints n) as [t0|]; [|discriminate].
  cbn [mbind option_bind] in *. rewrite M. cbn [mbind option_bind].
  destruct (sam_init N_MU MU_TYPE s1) as [m s2].
  intros [= <- <-]. cbn [tree len p]. rewrite Tk.
  split; [split; [exists e; auto|cbn [tree len]; exact En]|].
  split; [lia|]. split; [reflexivity|].
  exists e. auto.
Qed.

(** With a depth bound from 0 to 12 the first growth attempt always
    succeeds: a tree of that depth has at most [2 ^ 13 - 1 = 8191] nodes,
    fewer than [GP_MAX_LEN], so [tree_rand] returns without restarting. *)
Theorem tree_rand_first_attempt xcsf (gp : GP_TREE float) (s : rng) :
  0 <= GP_INIT_DEPTH xcsf <= 12 ->
  exists gp' s',
    (forall tries, tree_rand (S tries) xcsf gp s = Some (gp', s')) /\
    1 <= len gp' <= 2 ^ (GP_INIT_DEPTH xcsf + 1) - 1.
Proof.
  intros Hd.
  destruct (tree_grow_total grow_fuel xcsf
              (replicate (Z.to_nat GP_MAX_LEN) 0) 0 GP_MAX_LEN
              (GP_INIT_DEPTH xcsf) s) as (r & b & s1 & E).
  { lia. }
  { rewrite length_replicate. unfold GP_MAX_LEN. lia. }
  { unfold grow_fuel. lia. }
  assert (Hpow : 2 ^ (GP_INIT_DEPTH xcsf + 1) <= 2 ^ 13)
    by (apply Z.pow_le_mono_r; lia).
  change (2 ^ 13) with 8192 in Hpow.
  assert (Hfit : 0 + 2 ^ (GP_INIT_DEPTH xcsf + 1) - 1 <= GP_MAX_LEN)
    by (unfold GP_MAX_LEN; lia).
  pose proof (tree_grow_fits _ _ _ _ _ _ _ _ _ _ (proj1 Hd) (Z.le_refl 0)
                Hfit E) as Hr.
  pose proof (tree_grow_frame _ _ _ _ _ _ _ _ _ _ (Z.le_refl 0) E)
    as (L & _ & _).
  rewrite length_replicate in L.
  pose proof (memcpy_from_buffer b r
                ltac:(unfold GP_MAX_LEN in *; lia)) as M.
  destruct (sam_init N_MU MU_TYPE s1) as [m s2] eqn:Es.
  exists {| tree := take (Z.to_nat r) b; len := r; p := p gp; mu := Some m |},
         s2.
  split; [|cbn [len]; lia].
  intros tries. unfold tree_rand, tree_rand_from. cbn [tree_rand_grow].
  rewrite E. cbn [mbind option_bind].
  destruct (Z.ltb_spec r 0); [lia|]. cbn [mbind option_bind].
  destruct (malloc_ints r) as [t0|]; [|discriminate].
  cbn [mbind option_bind] in *. rewrite M. cbn [mbind option_bind].
  rewrite Es. reflexivity.
Qed.


End RandTheorems.

(** The tree [DIV(IN:0, 2.0)] that the draws 0, 3, 0, 2, 0, 1 grow. *)
Definition grown_tree : GP_TREE float :=
  {| tree := [3; 6; 5]; len := 3; p := 0; mu := Some [0.5%float] |}.

Lemma tree_rand_valid_witness :
  let gp' := grown_tree in
  valid_tree gp' /\ 1 <= len gp' <= GP_MAX_LEN /\ p gp' = p gp0 /\
  exists e,
    wf_expr e /\ tree gp' = flatten e /\
    Forall (fun c => c < GP_NUM_FUNC + GP_NUM_CONS xcsf0 + x_dim xcsf0)
           (tree gp') /\
    (0 <= GP_INIT_DEPTH xcsf0 -> expr_depth e <= GP_INIT_DEPTH xcsf0).
Proof.
  apply (@tree_rand_valid tape tape_Random tape_Sam 1 xcsf0 gp0
           [0; 3; 0; 2; 0; 1] _ []).
  - vm_compute. reflexivity.
  - vm_compute. reflexivity.
Defined.

Lemma tree_rand_first_attempt_witness :
  exists gp' s',
    (forall tries,
       tree_rand (S tries) xcsf0 gp0 [0; 3; 0; 2; 0; 1] = Some (gp', s')) /\
    1 <= len gp' <= 2 ^ (GP_INIT_DEPTH xcsf0 + 1) - 1.
Proof.
  apply (@tree_rand_first_attempt tape tape_Random tape_Sam xcsf0 gp0
           [0; 3; 0; 2; 0; 1]).
  vm_compute. split; discriminate.
Defined.


(** ** Mutation keeps trees valid *)


Section MutateValid.
Context `{Random rng} `{!Sam rng}.


End MutateValid.


Section MutateTheorem.
Context `{Random rng} `{!Sam rng}.


End MutateTheorem.


(** ** Sub-trees *)

(** Every position of a valid code array starts a sub-tree: traversal
    from it returns the position after that sub-tree, within the array,
    and the codes in between are a valid prefix-encoded tree themselves.
    From a position outside the array the traversal reads out of bounds,
    and a negative code ends it in the [default] case. *)
Theorem tree_traverse_subtree (t : list Z) :
  prefix_tree t ->
  (forall k : nat, (k < length t)%nat ->
     exists q : nat,
       tree_traverse (traverse_fuel t) t (Z.of_nat k) = Some (Z.of_nat q) /\
       (k < q <= length t)%nat /\
       prefix_tree (take (q - k) (drop k t))) /\
  (forall fuel p, p < 0 \/ Z.of_nat (length t) <= p ->
     tree_traverse fuel t p = None) /\
  (forall fuel (t' : list Z) p c,
     array_get t' p = Some c -> c < 0 -> tree_traverse fuel t' p = None).
Proof.
  intros (e & W & ->). split; [|split].
  - intros k Hk.
    destruct (subtree_at e W k Hk) as (sub & pre & post & Ws & F & Hp & _).
    pose proof (flatten_length_pos sub) as Hpos.
    exists (k + length (flatten sub))%nat.
    split; [|split].
    + rewrite F at 2. rewrite <- Hp.
      rewrite tree_traverse_flatten; [reflexivity|assumption|].
      unfold traverse_fuel. rewrite F, !length_app. lia.
    + rewrite F, !length_app. lia.
    + exists sub. split; [assumption|].
      rewrite F, <- Hp, drop_app_length.
      replace (length pre + length (flatten sub) - length pre)%nat
        with (length (flatten sub)) by lia.
      apply take_app_length.
  - intros fuel p Hp. destruct fuel as [|fuel]; [reflexivity|].
    cbn [tree_traverse]. unfold array_get.
    destruct (Z.ltb_spec p 0); [reflexivity|].
    rewrite lookup_ge_None_2 by lia. reflexivity.
  - intros fuel t' p c Hc Hneg. destruct fuel as [|fuel]; [reflexivity|].
    cbn [tree_traverse]. rewrite Hc. cbn [mbind option_bind].
    destruct (Z.leb_spec GP_NUM_FUNC c); [unfold GP_NUM_FUNC in *; lia|].
    unfold ADD, SUB, MUL, DIV.
    repeat match goal with
    | |- context [Z.eqb ?a ?b] => destruct (Z.eqb_spec a b); [lia|]
    end. reflexivity.
Qed.

Lemma tree_traverse_subtree_witness :
  (forall k : nat,
     (k < length (tree (scenario_tree xcsf0 (Some [0.5%float]))))%nat ->
     exists q : nat,
       tree_traverse
         (traverse_fuel (tree (scenario_tree xcsf0 (Some [0.5%float]))))
         (tree (scenario_tree xcsf0 (Some [0.5%float]))) (Z.of_nat k)
       = Some (Z.of_nat q) /\
       (k < q <= length (tree (scenario_tree xcsf0 (Some [0.5%float]))))%nat /\
       prefix_tree
         (take (q - k)
            (drop k (tree (scenario_tree xcsf0 (Some [0.5%float])))))) /\
  (forall fuel p,
     p < 0 \/
     Z.of_nat (length (tree (scenario_tree xcsf0 (Some [0.5%float])))) <= p ->
     tree_traverse fuel (tree (scenario_tree xcsf0 (Some [0.5%float]))) p
     = None) /\
  (forall fuel (t' : list Z) p c,
     array_get t' p = Some c -> c < 0 -> tree_traverse fuel t' p = None).
Proof.
  apply (tree_traverse_subtree
           (tree (scenario_tree xcsf0 (Some [0.5%float])))).
  apply (scenario_tree_valid xcsf0 (Some [0.5%float])).
  vm_compute. discriminate.
Defined.

(** ** Copies *)

(** [tree_copy]: the destination receives fresh storage with the first
    [len] codes and the [N_MU] rates of the source; what it held before
    is not read (and not released). *)
Definition tree_copy {D} (xcsf : XCSF) (dest src : GP_TREE D)
    : option (GP_TREE D) :=
  t ← malloc_ints (len src);
  t ← memcpy t 0 (tree src) 0 (len src);
  m ← mu src;
  if (length m <? N_MU)%nat then None
  else Some {| tree := t; len := len src; p := p src;
               mu := Some (take N_MU m) |}.

(** A tree whose recorded length is the length of its code array and
    which has [N_MU] rates is copied exactly, whatever the destination
    held; the copy of a longer array keeps only the first [len] codes. *)
Theorem tree_copy_exact {D} xcsf (dest src : GP_TREE D) m :
  0 <= len src <= Z.of_nat (length (tree src)) ->
  mu src = Some m -> length m = N_MU ->
  tree_copy xcsf dest src
  = Some {| tree := take (Z.to_nat (len src)) (tree src); len := len src;
            p := p src; mu := Some m |} /\
  (len src = Z.of_nat (length (tree src)) ->
   tree_copy xcsf dest src = Some src).
Proof.
  intros Hlen Hm Hml.
  assert (E : tree_copy xcsf dest src
              = Some {| tree := take (Z.to_nat (len src)) (tree src);
                        len := len src; p := p src; mu := Some m |}).
  { unfold tree_copy.
    pose proof (memcpy_from_buffer (tree src) (len src) Hlen) as M.
    destruct (malloc_ints (len src)) as [t0|]; [|discriminate].
    cbn [mbind option_bind] in *. rewrite M, Hm. cbn [mbind option_bind].
    rewrite Hml, Nat.ltb_irrefl, <- Hml, firstn_all. reflexivity. }
  split; [exact E|]. intros Hfull. rewrite E, Hfull, Nat2Z.id, firstn_all.
  destruct src as [t l q mm]. cbn in *. subst. reflexivity.
Qed.

Lemma tree_copy_exact_witness :
  tree_copy xcsf0 gp0 grown_tree
  = Some {| tree := take (Z.to_nat (len grown_tree)) (tree grown_tree);
            len := len grown_tree; p := p grown_tree;
            mu := Some [0.5%float] |} /\
  (len grown_tree = Z.of_nat (length (tree grown_tree)) ->
   tree_copy xcsf0 gp0 grown_tree = Some grown_tree).
Proof.
  apply (tree_copy_exact xcsf0 gp0 grown_tree [0.5%float]).
  - vm_compute. split; discriminate.
  - reflexivity.
  - reflexivity.
Defined.

(** ** What crossover leaves of the mutation rates *)

Section CrossoverMu.
Context `{Random rng} `{!Sam rng}.

(** [tree_crossover] releases the mutation rates of both trees through
    [tree_free] and allocates none: when it returns, [mu] of either tree
    refers to freed storage, which [tree_mutate] and [tree_copy] then
    read. *)
Theorem tree_crossover_frees_mu xcsf (p1 p2 c1 c2 : GP_TREE float)
    (s s' : rng) :
  tree_crossover xcsf p1 p2 s = Some (c1, c2, s') ->
  mu c1 = None /\ mu c2 = None /\
  (forall s0 : rng,
     tree_mutate xcsf c1 s0 = None /\ tree_mutate xcsf c2 s0 = None) /\
  (forall dest, tree_copy xcsf dest c1 = None /\
                tree_copy xcsf dest c2 = None).
Proof.
  intros Hc.
  assert (Hmu : mu c1 = None /\ mu c2 = None).
  { unfold tree_crossover in Hc.
    destruct (irand_uniform 0 (len p1) s) as [start1 s1].
    destruct (tree_traverse _ (tree p1) start1) as [end1|]; [|discriminate].
    cbn [mbind option_bind] in Hc.
    destruct (irand_uniform 0 (len p2) s1) as [start2 s2].
    destruct (tree_traverse _ (tree p2) start2) as [end2|]; [|discriminate].
    cbn [mbind option_bind] in Hc.
    repeat match type of Hc with
    | context [mbind _ ?x] =>
        destruct x; cbn [mbind option_bind] in Hc; [|discriminate]
    end.
    injection Hc as <- <- _. auto. }
  destruct Hmu as [M1 M2].
  split; [exact M1|]. split; [exact M2|]. split.
  - intros s0. unfold tree_mutate. rewrite M1, M2. auto.
  - intros dest. unfold tree_copy. rewrite M1, M2.
    split.
    + destruct (malloc_ints (len c1)) as [t|]; [|reflexivity].
      cbn [mbind option_bind].
      destruct (memcpy t 0 (tree c1) 0 (len c1)); reflexivity.
    + destruct (malloc_ints (len c2)) as [t|]; [|reflexivity].
      cbn [mbind option_bind].
      destruct (memcpy t 0 (tree c2) 0 (len c2)); reflexivity.
Qed.

End CrossoverMu.

(** The two trees that crossover makes of two copies of the scenario
    tree when the draws select positions 2 and 1. *)
Definition crossed1 : GP_TREE float :=
  {| tree := [3; 6; 6]; len := 3; p := 0; mu := None |}.

Definition crossed2 : GP_TREE float :=
  {| tree := [3; 1; 6; 6; 1; 6; 6]; len := 7; p := 0; mu := None |}.

Lemma tree_crossover_frees_mu_witness :
  mu crossed1 = None /\ mu crossed2 = None /\
  (forall s0 : tape,
     tree_mutate xcsf0 crossed1 s0 = None /\
     tree_mutate xcsf0 crossed2 s0 = None) /\
  (forall dest, tree_copy xcsf0 dest crossed1 = None /\
                tree_copy xcsf0 dest crossed2 = None).
Proof.
  apply (@tree_crossover_frees_mu tape tape_Random tape_Sam xcsf0
           (scenario_tree xcsf0 (Some [0.5%float]))
           (scenario_tree xcsf0 (Some [0.5%float])) crossed1 crossed2
           [2; 1] []).
  vm_compute. reflexivity.
Defined.

(** ** Loading rejects a length below one *)

(** [tree_load] exits when the length it reads is below 1, whatever the
    cursor read before and the bytes that follow.  [tree_save] writes a
    tree of length 0 without complaint, so such a file cannot be read
    back. *)
Theorem tree_load_rejects_len `{Double D} xcsf (dest : GP_TREE D) :
  (forall q l rest,
     int_range q -> int_range l -> l < 1 ->
     tree_load xcsf dest (int_bytes q ++ int_bytes l ++ rest) = None) /\
  (forall (gp : GP_TREE D) m rest,
     len gp = 0 -> int_range (p gp) -> mu gp = Some m -> length m = N_MU ->
     exists data,
       tree_save xcsf gp = Some (data, 3) /\
       tree_load xcsf dest (data ++ rest) = None).
Proof.
  assert (Hrej : forall q l rest,
             int_range q -> int_range l -> l < 1 ->
             tree_load xcsf dest (int_bytes q ++ int_bytes l ++ rest) = None).
  { intros q l rest Hq Hl Hlt. unfold tree_load.
    rewrite fread_int_bytes by assumption. cbn [mbind option_bind].
    rewrite fread_int_bytes by assumption. cbn [mbind option_bind].
    destruct (Z.ltb_spec l 1); [reflexivity|lia]. }
  split; [exact Hrej|].
  intros gp m rest Hlen Hp Hm Hml.
  unfold tree_save, fwrite_ints, fwrite_doubles. rewrite Hlen, Hm.
  destruct (Z.ltb_spec 0 0); [lia|].
  destruct (Z.ltb_spec (Z.of_nat (length (tree gp))) 0); [lia|].
  cbn [orb mbind option_bind]. rewrite Hml, Nat.ltb_irrefl.
  cbn [mbind option_bind]. eexists. split; [reflexivity|].
  change (Z.to_nat 0) with 0%nat. rewrite take_0. cbn [fmap list_fmap concat app].
  rewrite <- !app_assoc. apply Hrej; [assumption| |lia].
  unfold int_range. lia.
Qed.

(** A tree of length 0 with its rate. *)
Definition empty_tree : GP_TREE raw_double :=
  {| tree := []; len := 0; p := 0;
     mu := Some [(0, 0, 0, 0, 0, 0, 224, 63)] |}.

Lemma tree_load_rejects_len_witness :
  exists data,
    tree_save xcsf0 empty_tree = Some (data, 3) /\
    tree_load xcsf0 saved_tree (data ++ [7; 7]) = None.
Proof.
  apply (proj2 (tree_load_rejects_len xcsf0 saved_tree) empty_tree
           [(0, 0, 0, 0, 0, 0, 224, 63)] [7; 7]).
  - reflexivity.
  - unfold int_range. cbn. lia.
  - reflexivity.
  - reflexivity.
Defined.

End GP.

Module Layer.

(** The fields of [struct Layer] that neural.c reads.  [output] and
    [delta] are the addresses of the layer's buffers. *)
Record Layer := {
  layer_type : Z;
  n_inputs : Z;
  n_outputs : Z;
  n_active : Z;
  output : option nat;
  delta : option nat
}.

End Layer.

Module Neural.

(** Addresses of list nodes; a pointer is [None] when it is [NULL]. *)
Definition loc : Type := nat.

(** [struct Llist]: a node of the doubly linked list of layers.  [prev]
    leads towards the head (the output layer), [next] towards the tail
    (the input layer). *)
Record Llist := {
  layer : Layer.Layer;
  prev : option loc;
  next : option loc
}.

(** [struct Net] *)
Record Net := {
  head : option loc;
  tail : option loc;
  n_layers : Z;
  n_inputs : Z;
  n_outputs : Z;
  output : option nat
}.

(** The nodes allocated so far. *)
Abbreviation heap := (gmap loc Llist).

Definition get_prev (h : heap) (a : loc) : option (option loc) :=
  prev <$> h !! a.

Definition get_next (h : heap) (a : loc) : option (option loc) :=
  next <$> h !! a.

(** [a->prev = v] and [a->next = v]: a fault when [a] is not a live node. *)
Definition set_prev (h : heap) (a : loc) (v : option loc) : option heap :=
  nd ← h !! a;
  Some (<[a := {| layer := layer nd; prev := v; next := next nd |}]> h).

Definition set_next (h : heap) (a : loc) (v : option loc) : option heap :=
  nd ← h !! a;
  Some (<[a := {| layer := layer nd; prev := prev nd; next := v |}]> h).

(** [malloc(sizeof(struct Llist))]: an address that is not in use. *)
Definition malloc (h : heap) : loc := fresh (dom h).

Definition neural_init : Net :=
  {| head := None; tail := None; n_layers := 0; n_inputs := 0;
     n_outputs := 0; output := None |}.

(** [for (i = 0; i < pos && iter != NULL; ++i) iter = iter->prev;] *)
Fixpoint walk (h : heap) (iter : option loc) (n : nat)
    : option (option loc) :=
  match n with
  | O => Some iter
  | S n' =>
    match iter with
    | None => Some None
    | Some a => it ← get_prev h a; walk h it n'
    end
  end.

(** [neural_insert] *)
Definition neural_insert (h : heap) (net : Net) (l : Layer.Layer) (pos : Z)
    : option (heap * Net) :=
  '(h, net) ←
    match head net, tail net with
    | Some _, Some _ =>
      iter ← walk h (tail net) (Z.to_nat pos);
      let new := malloc h in
      let h := <[new := {| layer := l; prev := iter; next := None |}]> h in
      match iter with
      | None =>
        h ← set_next h new (head net);
        hd ← head net;
        h ← set_prev h hd (Some new);
        Some (h, {| head := Some new; tail := tail net;
                    n_layers := n_layers net; n_inputs := n_inputs net;
                    n_outputs := Layer.n_outputs l;
                    output := Layer.output l |})
      | Some it =>
        nx ← get_next h it;
        h ← set_next h new nx;
        h ← set_next h it (Some new);
        nx ← get_next h it;
        match nx with
        | None =>
          Some (h, {| head := head net; tail := Some new;
                      n_layers := n_layers net;
                      n_inputs := Layer.n_inputs l;
                      n_outputs := n_outputs net; output := output net |})
        | Some _ =>
          nn ← get_next h new;
          nn ← nn;
          h ← set_prev h nn (Some new);
          Some (h, net)
        end
      end
    | _, _ =>
      let new := malloc h in
      let h := <[new := {| layer := l; prev := None; next := None |}]> h in
      Some (h, {| head := Some new; tail := Some new;
                  n_layers := n_layers net;
                  n_inputs := Layer.n_inputs l;
                  n_outputs := Layer.n_outputs l;
                  output := Layer.output l |})
    end;
  Some (h, {| head := head net; tail := tail net;
              n_layers := n_layers net + 1; n_inputs := n_inputs net;
              n_outputs := n_outputs net; output := output net |}).

(** [neural_remove] *)
Definition neural_remove (h : heap) (net : Net) (pos : Z)
    : option (heap * Net) :=
  iter ← walk h (tail net) (Z.to_nat pos);
  it ← iter;
  nx ← get_next h it;
  pv ← get_prev h it;
  if bool_decide (nx = None) && bool_decide (pv = None) then None
  else
    (* head *)
    pv ← get_prev h it;
    '(h, net) ←
      match pv with
      | None =>
        nx ← get_next h it;
        h ← match nx with
            | Some n => set_prev h n None
            | None => Some h
            end;
        hd ← nx;
        hdn ← h !! hd;
        Some (h, {| head := nx; tail := tail net; n_layers := n_layers net;
                    n_inputs := n_inputs net;
                    n_outputs := Layer.n_outputs (layer hdn);
                    output := Layer.output (layer hdn) |})
      | Some _ => Some (h, net)
      end;
    (* tail *)
    nx ← get_next h it;
    '(h, net) ←
      match nx with
      | None =>
        pv ← get_prev h it;
        h ← match pv with
            | Some q => set_next h q None
            | None => Some h
            end;
        Some (h, {| head := head net; tail := pv; n_layers := n_layers net;
                    n_inputs := n_inputs net; n_outputs := n_outputs net;
                    output := output net |})
      | Some _ => Some (h, net)
      end;
    (* middle *)
    pv ← get_prev h it;
    nx ← get_next h it;
    h ← match pv, nx with
        | Some q, Some n =>
          h ← set_prev h n (Some q);
          nx ← get_next h it;
          set_next h q nx
        | _, _ => Some h
        end;
    Some (delete it h,
          {| head := head net; tail := tail net;
             n_layers := n_layers net - 1; n_inputs := n_inputs net;
             n_outputs := n_outputs net; output := output net |}).

(** [neural_push] and [neural_pop] *)
Definition neural_push (h : heap) (net : Net) (l : Layer.Layer)
    : option (heap * Net) :=
  neural_insert h net l (n_layers net).

Definition neural_pop (h : heap) (net : Net) : option (heap * Net) :=
  neural_remove h net (n_layers net - 1).

(** The layer functions of neural_layer.h are not part of the sources:
    the per-kind payload is a parameter.  [layer_init] is the layer that
    [layer_init()] leaves in fresh storage, [layer_save l] the payload
    written for [l] with the number of elements written, [layer_load l]
    reads a payload into [l], whose kind is set ([layer_set_vptr] exits
    on an unknown kind).  A saved layer is read back with the attributes
    it had; its buffers are allocated afresh. *)
Definition layer_same (l l' : Layer.Layer) : Prop :=
  Layer.layer_type l' = Layer.layer_type l /\
  Layer.n_inputs l' = Layer.n_inputs l /\
  Layer.n_outputs l' = Layer.n_outputs l /\
  Layer.n_active l' = Layer.n_active l.

Definition set_layer_type (l : Layer.Layer) (t : Z) : Layer.Layer :=
  {| Layer.layer_type := t; Layer.n_inputs := Layer.n_inputs l;
     Layer.n_outputs := Layer.n_outputs l;
     Layer.n_active := Layer.n_active l;
     Layer.output := Layer.output l; Layer.delta := Layer.delta l |}.

Class LayerIO := {
  layer_init : Layer.Layer;
  layer_save : Layer.Layer -> list Z * Z;
  layer_load : Layer.Layer -> stream -> option (Layer.Layer * stream * Z);
  layer_storable : Layer.Layer -> Prop;
  layer_storable_type : forall l,
    layer_storable l -> int_range (Layer.layer_type l);
  layer_load_save : forall l rest,
    layer_storable l ->
    exists l',
      layer_load (set_layer_type layer_init (Layer.layer_type l))
        ((layer_save l).1 ++ rest) = Some (l', rest, (layer_save l).2) /\
      layer_same l l'
}.

(** The loop of [neural_save] over the layers, from [iter] towards the
    head.  The C loop runs until [iter] is [NULL]; the fuel is the number
    of live nodes plus one, which a list without a cycle cannot exceed. *)
Fixpoint save_layers `{LayerIO} (fuel : nat) (h : heap) (iter : option loc)
    : option (list Z * Z) :=
  match iter with
  | None => Some ([], 0)
  | Some a =>
    match fuel with
    | O => None
    | S fuel' =>
      nd ← h !! a;
      let '(bytes, k) := layer_save (layer nd) in
      '(rest, s) ← save_layers fuel' h (prev nd);
      Some (int_bytes (Layer.layer_type (layer nd)) ++ bytes ++ rest,
            1 + k + s)
    end
  end.

(** [neural_save]: the bytes written and the number of elements. *)
Definition neural_save `{LayerIO} (h : heap) (net : Net)
    : option (list Z * Z) :=
  '(layers, s) ← save_layers (S (size h)) h (tail net);
  Some (int_bytes (n_layers net) ++ int_bytes (n_inputs net)
        ++ int_bytes (n_outputs net) ++ layers, 3 + s).

(** The loop of [neural_load]: [n] layers are read and pushed. *)
Fixpoint load_layers `{LayerIO} (n : nat) (h : heap) (net : Net)
    (f : stream) (s : Z) : option (heap * Net * stream * Z) :=
  match n with
  | O => Some (h, net, f, s)
  | S n' =>
    '(t, f) ← fread_int f;
    let l := set_layer_type layer_init t in
    '(l, f, k) ← layer_load l f;
    '(h, net) ← neural_push h net l;
    load_layers n' h net f (s + 1 + k)
  end.

(** [neural_load]: the counts of inputs and outputs are read and not
    used; the net is rebuilt by [neural_push]. *)
Definition neural_load `{LayerIO} (h : heap) (f : stream)
    : option (heap * Net * stream * Z) :=
  '(nlayers, f) ← fread_int f;
  '(ninputs, f) ← fread_int f;
  '(noutputs, f) ← fread_int f;
  load_layers (Z.to_nat nlayers) h neural_init f 3.

(** ** Well-formed nets

    A net is described by the list of its nodes from the tail (input
    layer) to the head (output layer), each with its address and layer. *)
Abbreviation cells := (list (loc * Layer.Layer)).

Definition first_or (cs : cells) (d : option loc) : option loc :=
  match cs with
  | [] => d
  | c :: _ => Some c.1
  end.

Definition last_or (cs : cells) (d : option loc) : option loc :=
  match last cs with
  | None => d
  | Some c => Some c.1
  end.

(** [dll h nxt cs prv]: the nodes [cs] are linked in this order, the
    first with [next = nxt], the last with [prev = prv]. *)
Fixpoint dll (h : heap) (nxt : option loc) (cs : cells) (prv : option loc)
    : Prop :=
  match cs with
  | [] => True
  | c :: rest =>
    h !! c.1 = Some {| layer := c.2; prev := first_or rest prv; next := nxt |}
    /\ dll h (Some c.1) rest prv
  end.

Definition net_repr (h : heap) (net : Net) (cs : cells) : Prop :=
  NoDup cs.*1 /\ dll h None cs None /\
  tail net = first_or cs None /\ head net = last_or cs None /\
  n_layers net = Z.of_nat (length cs).

(** The cached fields agree with the layers at the two ends. *)
Definition cached_tail (net : Net) (cs : cells) : Prop :=
  forall c, cs !! 0%nat = Some c -> n_inputs net = Layer.n_inputs c.2.

Definition cached_head (net : Net) (cs : cells) : Prop :=
  forall c, last cs = Some c ->
    n_outputs net = Layer.n_outputs c.2 /\ output net = Layer.output c.2.

Lemma last_or_app cs1 cs2 d :
  last_or (cs1 ++ cs2) d = last_or cs2 (last_or cs1 d).
Proof.
  unfold last_or. destruct cs2 as [|c cs2] using rev_ind.
  - rewrite app_nil_r. reflexivity.
  - rewrite app_assoc, !last_snoc. reflexivity.
Qed.

Lemma first_or_app cs1 cs2 d :
  first_or (cs1 ++ cs2) d = first_or cs1 (first_or cs2 d).
Proof. destruct cs1; reflexivity. Qed.

Lemma dll_frame h h' nxt cs prv :
  (forall a, a ∈ cs.*1 -> h' !! a = h !! a) ->
  dll h nxt cs prv -> dll h' nxt cs prv.
Proof.
  revert nxt. induction cs as [|c cs IH]; intros nxt Hf; [auto|].
  cbn [dll]. intros [Hc Hrest]. split.
  - rewrite Hf; [assumption|]. cbn. left.
  - apply IH; [|assumption]. intros a Ha. apply Hf. cbn. right. assumption.
Qed.

Lemma dll_app h nxt cs1 cs2 prv :
  dll h nxt (cs1 ++ cs2) prv <->
  dll h nxt cs1 (first_or cs2 prv) /\ dll h (last_or cs1 nxt) cs2 prv.
Proof.
  revert nxt. induction cs1 as [|c cs1 IH]; intros nxt.
  - cbn. tauto.
  - cbn [app dll]. rewrite IH, first_or_app.
    change (c :: cs1) with ([c] ++ cs1). rewrite last_or_app.
    cbn. tauto.
Qed.

(** Walking [n] steps from the first node reaches the node of index [n],
    or [NULL] past the last one. *)
Lemma dll_single h nxt c prv :
  dll h nxt [c] prv <->
  h !! c.1 = Some {| layer := c.2; prev := prv; next := nxt |}.
Proof. cbn. tauto. Qed.

Lemma walk_dll h cs : forall nxt n,
  dll h nxt cs None ->
  walk h (first_or cs None) n = Some (fst <$> cs !! n).
Proof.
  induction cs as [|c cs IH]; intros nxt n Hd.
  - destruct n; reflexivity.
  - destruct n as [|n]; [reflexivity|].
    destruct Hd as [Hc Hrest]. cbn [first_or walk]. unfold get_prev.
    rewrite Hc. cbn. apply (IH (Some c.1)). assumption.
Qed.

Lemma walk_net h net cs n :
  net_repr h net cs -> walk h (tail net) n = Some (fst <$> cs !! n).
Proof.
  intros (_ & Hd & Htl & _). rewrite Htl. apply (walk_dll h cs None).
  assumption.
Qed.

Lemma dll_live h nxt cs prv a :
  dll h nxt cs prv -> a ∈ cs.*1 -> is_Some (h !! a).
Proof.
  revert nxt. induction cs as [|c cs IH]; intros nxt Hd Ha.
  - cbn in Ha. apply elem_of_nil in Ha. contradiction.
  - destruct Hd as [Hc Hrest]. cbn in Ha. apply elem_of_cons in Ha.
    destruct Ha as [->|Ha]; [eauto|]. apply (IH (Some c.1)); assumption.
Qed.

Lemma malloc_fresh (h : heap) : h !! malloc h = None.
Proof. apply not_elem_of_dom. unfold malloc. apply is_fresh. Qed.

Lemma malloc_not_in h nxt cs prv :
  dll h nxt cs prv -> malloc h ∉ cs.*1.
Proof.
  intros Hd Hin. destruct (dll_live _ _ _ _ _ Hd Hin) as [nd Hnd].
  rewrite malloc_fresh in Hnd. discriminate.
Qed.

(** Redirecting the [prev] pointer of the last node. *)
Lemma dll_set_last_prev h nxt cs c prv prv' :
  NoDup (cs ++ [c]).*1 ->
  dll h nxt (cs ++ [c]) prv ->
  dll (<[c.1 := {| layer := c.2; prev := prv'; next := last_or cs nxt |}]> h)
      nxt (cs ++ [c]) prv'.
Proof.
  intros Hnd Hd. apply dll_app in Hd. destruct Hd as [Hcs Hc].
  apply dll_app. split.
  - apply (dll_frame h); [|assumption].
    intros a Ha. apply lookup_insert_ne. intros E. subst a.
    rewrite fmap_app in Hnd. apply NoDup_app in Hnd.
    destruct Hnd as (_ & Hdis & _). apply (Hdis _ Ha). cbn. left.
  - cbn. split; [|exact I]. apply lookup_insert_eq.
Qed.

Lemma last_or_snoc cs c d : last_or (cs ++ [c]) d = Some c.1.
Proof. unfold last_or. rewrite last_snoc. reflexivity. Qed.

Lemma net_repr_nonempty h net cs :
  net_repr h net cs -> cs <> [] ->
  exists tl hd, tail net = Some tl /\ head net = Some hd.
Proof.
  intros (_ & _ & Ht & Hh & _) Hne.
  destruct cs as [|c cs]; [contradiction|].
  rewrite Ht, Hh. cbn. exists c.1.
  destruct (last (c :: cs)) as [c'|] eqn:El.
  - unfold last_or. rewrite El. eauto.
  - apply last_None in El. discriminate.
Qed.

(** Insertion into an empty net. *)
Lemma neural_insert_empty h net l pos :
  net_repr h net [] ->
  let a := malloc h in
  let net' := {| head := Some a; tail := Some a;
                 n_layers := n_layers net + 1;
                 n_inputs := Layer.n_inputs l;
                 n_outputs := Layer.n_outputs l;
                 output := Layer.output l |} in
  neural_insert h net l pos
  = Some (<[a := {| layer := l; prev := None; next := None |}]> h, net') /\
  net_repr (<[a := {| layer := l; prev := None; next := None |}]> h) net'
    [(a, l)].
Proof.
  intros (_ & _ & Ht & Hh & Hn) a net'. cbn in Ht, Hh, Hn.
  unfold neural_insert. rewrite Hh. cbn. split; [reflexivity|].
  split; [apply NoDup_singleton|]. split.
  - cbn. split; [apply lookup_insert_eq|exact I].
  - cbn. rewrite Hn. auto.
Qed.

(** Insertion at a position from [n_layers] on: the new node becomes the
    head. *)
Lemma neural_insert_head h net cs l pos :
  net_repr h net cs -> cs <> [] -> n_layers net <= pos ->
  exists h',
    let net' := {| head := Some (malloc h); tail := tail net;
                   n_layers := n_layers net + 1;
                   n_inputs := n_inputs net;
                   n_outputs := Layer.n_outputs l;
                   output := Layer.output l |} in
    neural_insert h net l pos = Some (h', net') /\
    net_repr h' net' (cs ++ [(malloc h, l)]).
Proof.
  intros Hrepr Hne Hpos.
  destruct (net_repr_nonempty _ _ _ Hrepr Hne) as (tl & hd & Ht & Hh).
  destruct Hrepr as (Hnd & Hd & Htl & Hhd & Hn).
  unfold neural_insert. rewrite Hh, Ht.
  rewrite <- Ht, Htl, (walk_dll h cs None) by assumption.
  rewrite lookup_ge_None_2 by lia. cbn [fmap option_fmap option_map mbind option_bind].
  set (a := malloc h).
  assert (Ha : h !! a = None) by apply malloc_fresh.
  assert (Hacs : a ∉ cs.*1) by (apply (malloc_not_in _ _ _ _ Hd)).
  destruct cs as [|c cs _] using rev_ind; [contradiction|].
  rewrite last_or_snoc in Hhd. rewrite Hh in Hhd. injection Hhd as ->.
  assert (Hca : c.1 <> a).
  { intros E. apply Hacs. rewrite fmap_app. apply elem_of_app. right.
    cbn. rewrite E. left. }
  pose proof Hd as Hd'. apply dll_app in Hd'. destruct Hd' as [_ [Hc _]].
  cbn [first_or] in Hc.
  unfold set_next, set_prev. rewrite lookup_insert_eq.
  cbn [mbind option_bind layer prev next].
  rewrite insert_insert_eq.
  rewrite lookup_insert_ne by (intros E; apply Hca; symmetry; exact E).
  rewrite Hc. cbn [mbind option_bind layer prev next].
  eexists. split; [reflexivity|].
  split; [|split; [|split; [|split]]].
  - rewrite fmap_app. apply NoDup_app. split; [assumption|]. split.
    + intros x Hx Hx'. cbn in Hx'. apply list_elem_of_singleton in Hx'.
      subst x. apply Hacs. assumption.
    + apply NoDup_singleton.
  - apply dll_app. split.
    + cbn [first_or fst].
      apply (dll_set_last_prev (<[a := _]> h) None cs c None (Some a));
        [assumption|].
      apply (dll_frame h); [|assumption].
      intros x Hx. apply lookup_insert_ne. intros <-. contradiction.
    + rewrite last_or_snoc. cbn. split; [|exact I].
      rewrite lookup_insert_ne by assumption. apply lookup_insert_eq.
  - cbn. destruct cs; reflexivity.
  - cbn. rewrite last_or_snoc. reflexivity.
  - cbn. rewrite Hn, !length_app. cbn. lia.
Qed.

(** Insertion at position 0 (or below) of a net that has layers: the new
    node is linked behind the tail, the test [iter->next == NULL] then
    reads the pointer that was just set to the new node, and the branch
    taken dereferences the [NULL] in [new->next]. *)
Lemma neural_insert_tail_fault h net cs l pos :
  net_repr h net cs -> cs <> [] -> pos <= 0 ->
  neural_insert h net l pos = None.
Proof.
  intros Hrepr Hne Hpos.
  destruct (net_repr_nonempty _ _ _ Hrepr Hne) as (tl & hd & Ht & Hh).
  destruct Hrepr as (Hnd & Hd & Htl & Hhd & Hn).
  unfold neural_insert. rewrite Hh, Ht.
  replace (Z.to_nat pos) with 0%nat by lia. cbn [walk mbind option_bind].
  set (a := malloc h).
  assert (Hacs : a ∉ cs.*1) by (apply (malloc_not_in _ _ _ _ Hd)).
  destruct cs as [|c cs]; [contradiction|].
  rewrite Ht in Htl. cbn in Htl. injection Htl as ->.
  assert (Hca : a <> c.1).
  { intros E. apply Hacs. cbn. rewrite E. left. }
  destruct Hd as [Hc _].
  unfold get_next, set_next, set_prev.
  rewrite (lookup_insert_ne _ a c.1) by assumption. rewrite Hc.
  cbn [fmap option_fmap option_map mbind option_bind layer prev next].
  rewrite lookup_insert_eq.
  cbn [fmap option_fmap option_map mbind option_bind layer prev next].
  rewrite insert_insert_eq.
  rewrite (lookup_insert_ne _ a c.1) by assumption. rewrite Hc.
  cbn [fmap option_fmap option_map mbind option_bind layer prev next].
  rewrite lookup_insert_eq.
  cbn [fmap option_fmap option_map mbind option_bind layer prev next].
  rewrite lookup_insert_ne by (intros E; apply Hca; symmetry; exact E).
  rewrite lookup_insert_eq. reflexivity.
Qed.

(** Insertion below [n_layers] never makes the new node the head, and
    leaves the cached output fields alone. *)
Lemma neural_insert_below_head h net cs l pos h' net' :
  net_repr h net cs -> cs <> [] -> pos < n_layers net ->
  neural_insert h net l pos = Some (h', net') ->
  head net' = head net /\ n_outputs net' = n_outputs net /\
  output net' = output net.
Proof.
  intros Hrepr Hne Hpos.
  destruct (net_repr_nonempty _ _ _ Hrepr Hne) as (tl & hd & Ht & Hh).
  destruct Hrepr as (Hnd & Hd & Htl & Hhd & Hn).
  unfold neural_insert. rewrite Hh, Ht.
  rewrite <- Ht, Htl, (walk_dll h cs None) by assumption.
  destruct (cs !! Z.to_nat pos) as [c|] eqn:Ec.
  2:{ apply lookup_ge_None_1 in Ec. destruct cs; [contradiction|].
      cbn [length] in *. lia. }
  cbn [fmap option_fmap option_map mbind option_bind].
  set (a := malloc h). set (h1 := <[a := _]> h).
  destruct (get_next h1 c.1) as [nx|]; cbn [mbind option_bind];
    [|discriminate].
  destruct (set_next h1 a nx) as [h2|]; cbn [mbind option_bind];
    [|discriminate].
  destruct (set_next h2 c.1 (Some a)) as [h3|]; cbn [mbind option_bind];
    [|discriminate].
  destruct (get_next h3 c.1) as [[nx'|]|]; cbn [mbind option_bind];
    [| |discriminate].
  - destruct (get_next h3 a) as [[nn|]|]; cbn [mbind option_bind];
      try discriminate.
    destruct (set_prev h3 nn (Some a)) as [h4|]; cbn [mbind option_bind];
      [|discriminate].
    intros [= <- <-]. cbn. auto.
  - intros [= <- <-]. cbn. auto.
Qed.

Lemma neural_insert_walk h net l pos pos' :
  walk h (tail net) (Z.to_nat pos) = walk h (tail net) (Z.to_nat pos') ->
  neural_insert h net l pos = neural_insert h net l pos'.
Proof. intros E. unfold neural_insert. rewrite E. reflexivity. Qed.

Lemma net_repr_last h net cs c :
  net_repr h net (cs ++ [c]) ->
  h !! c.1 = Some {| layer := c.2; prev := None; next := last_or cs None |}.
Proof.
  intros (_ & Hd & _). apply dll_app in Hd. destruct Hd as [_ [Hc _]].
  exact Hc.
Qed.

(** C10. For a net that has layers, a position from [n_layers] on is not
    an error: the walk from the tail runs off the list, whatever the
    excess, and the layer becomes the new head, with [n_outputs] and the
    cached output pointer taken from it.  The result is the one of
    [neural_push], which inserts at position [n_layers]: the list of
    layers, from tail to head, is extended by the new layer at its end. *)
Theorem neural_insert_beyond_is_push h net cs l pos :
  net_repr h net cs -> cs <> [] -> n_layers net <= pos ->
  neural_insert h net l pos = neural_push h net l /\
  exists h' net',
    neural_push h net l = Some (h', net') /\
    net_repr h' net' (cs ++ [(malloc h, l)]) /\
    head net' = Some (malloc h) /\
    n_outputs net' = Layer.n_outputs l /\
    output net' = Layer.output l /\
    n_inputs net' = n_inputs net /\
    n_layers net' = n_layers net + 1.
Proof.
  intros Hrepr Hne Hpos. split.
  - unfold neural_push. apply neural_insert_walk.
    destruct Hrepr as (_ & Hd & Htl & _ & Hn).
    rewrite Htl, !(walk_dll h cs None) by assumption.
    rewrite !lookup_ge_None_2 by lia. reflexivity.
  - destruct (neural_insert_head h net cs l (n_layers net) Hrepr Hne
                ltac:(lia)) as (h' & E & Hrepr').
    unfold neural_push. eexists _, _. split; [exact E|].
    split; [exact Hrepr'|]. cbn. auto.
Qed.

(** C5 (amended). For a net that has layers, positions count from the
    tail: [neural_insert] places the layer at the head exactly when the
    position is [n_layers] or more, and then [n_outputs] and the cached
    output pointer are those of the new layer; at any position below
    [n_layers], position 0 included, an insertion that returns leaves the
    head and the cached output fields as they were. *)
Theorem neural_insert_head_position h net cs l pos :
  net_repr h net cs -> cs <> [] ->
  (n_layers net <= pos ->
   exists h' net',
     neural_insert h net l pos = Some (h', net') /\
     head net' = Some (malloc h) /\
     h !! malloc h = None /\
     h' !! malloc h
       = Some {| layer := l; prev := None; next := head net |} /\
     n_outputs net' = Layer.n_outputs l /\
     output net' = Layer.output l) /\
  (pos < n_layers net ->
   forall h' net',
     neural_insert h net l pos = Some (h', net') ->
     head net' = head net /\ n_outputs net' = n_outputs net /\
     output net' = output net).
Proof.
  intros Hrepr Hne. split.
  - intros Hpos.
    destruct (neural_insert_head h net cs l pos Hrepr Hne Hpos)
      as (h' & E & Hrepr').
    eexists _, _. split; [exact E|]. cbn.
    split; [reflexivity|]. split; [apply malloc_fresh|].
    split; [|auto].
    pose proof (net_repr_last _ _ _ _ Hrepr') as Hl. cbn in Hl.
    destruct Hrepr as (_ & _ & _ & Hhd & _). rewrite Hhd. exact Hl.
  - intros Hpos h' net'.
    apply (neural_insert_below_head h net cs l pos h' net' Hrepr Hne Hpos).
Qed.

Ltac heap_step :=
  cbn [fmap option_fmap option_map mbind option_bind layer prev next andb].

Ltac heap_ne := solve [assumption | apply not_eq_sym; assumption].

(** Runs the reads and writes of a call on a heap whose relevant nodes
    are known from the hypotheses. *)
Ltac heap_run :=
  unfold get_next, get_prev, set_next, set_prev;
  repeat (heap_step;
          first [ rewrite lookup_insert_eq
                | rewrite lookup_insert_ne by heap_ne
                | match goal with
                  | H : ?h !! ?a = Some _ |- context [?h !! ?a] => rewrite H
                  end
                | rewrite bool_decide_eq_true_2 by reflexivity
                | rewrite bool_decide_eq_false_2 by discriminate ]);
  heap_step.

(** Insertion at a position strictly between 0 and [n_layers]: the new
    node takes that index, counted from the tail, and the cached fields
    stay as they are. *)
Lemma neural_insert_middle h net cs1 cn ci cs2 l pos :
  net_repr h net (cs1 ++ [cn; ci] ++ cs2) ->
  pos = Z.of_nat (length cs1) + 1 ->
  exists h',
    let net' := {| head := head net; tail := tail net;
                   n_layers := n_layers net + 1;
                   n_inputs := n_inputs net;
                   n_outputs := n_outputs net; output := output net |} in
    neural_insert h net l pos = Some (h', net') /\
    net_repr h' net' (cs1 ++ [cn; (malloc h, l); ci] ++ cs2).
Proof.
  intros Hrepr Hpos.
  destruct (net_repr_nonempty _ _ _ Hrepr) as (tl & hd & Ht & Hh).
  { destruct cs1; discriminate. }
  unfold neural_insert. rewrite Hh, Ht. rewrite <- Ht.
  rewrite (walk_net _ _ _ _ Hrepr).
  destruct Hrepr as (Hnd & Hd & Htl & Hhd & Hn).
  replace (Z.to_nat pos) with (length cs1 + 1)%nat by lia.
  rewrite lookup_app_r by lia.
  replace (length cs1 + 1 - length cs1)%nat with 1%nat by lia.
  cbn [app lookup list_lookup fmap option_fmap option_map mbind option_bind].
  set (a := malloc h).
  assert (Hacs : a ∉ (cs1 ++ [cn; ci] ++ cs2).*1)
    by (apply (malloc_not_in _ _ _ _ Hd)).
  change (cs1 ++ [cn; ci] ++ cs2) with (cs1 ++ [cn] ++ [ci] ++ cs2)
    in Hd, Hnd, Hacs.
  pose proof Hd as Hd'.
  apply dll_app in Hd'. destruct Hd' as [Hd1 Hd'].
  apply dll_app in Hd'. destruct Hd' as [Hn' Hd'].
  apply dll_app in Hd'. destruct Hd' as [Hc Hd2].
  apply dll_single in Hn', Hc. cbn [first_or last_or last app] in *.
  rewrite !fmap_app in Hnd, Hacs. cbn [fmap list_fmap] in Hnd, Hacs.
  apply NoDup_app in Hnd. destruct Hnd as (Hnd1 & Hdis1 & Hnd).
  apply NoDup_cons in Hnd. destruct Hnd as (Hnn & Hnd).
  apply NoDup_cons in Hnd. destruct Hnd as (Hnc & Hnd2).
  assert (Hcn : ci.1 <> cn.1) by (intros E; apply Hnn; rewrite <- E; left).
  assert (Han : a <> cn.1).
  { intros E. apply Hacs. apply elem_of_app. right. rewrite E. left. }
  assert (Hac : a <> ci.1).
  { intros E. apply Hacs. apply elem_of_app. right. rewrite E. right. left. }
  heap_run. rewrite <- Hh.
  eexists. split; [reflexivity|].
  match goal with |- net_repr ?x _ _ => set (h' := x) end.
  assert (Hfr : forall x, x <> a -> x <> ci.1 -> x <> cn.1 ->
                          h' !! x = h !! x).
  { intros x H1 H2 H3. unfold h'.
    rewrite !lookup_insert_ne by auto. reflexivity. }
  split; [|split; [|split; [|split]]].
  - rewrite !fmap_app. cbn [fmap list_fmap]. apply NoDup_app.
    split; [assumption|]. split.
    + intros x Hx Hx'. apply elem_of_cons in Hx'.
      destruct Hx' as [->|Hx']; [apply (Hdis1 _ Hx); left|].
      apply elem_of_cons in Hx'. destruct Hx' as [->|Hx'].
      * apply Hacs. apply elem_of_app. left. exact Hx.
      * apply (Hdis1 _ Hx). right. exact Hx'.
    + apply NoDup_cons. split.
      * intros Hin. apply elem_of_cons in Hin.
        destruct Hin as [E|Hin]; [apply Han; auto|]. apply Hnn. exact Hin.
      * apply NoDup_cons. split.
        -- intros Hin. apply Hacs. apply elem_of_app. right. right.
           exact Hin.
        -- apply NoDup_cons. split; assumption.
  - apply (proj2 (dll_app _ _ cs1 ([cn] ++ [(a, l)] ++ [ci] ++ cs2) _)).
    split;
      [|apply (proj2 (dll_app _ _ [cn] ([(a, l)] ++ [ci] ++ cs2) _)); split;
        [|apply (proj2 (dll_app _ _ [(a, l)] ([ci] ++ cs2) _)); split;
          [|apply (proj2 (dll_app _ _ [ci] cs2 _)); split]]].
    + apply (dll_frame h); [|exact Hd1]. intros x Hx. apply Hfr.
      * intros E. subst x. apply Hacs. apply elem_of_app. left. exact Hx.
      * intros E. subst x. apply (Hdis1 _ Hx). right. left.
      * intros E. subst x. apply (Hdis1 _ Hx). left.
    + apply dll_single. cbn [first_or app fst snd]. unfold h'.
      apply lookup_insert_eq.
    + apply dll_single. cbn [first_or last_or last app fst snd]. unfold h'.
      rewrite lookup_insert_ne by auto.
      rewrite lookup_insert_ne by auto. apply lookup_insert_eq.
    + apply dll_single. cbn [first_or last_or last app fst snd]. unfold h'.
      rewrite lookup_insert_ne by auto. apply lookup_insert_eq.
    + apply (dll_frame h); [|exact Hd2]. intros x Hx. apply Hfr.
      * intros E. subst x. apply Hacs. apply elem_of_app. right. right.
        right. exact Hx.
      * intros E. subst x. apply Hnc. exact Hx.
      * intros E. subst x. apply Hnn. right. exact Hx.
  - cbn. rewrite Htl. destruct cs1; reflexivity.
  - cbn. rewrite Hhd. rewrite !last_or_app. reflexivity.
  - cbn. rewrite Hn, !length_app. cbn. lia.
Qed.

(** ** Removal *)

Lemma NoDup_cons_ne (c c' : loc * Layer.Layer) (cs : cells) :
  NoDup (c :: cs).*1 -> c' ∈ cs -> c.1 <> c'.1.
Proof.
  cbn. intros Hnd Hin E. apply NoDup_cons in Hnd. destruct Hnd as [Hn _].
  apply Hn. rewrite E. apply list_elem_of_fmap. eauto.
Qed.

(** Removing the tail of a net with two layers or more: the second node
    becomes the tail; [n_inputs] keeps the value it had. *)
Lemma neural_remove_tail h net c0 c1 cs pos :
  net_repr h net (c0 :: c1 :: cs) -> pos <= 0 ->
  exists h',
    let net' := {| head := head net; tail := Some c1.1;
                   n_layers := n_layers net - 1;
                   n_inputs := n_inputs net;
                   n_outputs := n_outputs net; output := output net |} in
    neural_remove h net pos = Some (h', net') /\
    net_repr h' net' (c1 :: cs).
Proof.
  intros (Hnd & Hd & Htl & Hhd & Hn) Hpos.
  unfold neural_remove. replace (Z.to_nat pos) with 0%nat by lia.
  rewrite Htl. cbn [walk first_or mbind option_bind].
  destruct Hd as (H0 & H1 & Hrest). cbn [first_or] in H0.
  assert (Hne : c0.1 <> c1.1).
  { apply (NoDup_cons_ne _ _ _ Hnd). left. }
  unfold get_next, get_prev, set_next, set_prev.
  rewrite H0.
  cbn [fmap option_fmap option_map mbind option_bind layer prev next
       bool_decide decide_rel andb].
  rewrite bool_decide_eq_true_2 by reflexivity.
  rewrite bool_decide_eq_false_2 by discriminate.
  cbn [andb]. rewrite H0.
  cbn [fmap option_fmap option_map mbind option_bind layer prev next].
  rewrite H1.
  cbn [fmap option_fmap option_map mbind option_bind layer prev next].
  rewrite lookup_insert_ne by (intros E; apply Hne; symmetry; exact E).
  rewrite H0.
  cbn [fmap option_fmap option_map mbind option_bind layer prev next].
  eexists. split; [reflexivity|].
  cbn in Hnd. apply NoDup_cons in Hnd. destruct Hnd as [Hn0 Hnd].
  split; [exact Hnd|]. split; [|split; [|split]].
  - split.
    + rewrite lookup_delete_ne by assumption. apply lookup_insert_eq.
    + apply (dll_frame h); [|assumption]. intros a Ha.
      apply NoDup_cons in Hnd. destruct Hnd as [Hn1 _].
      rewrite lookup_delete_ne
        by (intros E; apply Hn0; rewrite E; right; exact Ha).
      apply lookup_insert_ne. intros E. apply Hn1. rewrite E. exact Ha.
  - reflexivity.
  - cbn. rewrite Hhd. unfold last_or. reflexivity.
  - cbn. rewrite Hn. cbn [length]. lia.
Qed.

(** Removing the head of a net with two layers or more: the node before
    it becomes the head, and the cached output fields are taken from its
    layer. *)
Lemma neural_remove_head h net cs c1 c0 pos :
  net_repr h net (cs ++ [c1; c0]) -> pos = n_layers net - 1 ->
  exists h',
    let net' := {| head := Some c1.1; tail := tail net;
                   n_layers := n_layers net - 1;
                   n_inputs := n_inputs net;
                   n_outputs := Layer.n_outputs c1.2;
                   output := Layer.output c1.2 |} in
    neural_remove h net pos = Some (h', net') /\
    net_repr h' net' (cs ++ [c1]).
Proof.
  intros Hrepr Hpos. unfold neural_remove.
  rewrite (walk_net _ _ _ _ Hrepr).
  destruct Hrepr as (Hnd & Hd & Htl & Hhd & Hn).
  rewrite length_app in Hn. cbn [length] in Hn.
  replace (Z.to_nat pos) with (length cs + 1)%nat by lia.
  rewrite lookup_app_r by lia.
  replace (length cs + 1 - length cs)%nat with 1%nat by lia.
  cbn [lookup list_lookup fmap option_fmap option_map mbind option_bind].
  change (cs ++ [c1; c0]) with (cs ++ [c1] ++ [c0]) in Hd, Hnd.
  rewrite app_assoc in Hd, Hnd.
  pose proof Hd as Hd'. apply dll_app in Hd'. destruct Hd' as [Hd1 H0].
  apply dll_single in H0. rewrite last_or_snoc in H0.
  pose proof Hd1 as Hd1'. apply dll_app in Hd1'. destruct Hd1' as [_ H1].
  apply dll_single in H1. cbn [first_or] in H1.
  assert (Hne : c1.1 <> c0.1).
  { rewrite fmap_app in Hnd. apply NoDup_app in Hnd.
    destruct Hnd as (_ & Hdis & _). intros E. apply (Hdis c1.1).
    - rewrite fmap_app. apply elem_of_app. right. left.
    - rewrite E. left. }
  heap_run.
  eexists. split; [reflexivity|].
  rewrite fmap_app in Hnd. apply NoDup_app in Hnd.
  destruct Hnd as (Hnd1 & Hdis & _).
  split; [exact Hnd1|]. split; [|split; [|split]].
  - apply (dll_frame (<[c1.1 := {| layer := c1.2; prev := None;
                                    next := last_or cs None |}]> h)).
    + intros a Ha. apply lookup_delete_ne. intros E. subst a.
      apply (Hdis _ Ha). left.
    + apply (dll_set_last_prev h None cs c1 (Some c0.1) None);
        assumption.
  - cbn. rewrite Htl. destruct cs; reflexivity.
  - cbn. rewrite last_or_snoc. reflexivity.
  - cbn. rewrite length_app. cbn. lia.
Qed.

(** Removing a node that has both neighbours: they are linked to each
    other and nothing else changes. *)
Lemma neural_remove_middle h net cs1 cn c cp cs2 pos :
  net_repr h net (cs1 ++ [cn; c; cp] ++ cs2) ->
  pos = Z.of_nat (length cs1) + 1 ->
  exists h',
    let net' := {| head := head net; tail := tail net;
                   n_layers := n_layers net - 1;
                   n_inputs := n_inputs net;
                   n_outputs := n_outputs net; output := output net |} in
    neural_remove h net pos = Some (h', net') /\
    net_repr h' net' (cs1 ++ [cn; cp] ++ cs2).
Proof.
  intros Hrepr Hpos. unfold neural_remove.
  rewrite (walk_net _ _ _ _ Hrepr).
  destruct Hrepr as (Hnd & Hd & Htl & Hhd & Hn).
  replace (Z.to_nat pos) with (length cs1 + 1)%nat by lia.
  rewrite lookup_app_r by lia.
  replace (length cs1 + 1 - length cs1)%nat with 1%nat by lia.
  cbn [app lookup list_lookup fmap option_fmap option_map mbind option_bind].
  change (cs1 ++ [cn; c; cp] ++ cs2)
    with (cs1 ++ [cn] ++ [c] ++ [cp] ++ cs2) in Hd, Hnd.
  pose proof Hd as Hd'.
  apply dll_app in Hd'. destruct Hd' as [Hd1 Hd'].
  apply dll_app in Hd'. destruct Hd' as [Hn' Hd'].
  apply dll_app in Hd'. destruct Hd' as [Hc Hd'].
  apply dll_app in Hd'. destruct Hd' as [Hp Hd2].
  apply dll_single in Hn', Hc, Hp. cbn [first_or last_or last app] in *.
  rewrite !fmap_app in Hnd. cbn [fmap list_fmap] in Hnd.
  apply NoDup_app in Hnd. destruct Hnd as (Hnd1 & Hdis1 & Hnd).
  apply NoDup_cons in Hnd. destruct Hnd as (Hnn & Hnd).
  apply NoDup_cons in Hnd. destruct Hnd as (Hnc & Hnd).
  apply NoDup_cons in Hnd. destruct Hnd as (Hnp & Hnd2).
  assert (Hcn : c.1 <> cn.1) by (intros E; apply Hnn; rewrite <- E; left).
  assert (Hpn : cp.1 <> cn.1)
    by (intros E; apply Hnn; rewrite <- E; right; left).
  assert (Hpc : cp.1 <> c.1) by (intros E; apply Hnc; rewrite <- E; left).
  heap_run.
  eexists. split; [reflexivity|].
  set (h' := delete c.1 _).
  assert (Hfr : forall a, a <> c.1 -> a <> cn.1 -> a <> cp.1 ->
                          h' !! a = h !! a).
  { intros a H1 H2 H3. unfold h'.
    rewrite lookup_delete_ne by auto.
    rewrite !lookup_insert_ne by auto. reflexivity. }
  split; [|split; [|split; [|split]]].
  - rewrite !fmap_app. cbn [fmap list_fmap]. apply NoDup_app.
    split; [assumption|]. split.
    + intros a Ha Ha'. apply (Hdis1 a Ha).
      apply elem_of_cons in Ha'. destruct Ha' as [->|Ha']; [left|].
      right. right. exact Ha'.
    + apply NoDup_cons. split.
      * intros Hin. apply Hnn. right. exact Hin.
      * apply NoDup_cons. split; assumption.
  - apply (proj2 (dll_app _ _ cs1 ([cn] ++ [cp] ++ cs2) _)). split;
      [|apply (proj2 (dll_app _ _ [cn] ([cp] ++ cs2) _)); split;
        [|apply (proj2 (dll_app _ _ [cp] cs2 _)); split]].
    + apply (dll_frame h); [|exact Hd1]. intros a Ha. apply Hfr.
      * intros E. subst a. apply (Hdis1 _ Ha). right. left.
      * intros E. subst a. apply (Hdis1 _ Ha). left.
      * intros E. subst a. apply (Hdis1 _ Ha). right. right. left.
    + apply dll_single. cbn [first_or app]. unfold h'.
      rewrite lookup_delete_ne by auto.
      rewrite lookup_insert_ne by auto. apply lookup_insert_eq.
    + apply dll_single. cbn [first_or last_or last app]. unfold h'.
      rewrite lookup_delete_ne by auto. apply lookup_insert_eq.
    + apply (dll_frame h); [|exact Hd2]. intros a Ha. apply Hfr.
      * intros E. subst a. apply Hnc. right. exact Ha.
      * intros E. subst a. apply Hnn. right. right. exact Ha.
      * intros E. subst a. apply Hnp. exact Ha.
  - cbn. rewrite Htl. destruct cs1; reflexivity.
  - cbn. rewrite Hhd. rewrite !last_or_app. reflexivity.
  - cbn. rewrite Hn, !length_app. cbn. lia.
Qed.

(** The calls that end in [exit]. *)
Lemma neural_remove_exit h net cs pos :
  net_repr h net cs ->
  (length cs <= 1)%nat \/ Z.of_nat (length cs) <= pos ->
  neural_remove h net pos = None.
Proof.
  intros (Hnd & Hd & Htl & Hhd & Hn) Hcase.
  unfold neural_remove.
  rewrite Htl, (walk_dll h _ None) by assumption.
  destruct (cs !! Z.to_nat pos) as [c|] eqn:Ec; [|reflexivity].
  apply lookup_lt_Some in Ec as Hlt.
  destruct Hcase as [Hlen|Hge]; [|lia].
  destruct cs as [|c' [|? ?]]; cbn [length] in *; try lia.
  assert (Z.to_nat pos = 0%nat) as E0 by lia. rewrite E0 in Ec.
  injection Ec as ->. destruct Hd as [Hc _]. cbn [first_or] in Hc.
  heap_run. reflexivity.
Qed.

(** ** Sequences of insertions and removals *)

Inductive op : Type :=
  | Insert (l : Layer.Layer) (pos : Z)
  | Remove (pos : Z).

Definition run_op (h : heap) (net : Net) (o : op) : option (heap * Net) :=
  match o with
  | Insert l pos => neural_insert h net l pos
  | Remove pos => neural_remove h net pos
  end.

Fixpoint run_ops (h : heap) (net : Net) (os : list op)
    : option (heap * Net) :=
  match os with
  | [] => Some (h, net)
  | o :: os' => '(h, net) ← run_op h net o; run_ops h net os'
  end.

(** The layers after an operation that returns, from tail to head. *)
Definition op_layers (o : op) (ls : list Layer.Layer) : list Layer.Layer :=
  match o with
  | Insert l pos => take (Z.to_nat pos) ls ++ l :: drop (Z.to_nat pos) ls
  | Remove pos => delete (Z.to_nat pos) ls
  end.

(** Whether an operation removes the tail layer. *)
Definition removes_tail (o : op) : Prop :=
  match o with
  | Insert _ _ => False
  | Remove pos => pos <= 0
  end.

Lemma split_at2 {A} (l : list A) (i : nat) :
  (0 < i < length l)%nat ->
  exists l1 x y l2, l = l1 ++ [x; y] ++ l2 /\ length l1 = (i - 1)%nat.
Proof.
  intros Hi. rewrite <- (take_drop (i - 1) l).
  destruct (drop (i - 1) l) as [|x [|y l2]] eqn:E.
  - apply (f_equal length) in E. rewrite length_drop in E. cbn in E. lia.
  - apply (f_equal length) in E. rewrite length_drop in E. cbn in E. lia.
  - exists (take (i - 1) l), x, y, l2. split; [reflexivity|].
    rewrite length_take. lia.
Qed.

Lemma split_at3 {A} (l : list A) (i : nat) :
  (0 < i)%nat -> (i + 1 < length l)%nat ->
  exists l1 x y z l2, l = l1 ++ [x; y; z] ++ l2 /\ length l1 = (i - 1)%nat.
Proof.
  intros Hi Hl. rewrite <- (take_drop (i - 1) l).
  destruct (drop (i - 1) l) as [|x [|y [|z l2]]] eqn:E;
    try (apply (f_equal length) in E; rewrite length_drop in E; cbn in E; lia).
  exists (take (i - 1) l), x, y, z, l2. split; [reflexivity|].
  rewrite length_take. lia.
Qed.

Lemma split_last2 {A} (l : list A) :
  (2 <= length l)%nat -> exists l0 x y, l = l0 ++ [x; y].
Proof.
  intros Hl. destruct l as [|y l _] using rev_ind; [cbn in Hl; lia|].
  destruct l as [|x l _] using rev_ind.
  - cbn in Hl. lia.
  - exists l, x, y. rewrite <- app_assoc. reflexivity.
Qed.

(** One operation on a well-formed net: when it returns, the net is
    well formed again, its layers are those of the list operation, the
    cached output fields follow the head, and the cached [n_inputs]
    follows the tail unless the operation removed the tail. *)
Lemma run_op_repr h net cs o h' net' :
  net_repr h net cs ->
  run_op h net o = Some (h', net') ->
  exists cs',
    net_repr h' net' cs' /\
    cs'.*2 = op_layers o cs.*2 /\
    (cached_head net cs -> cached_head net' cs') /\
    (~ removes_tail o -> cached_tail net cs -> cached_tail net' cs').
Proof.
  intros Hrepr Hrun. pose proof Hrepr as (_ & _ & _ & _ & Hn).
  destruct o as [l pos|pos]; cbn [run_op op_layers removes_tail] in *.
  - assert (Hcase : cs = [] \/ cs <> [])
      by (destruct cs; [left; reflexivity|right; discriminate]).
    destruct Hcase as [->|Hne].
    { destruct (neural_insert_empty h net l pos Hrepr) as [E Hr].
      rewrite E in Hrun. injection Hrun as <- <-.
      eexists. split; [exact Hr|]. split.
      { cbn. rewrite take_nil, drop_nil. reflexivity. }
      split.
      - intros _ c [= <-]. cbn. auto.
      - intros _ _ c [= <-]. reflexivity. }
    assert (Hlen0 : (0 < length cs)%nat)
      by (destruct cs; [contradiction|cbn; lia]).
    destruct (Z.le_gt_cases pos 0) as [Hp0|Hp0].
    { rewrite (neural_insert_tail_fault h net cs l pos Hrepr Hne Hp0) in Hrun.
      discriminate. }
    destruct (Z.le_gt_cases (n_layers net) pos) as [Hge|Hlt].
    + destruct (neural_insert_head h net cs l pos Hrepr Hne Hge)
        as (h1 & E & Hr).
      rewrite E in Hrun. injection Hrun as <- <-.
      eexists. split; [exact Hr|]. split.
      { rewrite fmap_app. cbn.
        rewrite firstn_all2 by (rewrite length_fmap; lia).
        rewrite drop_ge by (rewrite length_fmap; lia). reflexivity. }
      split.
      * intros _ c. rewrite last_snoc. intros [= <-]. cbn. auto.
      * intros _ Ht c Hc. cbn. apply Ht.
        rewrite lookup_app_l in Hc by lia. exact Hc.
    + destruct (split_at2 cs (Z.to_nat pos) ltac:(lia))
        as (cs1 & cn & ci & cs2 & Hsplit & Hlen).
      rewrite Hsplit in Hrepr.
      destruct (neural_insert_middle h net cs1 cn ci cs2 l pos Hrepr
                  ltac:(lia)) as (h1 & E & Hr).
      rewrite E in Hrun. injection Hrun as <- <-.
      eexists. split; [exact Hr|]. rewrite Hsplit. split.
      { rewrite !fmap_app. cbn.
        replace (Z.to_nat pos) with (length (cs1.*2 ++ [cn.2]))
          by (rewrite length_app, length_fmap; cbn; lia).
        change (cs1.*2 ++ cn.2 :: ci.2 :: cs2.*2)
          with (cs1.*2 ++ [cn.2] ++ ci.2 :: cs2.*2).
        rewrite app_assoc, take_app_length, drop_app_length.
        rewrite <- app_assoc. reflexivity. }
      split.
      * intros Hh c Hc. cbn. apply Hh. rewrite last_app in *.
        cbn in *. destruct cs2; exact Hc.
      * intros _ Ht c Hc. cbn. apply Ht.
        destruct cs1; cbn in *; exact Hc.
  - destruct (Nat.le_gt_cases (length cs) 1) as [Hl1|Hl1].
    { rewrite (neural_remove_exit h net cs pos Hrepr) in Hrun by auto.
      discriminate. }
    destruct (Z.le_gt_cases (Z.of_nat (length cs)) pos) as [Hge|Hlt].
    { rewrite (neural_remove_exit h net cs pos Hrepr) in Hrun by auto.
      discriminate. }
    destruct (Z.le_gt_cases pos 0) as [Hp0|Hp0].
    + destruct cs as [|c0 [|c1 cs0]]; cbn [length] in Hl1; try lia.
      destruct (neural_remove_tail h net c0 c1 cs0 pos Hrepr Hp0)
        as (h1 & E & Hr).
      rewrite E in Hrun. injection Hrun as <- <-.
      eexists. split; [exact Hr|]. split.
      { replace (Z.to_nat pos) with 0%nat by lia. reflexivity. }
      split.
      * intros Hh c Hc. cbn. apply Hh. exact Hc.
      * intros Hnt. contradiction.
    + destruct (Z.eq_dec pos (n_layers net - 1)) as [Hlast|Hnl].
      * destruct (split_last2 cs ltac:(lia)) as (cs0 & c1 & c0 & Hsplit).
        rewrite Hsplit in Hrepr.
        destruct (neural_remove_head h net cs0 c1 c0 pos Hrepr Hlast)
          as (h1 & E & Hr).
        rewrite E in Hrun. injection Hrun as <- <-.
        eexists. split; [exact Hr|]. rewrite Hsplit in *. split.
        { rewrite !fmap_app. cbn. rewrite length_app in Hn. cbn in Hn.
          replace (Z.to_nat pos) with (length (cs0.*2 ++ [c1.2]))
            by (rewrite length_app, length_fmap; cbn; lia).
          change (cs0.*2 ++ [c1.2; c0.2]) with (cs0.*2 ++ [c1.2] ++ [c0.2]).
          rewrite app_assoc.
          rewrite (delete_middle (cs0.*2 ++ [c1.2]) [] c0.2).
          rewrite app_nil_r. reflexivity. }
        split.
        -- intros _ c. rewrite last_snoc. intros [= <-]. cbn. auto.
        -- intros _ Ht c Hc. cbn. apply Ht.
           destruct cs0; cbn in *; exact Hc.
      * destruct (split_at3 cs (Z.to_nat pos) ltac:(lia) ltac:(lia))
          as (cs1 & cn & c & cp & cs2 & Hsplit & Hlen).
        rewrite Hsplit in Hrepr.
        destruct (neural_remove_middle h net cs1 cn c cp cs2 pos Hrepr
                    ltac:(lia)) as (h1 & E & Hr).
        rewrite E in Hrun. injection Hrun as <- <-.
        eexists. split; [exact Hr|]. rewrite Hsplit. split.
        { rewrite !fmap_app. cbn.
          replace (Z.to_nat pos) with (length (cs1.*2 ++ [cn.2]))
            by (rewrite length_app, length_fmap; cbn; lia).
          change (cs1.*2 ++ cn.2 :: c.2 :: cp.2 :: cs2.*2)
            with (cs1.*2 ++ [cn.2] ++ c.2 :: cp.2 :: cs2.*2).
          rewrite app_assoc, delete_middle, <- app_assoc. reflexivity. }
        split.
        -- intros Hh c' Hc. cbn. apply Hh. rewrite last_app in *.
           cbn in *. exact Hc.
        -- intros _ Ht c' Hc. cbn. apply Ht.
           destruct cs1; cbn in *; exact Hc.
Qed.

(** Any sequence of insertions and removals that returns, run on a
    well-formed net: the net stays well formed and the cached output
    fields stay those of the head layer; the cached [n_inputs] stays the
    one of the tail layer as long as no operation removes the tail. *)
Lemma run_ops_repr os : forall h net cs h' net',
  net_repr h net cs ->
  run_ops h net os = Some (h', net') ->
  exists cs',
    net_repr h' net' cs' /\
    (cached_head net cs -> cached_head net' cs') /\
    (Forall (fun o => ~ removes_tail o) os ->
     cached_tail net cs -> cached_tail net' cs').
Proof.
  induction os as [|o os IH]; intros h net cs h' net' Hrepr Hrun.
  - injection Hrun as <- <-. exists cs. auto.
  - cbn [run_ops] in Hrun.
    destruct (run_op h net o) as [[h1 net1]|] eqn:E; [|discriminate].
    cbn [mbind option_bind] in Hrun.
    destruct (run_op_repr _ _ _ _ _ _ Hrepr E) as (cs1 & Hr1 & _ & Hh1 & Ht1).
    destruct (IH _ _ _ _ _ Hr1 Hrun) as (cs' & Hr' & Hh' & Ht').
    exists cs'. split; [assumption|]. split; [auto|].
    intros Hall Ht. apply Forall_cons in Hall. destruct Hall as [Ho Hall].
    auto.
Qed.

(** After the removal of the tail the cached [n_inputs] is still the one
    of the layer removed. *)
Lemma neural_remove_tail_n_inputs h net c0 c1 cs pos h' net' :
  net_repr h net (c0 :: c1 :: cs) -> cached_tail net (c0 :: c1 :: cs) ->
  pos <= 0 ->
  neural_remove h net pos = Some (h', net') ->
  net_repr h' net' (c1 :: cs) /\ n_inputs net' = Layer.n_inputs c0.2.
Proof.
  intros Hrepr Ht Hpos Hrun.
  destruct (neural_remove_tail h net c0 c1 cs pos Hrepr Hpos) as (h1 & E & Hr).
  rewrite E in Hrun. injection Hrun as <- <-.
  split; [exact Hr|]. cbn. apply Ht. reflexivity.
Qed.

(** ** Persistence of nets *)

Section Persistence.
Context `{LayerIO}.

(** The bytes and the element count that a list of layers is saved as. *)
Fixpoint layers_bytes (ls : list Layer.Layer) : list Z :=
  match ls with
  | [] => []
  | l :: ls' =>
    int_bytes (Layer.layer_type l) ++ (layer_save l).1 ++ layers_bytes ls'
  end.

Fixpoint layers_count (ls : list Layer.Layer) : Z :=
  match ls with
  | [] => 0
  | l :: ls' => 1 + (layer_save l).2 + layers_count ls'
  end.

Lemma save_layers_dll h cs : forall nxt fuel,
  dll h nxt cs None -> (length cs <= fuel)%nat ->
  save_layers fuel h (first_or cs None)
  = Some (layers_bytes cs.*2, layers_count cs.*2).
Proof.
  induction cs as [|c cs IH]; intros nxt fuel Hd Hfuel.
  - destruct fuel; reflexivity.
  - destruct fuel as [|fuel]; [cbn in Hfuel; lia|].
    destruct Hd as [Hc Hrest]. cbn [first_or save_layers].
    rewrite Hc. cbn [mbind option_bind layer prev].
    destruct (layer_save c.2) as [bytes k] eqn:Es.
    rewrite (IH (Some c.1) fuel Hrest) by (cbn in Hfuel; lia).
    cbn [mbind option_bind fmap list_fmap layers_bytes layers_count].
    rewrite Es. reflexivity.
Qed.

Lemma dll_size h nxt cs prv :
  NoDup cs.*1 -> dll h nxt cs prv -> (length cs <= size h)%nat.
Proof.
  intros Hnd Hd. rewrite <- size_dom, <- (length_fmap fst cs).
  rewrite <- (size_list_to_set (C := gset loc) cs.*1) by assumption.
  apply subseteq_size. intros a Ha. apply elem_of_list_to_set in Ha.
  apply elem_of_dom. apply (dll_live _ _ _ _ _ Hd Ha).
Qed.

Lemma neural_push_spec h net cs l :
  net_repr h net cs ->
  exists h' net' a,
    neural_push h net l = Some (h', net') /\
    net_repr h' net' (cs ++ [(a, l)]) /\
    cached_head net' (cs ++ [(a, l)]) /\
    (cached_tail net cs -> cached_tail net' (cs ++ [(a, l)])).
Proof.
  intros Hrepr. unfold neural_push.
  assert (Hcase : cs = [] \/ cs <> [])
    by (destruct cs; [left; reflexivity|right; discriminate]).
  destruct Hcase as [->|Hne].
  - destruct (neural_insert_empty h net l (n_layers net) Hrepr) as [E Hr].
    eexists _, _, _. split; [exact E|]. split; [exact Hr|]. split.
    + intros c [= <-]. cbn. auto.
    + intros _ c [= <-]. reflexivity.
  - destruct (neural_insert_head h net cs l (n_layers net) Hrepr Hne
                ltac:(lia)) as (h' & E & Hr).
    eexists _, _, _. split; [exact E|]. split; [exact Hr|]. split.
    + intros c. rewrite last_snoc. intros [= <-]. cbn. auto.
    + intros Ht c Hc. cbn. apply Ht.
      rewrite lookup_app_l in Hc; [exact Hc|].
      destruct cs; [contradiction|cbn; lia].
Qed.

Lemma load_layers_spec ls : forall h net cs rest s,
  net_repr h net cs -> Forall layer_storable ls ->
  exists h' net' cs',
    load_layers (length ls) h net (layers_bytes ls ++ rest) s
    = Some (h', net', rest, s + layers_count ls) /\
    net_repr h' net' (cs ++ cs') /\
    Forall2 layer_same ls cs'.*2 /\
    (cached_head net cs -> cached_head net' (cs ++ cs')) /\
    (cached_tail net cs -> cached_tail net' (cs ++ cs')).
Proof.
  induction ls as [|l ls IH]; intros h net cs rest s Hrepr Hst.
  - exists h, net, []. cbn. rewrite app_nil_r, Z.add_0_r.
    split; [reflexivity|]. split; [assumption|]. split; [constructor|].
    auto.
  - apply Forall_cons in Hst. destruct Hst as [Hl Hst].
    cbn [length load_layers layers_bytes layers_count].
    rewrite <- !app_assoc.
    rewrite fread_int_bytes by (apply layer_storable_type; assumption).
    cbn [mbind option_bind].
    destruct (layer_load_save l (layers_bytes ls ++ rest) Hl)
      as (l' & El & Hsame).
    rewrite El. cbn [mbind option_bind].
    destruct (neural_push_spec h net cs l' Hrepr)
      as (h1 & net1 & a & Ep & Hr1 & Hh1 & Ht1).
    rewrite Ep. cbn [mbind option_bind].
    destruct (IH h1 net1 (cs ++ [(a, l')]) rest
                (s + 1 + (layer_save l).2) Hr1 Hst)
      as (h' & net' & cs' & E & Hr' & Hall & Hh' & Ht').
    exists h', net', ((a, l') :: cs').
    replace (cs ++ (a, l') :: cs') with ((cs ++ [(a, l')]) ++ cs')
      by (rewrite <- app_assoc; reflexivity).
    split; [rewrite E; f_equal; f_equal; lia|].
    split; [assumption|]. split; [constructor; assumption|]. auto.
Qed.

(** A net that has layers is saved, and read back as a well-formed net
    with the same number of layers and, from tail to head, layers with
    the same attributes; the cached fields of the net read are those of
    its own tail and head layers. *)
Lemma neural_save_load_layers h net cs :
  net_repr h net cs -> cs <> [] ->
  int_range (n_layers net) -> int_range (n_inputs net) ->
  int_range (n_outputs net) -> Forall layer_storable cs.*2 ->
  exists data n,
    neural_save h net = Some (data, n) /\
    forall h0 rest,
    exists h' net' cs',
      neural_load h0 (data ++ rest) = Some (h', net', rest, n) /\
      net_repr h' net' cs' /\
      Forall2 layer_same cs.*2 cs'.*2 /\
      n_layers net' = n_layers net /\
      cached_head net' cs' /\ cached_tail net' cs'.
Proof.
  intros Hrepr Hne Rl Ri Ro Hst.
  pose proof Hrepr as (Hnd & Hd & Htl & Hhd & Hn).
  unfold neural_save. rewrite Htl.
  rewrite (save_layers_dll h cs None)
    by (assumption || (pose proof (dll_size _ _ _ _ Hnd Hd); lia)).
  cbn [mbind option_bind]. eexists _, _. split; [reflexivity|].
  intros h0 rest. unfold neural_load. rewrite <- !app_assoc.
  rewrite !fread_int_bytes by assumption. cbn [mbind option_bind].
  rewrite fread_int_bytes by assumption. cbn [mbind option_bind].
  rewrite fread_int_bytes by assumption. cbn [mbind option_bind].
  assert (Hinit : net_repr h0 neural_init []).
  { split; [apply NoDup_nil_2|]. split; [exact I|]. cbn. auto. }
  assert (Hcount : Z.to_nat (n_layers net) = length cs.*2)
    by (rewrite length_fmap; lia).
  rewrite Hcount.
  destruct (load_layers_spec cs.*2 h0 neural_init [] rest 3 Hinit Hst)
    as (h' & net' & cs' & E & Hr' & Hall & Hh' & Ht').
  cbn [app] in *. exists h', net', cs'.
  split; [exact E|]. split; [assumption|]. split; [assumption|].
  split.
  - apply Forall2_length in Hall. rewrite !length_fmap in Hall.
    destruct Hr' as (_ & _ & _ & _ & ->). lia.
  - split; [apply Hh'|apply Ht']; intros c [=].
Qed.

(** A net whose cached fields agree with its layers is read back with
    the same cached counts. *)
Lemma neural_save_load h net cs :
  net_repr h net cs -> cs <> [] ->
  cached_head net cs -> cached_tail net cs ->
  int_range (n_layers net) -> int_range (n_inputs net) ->
  int_range (n_outputs net) -> Forall layer_storable cs.*2 ->
  exists data n,
    neural_save h net = Some (data, n) /\
    forall h0 rest,
    exists h' net' cs',
      neural_load h0 (data ++ rest) = Some (h', net', rest, n) /\
      net_repr h' net' cs' /\
      Forall2 layer_same cs.*2 cs'.*2 /\
      n_layers net' = n_layers net /\
      n_inputs net' = n_inputs net /\
      n_outputs net' = n_outputs net.
Proof.
  intros Hrepr Hne Hh Ht Rl Ri Ro Hst.
  destruct (neural_save_load_layers h net cs Hrepr Hne Rl Ri Ro Hst)
    as (data & n & Es & Hload).
  exists data, n. split; [exact Es|]. intros h0 rest.
  destruct (Hload h0 rest) as (h' & net' & cs' & E & Hr' & Hall & Hl & Hh' & Ht').
  exists h', net', cs'. split; [exact E|]. split; [assumption|].
  split; [assumption|]. split; [assumption|].
  assert (Hlen : length cs' = length cs).
  { apply Forall2_length in Hall. rewrite !length_fmap in Hall. lia. }
  split.
  - destruct cs as [|c cs0]; [contradiction|].
    destruct cs' as [|c' cs0']; [discriminate|].
    rewrite (Ht' c' eq_refl), (Ht c eq_refl).
    apply Forall2_cons in Hall. destruct Hall as [(_ & Hi & _) _]. exact Hi.
  - destruct cs as [|c cs0 _] using rev_ind; [contradiction|].
    destruct cs' as [|c' cs0' _] using rev_ind;
      [rewrite length_app in Hlen; cbn in Hlen; lia|].
    rewrite !fmap_app in Hall. apply Forall2_app_inv in Hall;
      [|rewrite !length_fmap; rewrite !length_app in Hlen; cbn in Hlen; lia].
    destruct Hall as [_ Hlast]. apply Forall2_cons in Hlast.
    destruct Hlast as [(_ & _ & Ho & _) _].
    destruct (Hh' c' (last_snoc _ _)) as [-> _].
    destruct (Hh c (last_snoc _ _)) as [-> _]. exact Ho.
Qed.

End Persistence.

(** ** Concrete nets *)

Definition layerA : Layer.Layer :=
  {| Layer.layer_type := 0; Layer.n_inputs := 2; Layer.n_outputs := 3;
     Layer.n_active := 6; Layer.output := Some 100%nat;
     Layer.delta := Some 101%nat |}.

Definition layerB : Layer.Layer :=
  {| Layer.layer_type := 0; Layer.n_inputs := 3; Layer.n_outputs := 1;
     Layer.n_active := 3; Layer.output := Some 200%nat;
     Layer.delta := Some 201%nat |}.

(** The net with the single layer [layerA]. *)
Definition heap1 : heap :=
  <[malloc ∅ := {| layer := layerA; prev := None; next := None |}]> ∅.

Definition net1 : Net :=
  {| head := Some (malloc ∅); tail := Some (malloc ∅); n_layers := 1;
     n_inputs := 2; n_outputs := 3; output := Some 100%nat |}.

Lemma net_repr_init : net_repr ∅ neural_init [].
Proof.
  split; [apply NoDup_nil_2|]. split; [exact I|]. cbn. auto.
Qed.

Lemma net1_repr : net_repr heap1 net1 [(malloc ∅, layerA)].
Proof.
  exact (proj2 (neural_insert_empty ∅ neural_init layerA 0 net_repr_init)).
Qed.

Lemma neural_insert_beyond_is_push_witness :
  neural_insert heap1 net1 layerB 7 = neural_push heap1 net1 layerB /\
  exists h' net',
    neural_push heap1 net1 layerB = Some (h', net') /\
    net_repr h' net' ([(malloc ∅, layerA)] ++ [(malloc heap1, layerB)]) /\
    head net' = Some (malloc heap1) /\
    n_outputs net' = Layer.n_outputs layerB /\
    output net' = Layer.output layerB /\
    n_inputs net' = n_inputs net1 /\
    n_layers net' = n_layers net1 + 1.
Proof.
  apply (neural_insert_beyond_is_push heap1 net1 [(malloc ∅, layerA)]
           layerB 7 net1_repr).
  - discriminate.
  - cbn. lia.
Defined.

Lemma neural_insert_head_position_witness :
  exists h' net',
    neural_insert heap1 net1 layerB 1 = Some (h', net') /\
    head net' = Some (malloc heap1) /\
    heap1 !! malloc heap1 = None /\
    h' !! malloc heap1
      = Some {| layer := layerB; prev := None; next := head net1 |} /\
    n_outputs net' = Layer.n_outputs layerB /\
    output net' = Layer.output layerB.
Proof.
  apply (proj1 (neural_insert_head_position heap1 net1
                  [(malloc ∅, layerA)] layerB 1 net1_repr
                  ltac:(discriminate))).
  cbn. lia.
Defined.

(** C5, counterexample. Position 0 is not the head: inserting [layerB] at
    position 0 of the net that holds [layerA] does not return a net with
    [layerB] at its head; the new node is linked behind the tail and the
    call ends in the dereference of a [NULL] pointer. *)
Lemma neural_insert_zero_not_head :
  net_repr heap1 net1 [(malloc ∅, layerA)] /\
  neural_insert ∅ neural_init layerA 0 = Some (heap1, net1) /\
  neural_insert heap1 net1 layerB 0 = None /\
  ~ (exists h' net' nd,
       neural_insert heap1 net1 layerB 0 = Some (h', net') /\
       head net' = Some (malloc heap1) /\
       h' !! malloc heap1 = Some nd /\ layer nd = layerB).
Proof.
  split; [exact net1_repr|]. split; [reflexivity|].
  assert (E : neural_insert heap1 net1 layerB 0 = None).
  { apply (neural_insert_tail_fault heap1 net1 [(malloc ∅, layerA)]);
      [exact net1_repr|discriminate|lia]. }
  split; [exact E|]. intros (h' & net' & nd & E' & _). congruence.
Qed.

(** The net that is left when [layerA] is inserted into the empty net,
    [layerB] is pushed and position 0 is removed. *)
Definition heap_stale : heap :=
  <[1%nat := {| layer := layerB; prev := None; next := None |}]> ∅.

Definition net_stale : Net :=
  {| head := Some 1%nat; tail := Some 1%nat; n_layers := 1;
     n_inputs := 2; n_outputs := 1; output := Some 200%nat |}.

Lemma net_stale_repr : net_repr heap_stale net_stale [(1%nat, layerB)].
Proof.
  split; [apply NoDup_singleton|]. split; [|cbn; auto].
  split; [reflexivity|exact I].
Qed.

(** C2, failing input. Insert [layerA] (2 inputs, 3 outputs) into the
    empty net, push [layerB] (3 inputs, 1 output), remove position 0: the
    net is left with the single layer [layerB], its tail, which has 3
    inputs, while the cached [n_inputs] is still 2. *)
Lemma neural_remove_tail_stale_n_inputs :
  run_ops ∅ neural_init [Insert layerA 0; Insert layerB 1; Remove 0]
  = Some (heap_stale, net_stale) /\
  net_repr heap_stale net_stale [(1%nat, layerB)] /\
  n_inputs net_stale = 2 /\ Layer.n_inputs layerB = 3.
Proof.
  split; [vm_compute; reflexivity|]. split; [exact net_stale_repr|].
  split; reflexivity.
Qed.

(** C4, failing input. The net [net_stale] above is saved with
    [n_inputs = 2]; the net read back has [n_inputs = 3], the count of
    its tail layer, because [neural_load] does not keep the count it
    reads.  This holds for every layer payload that is read back as
    saved. *)
Theorem neural_save_load_stale_n_inputs `{LayerIO} :
  layer_storable layerB ->
  exists data n,
    neural_save heap_stale net_stale = Some (data, n) /\
    forall h0 rest,
    exists h' net',
      neural_load h0 (data ++ rest) = Some (h', net', rest, n) /\
      n_inputs net' = 3 /\ n_inputs net_stale = 2.
Proof.
  intros Hst.
  destruct (neural_save_load_layers heap_stale net_stale [(1%nat, layerB)]
              net_stale_repr ltac:(discriminate))
    as (data & n & Es & Hload).
  - unfold int_range. cbn. lia.
  - unfold int_range. cbn. lia.
  - unfold int_range. cbn. lia.
  - constructor; [exact Hst|constructor].
  - exists data, n. split; [exact Es|]. intros h0 rest.
    destruct (Hload h0 rest)
      as (h' & net' & cs' & E & _ & Hall & _ & _ & Ht').
    exists h', net'. split; [exact E|]. split; [|reflexivity].
    destruct cs' as [|c' cs0']; [inversion Hall|].
    rewrite (Ht' c' eq_refl).
    apply Forall2_cons in Hall. destruct Hall as [(_ & Hi & _) _].
    rewrite Hi. reflexivity.
Qed.

(** A payload for the examples: the three counts of a layer as [int]s;
    the buffers of a layer read are not allocated. *)
Definition plain_save (l : Layer.Layer) : list Z * Z :=
  (int_bytes (Layer.n_inputs l) ++ int_bytes (Layer.n_outputs l)
   ++ int_bytes (Layer.n_active l), 3).

Definition plain_load (l : Layer.Layer) (f : stream)
    : option (Layer.Layer * stream * Z) :=
  '(i, f) ← fread_int f;
  '(o, f) ← fread_int f;
  '(a, f) ← fread_int f;
  Some ({| Layer.layer_type := Layer.layer_type l; Layer.n_inputs := i;
           Layer.n_outputs := o; Layer.n_active := a;
           Layer.output := None; Layer.delta := None |}, f, 3).

Definition plain_storable (l : Layer.Layer) : Prop :=
  int_range (Layer.layer_type l) /\ int_range (Layer.n_inputs l) /\
  int_range (Layer.n_outputs l) /\ int_range (Layer.n_active l).

Lemma plain_load_save l rest :
  plain_storable l ->
  exists l',
    plain_load
      (set_layer_type
         {| Layer.layer_type := 0; Layer.n_inputs := 0;
            Layer.n_outputs := 0; Layer.n_active := 0;
            Layer.output := None; Layer.delta := None |}
         (Layer.layer_type l))
      ((plain_save l).1 ++ rest) = Some (l', rest, (plain_save l).2) /\
    layer_same l l'.
Proof.
  intros (Ht & Hi & Ho & Ha). unfold plain_load, plain_save. cbn [fst snd].
  rewrite <- !app_assoc.
  rewrite fread_int_bytes by assumption. cbn [mbind option_bind].
  rewrite fread_int_bytes by assumption. cbn [mbind option_bind].
  rewrite fread_int_bytes by assumption. cbn [mbind option_bind].
  eexists. split; [reflexivity|]. repeat split.
Qed.

#[export] Instance plain_LayerIO : LayerIO :=
  {| layer_init := {| Layer.layer_type := 0; Layer.n_inputs := 0;
                      Layer.n_outputs := 0; Layer.n_active := 0;
                      Layer.output := None; Layer.delta := None |};
     layer_save := plain_save;
     layer_load := plain_load;
     layer_storable := plain_storable;
     layer_storable_type := fun l H => proj1 H;
     layer_load_save := plain_load_save |}.

Lemma neural_save_load_stale_n_inputs_witness :
  exists data n,
    neural_save heap_stale net_stale = Some (data, n) /\
    forall h0 rest,
    exists h' net',
      neural_load h0 (data ++ rest) = Some (h', net', rest, n) /\
      n_inputs net' = 3 /\ n_inputs net_stale = 2.
Proof.
  apply (@neural_save_load_stale_n_inputs plain_LayerIO).
  unfold layer_storable, plain_LayerIO, plain_storable, int_range. cbn. lia.
Defined.

Lemma neural_save_load_witness :
  exists data n,
    neural_save heap1 net1 = Some (data, n) /\
    forall h0 rest,
    exists h' net' cs',
      neural_load h0 (data ++ rest) = Some (h', net', rest, n) /\
      net_repr h' net' cs' /\
      Forall2 layer_same [(malloc ∅, layerA)].*2 cs'.*2 /\
      n_layers net' = n_layers net1 /\
      n_inputs net' = n_inputs net1 /\
      n_outputs net' = n_outputs net1.
Proof.
  assert (R : forall z, 0 <= z < 100 -> int_range z)
    by (unfold int_range; lia).
  apply (@neural_save_load plain_LayerIO heap1 net1 [(malloc ∅, layerA)]
           net1_repr).
  - discriminate.
  - intros c [= <-]. split; reflexivity.
  - intros c [= <-]. reflexivity.
  - apply R. cbn. lia.
  - apply R. cbn. lia.
  - apply R. cbn. lia.
  - apply Forall_cons_2; [|apply Forall_nil_2].
    repeat split; apply R; cbn; lia.
Defined.

(** A sequence on the net that holds [layerA]: push [layerB], insert
    [layerA] at position 1, remove position 1. *)
Definition ops_example : list op :=
  [Insert layerB 1; Insert layerA 1; Remove 1].

Definition after_ops : heap * Net :=
  default (heap1, net1) (run_ops heap1 net1 ops_example).

Lemma run_ops_repr_witness :
  exists cs',
    net_repr after_ops.1 after_ops.2 cs' /\
    (cached_head net1 [(malloc ∅, layerA)] -> cached_head after_ops.2 cs') /\
    (Forall (fun o => ~ removes_tail o) ops_example ->
     cached_tail net1 [(malloc ∅, layerA)] -> cached_tail after_ops.2 cs').
Proof.
  apply (run_ops_repr ops_example heap1 net1 [(malloc ∅, layerA)]
           after_ops.1 after_ops.2 net1_repr).
  vm_compute. reflexivity.
Defined.

(** ** Push and pop *)

(** The heap after a push onto a net that has layers: the new node in
    front of the old head, whose [prev] now leads to it. *)
Lemma neural_push_heap h net cs c l :
  net_repr h net (cs ++ [c]) ->
  neural_push h net l
  = Some (<[c.1 := {| layer := c.2; prev := Some (malloc h);
                      next := last_or cs None |}]>
            (<[malloc h := {| layer := l; prev := None;
                              next := Some c.1 |}]> h),
          {| head := Some (malloc h); tail := tail net;
             n_layers := n_layers net + 1; n_inputs := n_inputs net;
             n_outputs := Layer.n_outputs l; output := Layer.output l |}).
Proof.
  intros Hrepr.
  assert (Hne : cs ++ [c] <> []) by (destruct cs; discriminate).
  destruct (net_repr_nonempty _ _ _ Hrepr Hne) as (tl & hd & Ht & Hh).
  pose proof (net_repr_last _ _ _ _ Hrepr) as Hc.
  destruct Hrepr as (Hnd & Hd & Htl & Hhd & Hn).
  unfold neural_push, neural_insert. rewrite Hh, Ht.
  rewrite <- Ht, Htl, (walk_dll h (cs ++ [c]) None) by assumption.
  rewrite lookup_ge_None_2 by lia.
  cbn [fmap option_fmap option_map mbind option_bind].
  set (a := malloc h).
  assert (Hacs : a ∉ (cs ++ [c]).*1) by (apply (malloc_not_in _ _ _ _ Hd)).
  rewrite last_or_snoc in Hhd. rewrite Hh in Hhd. injection Hhd as ->.
  assert (Hca : c.1 <> a).
  { intros E. apply Hacs. rewrite fmap_app. apply elem_of_app. right.
    cbn. rewrite E. left. }
  unfold set_next, set_prev. rewrite lookup_insert_eq.
  cbn [mbind option_bind layer prev next].
  rewrite insert_insert_eq.
  rewrite lookup_insert_ne by (intros E; apply Hca; symmetry; exact E).
  rewrite Hc. cbn [mbind option_bind layer prev next]. reflexivity.
Qed.

(** [neural_pop] undoes [neural_push] on a net that has layers: the heap
    and every field of the net are as before the push, provided the
    cached output fields were those of the head layer.  On the empty net
    the push is not undone: the pop finds a single layer and exits. *)
Theorem neural_push_pop h net cs l :
  net_repr h net cs ->
  (cs <> [] -> cached_head net cs ->
   exists h1 net1,
     neural_push h net l = Some (h1, net1) /\
     neural_pop h1 net1 = Some (h, net)) /\
  (cs = [] ->
   exists h1 net1,
     neural_push h net l = Some (h1, net1) /\ neural_pop h1 net1 = None).
Proof.
  intros Hrepr. split.
  - intros Hne Hcache.
    destruct cs as [|c cs _] using rev_ind; [contradiction|].
    rewrite (neural_push_heap _ _ _ _ l Hrepr).
    eexists _, _. split; [reflexivity|].
    pose proof (net_repr_last _ _ _ _ Hrepr) as Hc.
    destruct (neural_insert_head h net (cs ++ [c]) l (n_layers net) Hrepr Hne
                ltac:(lia)) as (h' & E & Hrepr').
    change (neural_insert h net l (n_layers net)) with (neural_push h net l)
      in E.
    rewrite (neural_push_heap _ _ _ _ l Hrepr) in E. injection E as <-.
    set (a := malloc h) in *.
    assert (Ha : h !! a = None) by apply malloc_fresh.
    assert (Hca : c.1 <> a) by (intros E; rewrite E, Ha in Hc; discriminate).
    destruct (Hcache c (last_snoc _ _)) as [Ho Hp].
    destruct Hrepr as (Hnd & Hd & Htl & Hhd & Hn).
    rewrite last_or_snoc in Hhd.
    unfold neural_pop, neural_remove. cbn [n_layers tail].
    rewrite (walk_net _ _ _ _ Hrepr'). cbn [n_layers].
    replace (Z.to_nat (n_layers net + 1 - 1)) with (length (cs ++ [c])) by lia.
    rewrite lookup_app_r by lia. rewrite Nat.sub_diag.
    cbn [lookup list_lookup fmap option_fmap option_map fst mbind option_bind].
    heap_run.
    rewrite insert_insert_eq.
    rewrite delete_insert_ne by (intros E; apply Hca; symmetry; exact E).
    rewrite delete_insert_id by exact Ha.
    rewrite insert_id by exact Hc.
    f_equal. f_equal. destruct net as [hd tl nl ni no ou]. cbn in *.
    subst. f_equal. lia.
  - intros ->.
    destruct (neural_insert_empty h net l (n_layers net) Hrepr) as [E Hrepr'].
    eexists _, _. split; [exact E|].
    apply (neural_remove_exit _ _ _ _ Hrepr'). left. cbn. lia.
Qed.

(** ** Positions *)

(** Where [neural_insert] puts a layer.  Positions count from the tail
    (the input layer): on a net that has layers, a position [pos > 0]
    makes the new layer the one of index [pos] from the tail, the layers
    from that index on moving one place towards the head, and any
    position from [n_layers] on appends it as the new head; a position
    [pos <= 0] ends in the dereference of a [NULL] pointer.  On the empty
    net every position gives the net of that single layer. *)
Theorem neural_insert_position h net cs l pos :
  net_repr h net cs ->
  (cs <> [] -> pos <= 0 -> neural_insert h net l pos = None) /\
  (cs = [] \/ 0 < pos ->
   exists h' net',
     neural_insert h net l pos = Some (h', net') /\
     net_repr h' net'
       (take (Z.to_nat pos) cs ++ (malloc h, l) :: drop (Z.to_nat pos) cs)).
Proof.
  intros Hrepr. pose proof Hrepr as (_ & _ & _ & _ & Hn).
  split; [intros Hne Hp0; apply (neural_insert_tail_fault h net cs l pos); auto|].
  intros Hcase.
  assert (Hcs : cs = [] \/ cs <> [])
    by (destruct cs; [left; reflexivity|right; discriminate]).
  destruct Hcs as [->|Hne].
  { destruct (neural_insert_empty h net l pos Hrepr) as [E Hr].
    eexists _, _. split; [exact E|].
    rewrite take_nil, drop_nil. exact Hr. }
  destruct Hcase as [->|Hp0]; [contradiction|].
  assert (Hlen0 : (0 < length cs)%nat)
    by (destruct cs; [contradiction|cbn; lia]).
  destruct (Z.le_gt_cases (n_layers net) pos) as [Hge|Hlt].
  - destruct (neural_insert_head h net cs l pos Hrepr Hne Hge)
      as (h1 & E & Hr).
    eexists _, _. split; [exact E|].
    rewrite firstn_all2 by lia. rewrite drop_ge by lia. exact Hr.
  - destruct (split_at2 cs (Z.to_nat pos) ltac:(lia))
      as (cs1 & cn & ci & cs2 & Hsplit & Hlen).
    rewrite Hsplit in Hrepr.
    destruct (neural_insert_middle h net cs1 cn ci cs2 l pos Hrepr
                ltac:(lia)) as (h1 & E & Hr).
    eexists _, _. split; [exact E|]. rewrite Hsplit.
    replace (Z.to_nat pos) with (length (cs1 ++ [cn]))
      by (rewrite length_app; cbn; lia).
    change (cs1 ++ [cn; ci] ++ cs2) with (cs1 ++ [cn] ++ ci :: cs2).
    rewrite app_assoc, take_app_length, drop_app_length.
    rewrite <- app_assoc. exact Hr.
Qed.

(** What [neural_remove] removes.  It exits when the net has fewer than
    two layers (it never removes the only layer) and when the position
    is [n_layers] or more; otherwise it removes the layer of index [pos]
    from the tail, a position below 0 standing for the tail, and keeps
    the other layers in their order. *)
Theorem neural_remove_position h net cs pos :
  net_repr h net cs ->
  ((length cs <= 1)%nat \/ Z.of_nat (length cs) <= pos ->
   neural_remove h net pos = None) /\
  ((2 <= length cs)%nat -> pos < Z.of_nat (length cs) ->
   exists h' net',
     neural_remove h net pos = Some (h', net') /\
     net_repr h' net' (delete (Z.to_nat pos) cs)).
Proof.
  intros Hrepr. pose proof Hrepr as (_ & _ & _ & _ & Hn).
  split; [apply (neural_remove_exit h net cs pos Hrepr)|].
  intros Hl1 Hlt.
  destruct (Z.le_gt_cases pos 0) as [Hp0|Hp0].
  - destruct cs as [|c0 [|c1 cs0]]; cbn [length] in Hl1; try lia.
    destruct (neural_remove_tail h net c0 c1 cs0 pos Hrepr Hp0)
      as (h1 & E & Hr).
    eexists _, _. split; [exact E|].
    replace (Z.to_nat pos) with 0%nat by lia. exact Hr.
  - destruct (Z.eq_dec pos (n_layers net - 1)) as [Hlast|Hnl].
    + destruct (split_last2 cs ltac:(lia)) as (cs0 & c1 & c0 & Hsplit).
      rewrite Hsplit in Hrepr.
      destruct (neural_remove_head h net cs0 c1 c0 pos Hrepr Hlast)
        as (h1 & E & Hr).
      eexists _, _. split; [exact E|]. rewrite Hsplit in *.
      rewrite length_app in Hn. cbn in Hn.
      replace (Z.to_nat pos) with (length (cs0 ++ [c1]))
        by (rewrite length_app; cbn; lia).
      change (cs0 ++ [c1; c0]) with (cs0 ++ [c1] ++ [c0]).
      rewrite app_assoc.
      rewrite (delete_middle (cs0 ++ [c1]) [] c0).
      rewrite app_nil_r. exact Hr.
    + destruct (split_at3 cs (Z.to_nat pos) ltac:(lia) ltac:(lia))
        as (cs1 & cn & c & cp & cs2 & Hsplit & Hlen).
      rewrite Hsplit in Hrepr.
      destruct (neural_remove_middle h net cs1 cn c cp cs2 pos Hrepr
                  ltac:(lia)) as (h1 & E & Hr).
      eexists _, _. split; [exact E|]. rewrite Hsplit.
      replace (Z.to_nat pos) with (length (cs1 ++ [cn]))
        by (rewrite length_app; cbn; lia).
      change (cs1 ++ [cn; c; cp] ++ cs2) with (cs1 ++ [cn] ++ c :: cp :: cs2).
      rewrite app_assoc, delete_middle, <- app_assoc. exact Hr.
Qed.

(** ** Copying and freeing *)

(** A push onto any well-formed net: the node allocated is the new head,
    the cached fields follow the layers at the two ends, and no node
    outside the net is touched. *)
Lemma neural_push_fresh h net cs l :
  net_repr h net cs ->
  exists h' net',
    neural_push h net l = Some (h', net') /\
    net_repr h' net' (cs ++ [(malloc h, l)]) /\
    cached_head net' (cs ++ [(malloc h, l)]) /\
    (cached_tail net cs -> cached_tail net' (cs ++ [(malloc h, l)])) /\
    (forall a, a ∉ cs.*1 -> a <> malloc h -> h' !! a = h !! a).
Proof.
  intros Hrepr.
  destruct cs as [|c cs _] using rev_ind.
  - destruct (neural_insert_empty h net l (n_layers net) Hrepr) as [E Hr].
    eexists _, _. split; [exact E|]. split; [exact Hr|]. split; [|split].
    + intros c [= <-]. cbn. auto.
    + intros _ c [= <-]. reflexivity.
    + intros a _ Ha. apply lookup_insert_ne. auto.
  - assert (Hne : cs ++ [c] <> []) by (destruct cs; discriminate).
    pose proof Hrepr as (_ & _ & _ & _ & Hn).
    destruct (neural_insert_head h net (cs ++ [c]) l (n_layers net) Hrepr Hne
                ltac:(lia)) as (h' & E & Hr).
    change (neural_insert h net l (n_layers net)) with (neural_push h net l)
      in E.
    pose proof (neural_push_heap _ _ _ _ l Hrepr) as E'.
    rewrite E' in E. injection E as <-.
    eexists _, _. split; [exact E'|]. split; [exact Hr|]. split; [|split].
    + intros c'. rewrite last_snoc. intros [= <-]. cbn. auto.
    + intros Ht c' Hc'. cbn. apply Ht.
      rewrite lookup_app_l in Hc' by (rewrite length_app; cbn; lia).
      exact Hc'.
    + intros a Ha Hna. rewrite lookup_insert_ne.
      * apply lookup_insert_ne. auto.
      * intros <-. apply Ha. rewrite fmap_app. apply elem_of_app. right.
        cbn. left.
Qed.

Section Copy.

(** [layer_copy] of neural_layer.h is not part of the sources: the copy
    of a layer is a parameter. *)
Variable layer_copy : Layer.Layer -> Layer.Layer.

(** The loop of [neural_copy]: each layer from [iter] towards the head
    of the source is copied and pushed onto the destination; [iter->prev]
    is read after the push. *)
Fixpoint copy_layers (fuel : nat) (h : heap) (dest : Net)
    (iter : option loc) : option (heap * Net) :=
  match iter with
  | None => Some (h, dest)
  | Some a =>
    match fuel with
    | O => None
    | S fuel' =>
      nd ← h !! a;
      '(h, dest) ← neural_push h dest (layer_copy (layer nd));
      nd ← h !! a;
      copy_layers fuel' h dest (prev nd)
    end
  end.

(** [neural_copy] into a destination that is not the source itself; the
    fuel is the number of live nodes plus one. *)
Definition neural_copy (h : heap) (src : Net) : option (heap * Net) :=
  copy_layers (S (size h)) h neural_init (tail src).

Lemma copy_layers_spec todo : forall nxt fuel h dest ds,
  dll h nxt todo None -> net_repr h dest ds ->
  (forall a, a ∈ todo.*1 -> a ∉ ds.*1) ->
  cached_head dest ds -> cached_tail dest ds ->
  (length todo <= fuel)%nat ->
  exists h' dest' ds',
    copy_layers fuel h dest (first_or todo None) = Some (h', dest') /\
    net_repr h' dest' (ds ++ ds') /\
    ds'.*2 = layer_copy <$> todo.*2 /\
    cached_head dest' (ds ++ ds') /\ cached_tail dest' (ds ++ ds') /\
    (forall a, a ∉ ds.*1 -> is_Some (h !! a) -> h' !! a = h !! a) /\
    (forall a, a ∈ ds'.*1 -> h !! a = None).
Proof.
  induction todo as [|c todo IH];
    intros nxt fuel h dest ds Hd Hrepr Hdis Hch Hct Hfuel.
  - exists h, dest, []. rewrite app_nil_r. cbn.
    split; [destruct fuel; reflexivity|].
    split; [assumption|]. split; [reflexivity|].
    split; [assumption|]. split; [assumption|].
    split; [auto|]. intros a Ha. apply elem_of_nil in Ha. contradiction.
  - destruct fuel as [|fuel]; [cbn in Hfuel; lia|].
    destruct Hd as [Hc Hrest]. cbn [first_or copy_layers].
    rewrite Hc. cbn [mbind option_bind layer].
    destruct (neural_push_fresh h dest ds (layer_copy c.2) Hrepr)
      as (h1 & dest1 & E & Hrepr1 & Hch1 & Hct1 & Hframe).
    rewrite E. cbn [mbind option_bind].
    assert (Hfresh : h !! malloc h = None) by apply malloc_fresh.
    assert (Hlive : forall a, is_Some (h !! a) -> a <> malloc h).
    { intros a [nd Hnd] ->. rewrite Hfresh in Hnd. discriminate. }
    assert (Hc1 : h1 !! c.1 = h !! c.1).
    { apply Hframe; [apply Hdis; cbn; left|apply Hlive; rewrite Hc; eauto]. }
    rewrite Hc1, Hc. cbn [mbind option_bind prev].
    assert (Hrest1 : dll h1 (Some c.1) todo None).
    { apply (dll_frame h); [|assumption].
      intros a Ha. apply Hframe.
      - apply Hdis. cbn. right. assumption.
      - apply Hlive. apply (dll_live _ _ _ _ _ Hrest Ha). }
    destruct (IH (Some c.1) fuel h1 dest1 (ds ++ [(malloc h, layer_copy c.2)])
                Hrest1 Hrepr1) as (h' & dest' & ds' & E' & Hr' & Hl' & Hch'
                                   & Hct' & Hf' & Hn').
    { intros a Ha. rewrite fmap_app. intros Hin. apply elem_of_app in Hin.
      destruct Hin as [Hin|Hin].
      - apply (Hdis a); [cbn; right; assumption|assumption].
      - cbn in Hin. apply list_elem_of_singleton in Hin. subst a.
        destruct (dll_live _ _ _ _ _ Hrest Ha) as [nd Hnd].
        rewrite Hfresh in Hnd. discriminate. }
    { assumption. }
    { auto. }
    { cbn in Hfuel. lia. }
    exists h', dest', ((malloc h, layer_copy c.2) :: ds').
    split; [exact E'|].
    replace (ds ++ (malloc h, layer_copy c.2) :: ds')
      with ((ds ++ [(malloc h, layer_copy c.2)]) ++ ds')
      by (rewrite <- app_assoc; reflexivity).
    split; [exact Hr'|]. split; [cbn; rewrite Hl'; reflexivity|].
    split; [exact Hch'|]. split; [exact Hct'|]. split.
    + intros a Ha Hs. rewrite Hf'.
      * apply Hframe; [assumption|apply Hlive; assumption].
      * rewrite fmap_app. intros Hin. apply elem_of_app in Hin.
        destruct Hin as [Hin|Hin]; [contradiction|].
        cbn in Hin. apply list_elem_of_singleton in Hin.
        apply (Hlive a Hs). assumption.
      * rewrite Hframe; [assumption|assumption|apply Hlive; assumption].
    + intros a Ha. cbn in Ha. apply elem_of_cons in Ha.
      destruct Ha as [->|Ha]; [exact Hfresh|].
      destruct (h !! a) as [nd|] eqn:Hnd; [|reflexivity].
      exfalso.
      assert (Hin : a ∉ (ds ++ [(malloc h, layer_copy c.2)]).*1 ->
                    h1 !! a = None) by (intros _; apply Hn'; assumption).
      destruct (decide (a ∈ ds.*1)) as [Hads|Hads].
      * destruct Hr' as (Hnd' & _). rewrite fmap_app in Hnd'.
        apply NoDup_app in Hnd'. destruct Hnd' as (_ & Hdisj & _).
        apply (Hdisj a); [|assumption].
        rewrite fmap_app. apply elem_of_app. left. assumption.
      * assert (Hne : a <> malloc h) by (apply Hlive; rewrite Hnd; eauto).
        rewrite Hframe in Hin by assumption.
        rewrite Hnd in Hin. 
        assert (Some nd = None) as Habs; [|discriminate Habs].
        apply Hin. rewrite fmap_app. intros Hin'. apply elem_of_app in Hin'.
        destruct Hin' as [Hin'|Hin']; [contradiction|].
        cbn in Hin'. apply list_elem_of_singleton in Hin'. contradiction.
Qed.

(** [neural_copy] builds a well-formed net with as many layers as the
    source, each the [layer_copy] of the source layer at the same place,
    in nodes of its own; its cached fields are those of its own head and
    tail layers, whatever the source had cached.  The source net and
    every other node are left as they were. *)
Theorem neural_copy_layers h src cs :
  net_repr h src cs ->
  exists h' dest ds,
    neural_copy h src = Some (h', dest) /\
    net_repr h' dest ds /\
    ds.*2 = layer_copy <$> cs.*2 /\
    cached_head dest ds /\ cached_tail dest ds /\
    net_repr h' src cs /\
    (forall a, is_Some (h !! a) -> h' !! a = h !! a) /\
    (forall a, a ∈ ds.*1 -> h !! a = None).
Proof.
  intros Hrepr. pose proof Hrepr as (Hnd & Hd & Htl & Hhd & Hn).
  destruct (copy_layers_spec cs None (S (size h)) h neural_init [] Hd)
    as (h' & dest & ds & E & Hr & Hl & Hch & Hct & Hf & Hfresh).
  - split; [constructor|]. cbn. auto.
  - intros a _ Ha. cbn in Ha. apply elem_of_nil in Ha. contradiction.
  - intros c Hc. discriminate.
  - intros c Hc. discriminate.
  - pose proof (dll_size _ _ _ _ Hnd Hd). lia.
  - exists h', dest, ds. unfold neural_copy. rewrite Htl.
    cbn [app] in *.
    assert (Hf' : forall a, is_Some (h !! a) -> h' !! a = h !! a).
    { intros a Ha. apply Hf; [|assumption]. cbn. apply not_elem_of_nil. }
    split; [exact E|]. split; [exact Hr|]. split; [exact Hl|].
    split; [exact Hch|]. split; [exact Hct|].
    split; [|split; assumption].
    split; [assumption|]. split; [|auto].
    apply (dll_frame h); [|assumption].
    intros a Ha. apply Hf'. apply (dll_live _ _ _ _ _ Hd Ha).
Qed.

End Copy.

(** The loop of [neural_free]: the node at [iter] is released after its
    [prev] pointer has become the tail of the net. *)
Fixpoint free_layers (fuel : nat) (h : heap) (net : Net) (iter : option loc)
    : option (heap * Net) :=
  match iter with
  | None => Some (h, net)
  | Some a =>
    match fuel with
    | O => None
    | S fuel' =>
      nd ← h !! a;
      let net := {| head := head net; tail := prev nd;
                    n_layers := n_layers net - 1; n_inputs := n_inputs net;
                    n_outputs := n_outputs net; output := output net |} in
      free_layers fuel' (delete a h) net (tail net)
    end
  end.

(** [neural_free] *)
Definition neural_free (h : heap) (net : Net) : option (heap * Net) :=
  free_layers (S (size h)) h net (tail net).

Lemma free_layers_spec cs : forall nxt fuel h net,
  NoDup cs.*1 -> dll h nxt cs None -> (length cs <= fuel)%nat ->
  exists h' net',
    free_layers fuel h net (first_or cs None) = Some (h', net') /\
    (forall a, a ∈ cs.*1 -> h' !! a = None) /\
    (forall a, a ∉ cs.*1 -> h' !! a = h !! a) /\
    head net' = head net /\
    tail net' = match cs with [] => tail net | _ => None end /\
    n_layers net' = n_layers net - Z.of_nat (length cs) /\
    n_inputs net' = n_inputs net /\ n_outputs net' = n_outputs net /\
    output net' = output net.
Proof.
  induction cs as [|c cs IH]; intros nxt fuel h net Hnd Hd Hfuel.
  - exists h, net. cbn.
    split; [destruct fuel; reflexivity|].
    split; [intros a Ha; apply elem_of_nil in Ha; contradiction|].
    split; [auto|]. repeat split; lia.
  - destruct fuel as [|fuel]; [cbn in Hfuel; lia|].
    destruct Hd as [Hc Hrest]. cbn [first_or free_layers].
    rewrite Hc. cbn [mbind option_bind prev tail].
    cbn in Hnd. apply NoDup_cons in Hnd. destruct Hnd as [Hnin Hnd].
    assert (Hrest' : dll (delete c.1 h) (Some c.1) cs None).
    { apply (dll_frame h); [|assumption].
      intros a Ha. apply lookup_delete_ne. intros <-. contradiction. }
    destruct (IH (Some c.1) fuel (delete c.1 h)
                {| head := head net; tail := first_or cs None;
                   n_layers := n_layers net - 1; n_inputs := n_inputs net;
                   n_outputs := n_outputs net; output := output net |}
                Hnd Hrest' ltac:(cbn in Hfuel; lia))
      as (h' & net' & E & Hgone & Hkeep & Hh & Ht & Hn & Hi & Ho & Hp).
    exists h', net'. split; [exact E|]. cbn [head tail n_layers n_inputs
                                              n_outputs output] in *.
    split; [|split].
    + intros a Ha. cbn in Ha. apply elem_of_cons in Ha.
      destruct Ha as [->|Ha]; [|auto].
      rewrite Hkeep by assumption. apply lookup_delete_eq.
    + intros a Ha. cbn in Ha. apply not_elem_of_cons in Ha.
      destruct Ha as [Hne Ha]. rewrite Hkeep by assumption.
      apply lookup_delete_ne. auto.
    + split; [assumption|]. split.
      * rewrite Ht. destruct cs; reflexivity.
      * cbn [length]. repeat split; try assumption. lia.
Qed.

(** [neural_free] releases every node of the net and nothing else, and
    leaves [tail = NULL] and [n_layers = 0]; [head] still holds the
    address of the released head node and the cached fields their old
    values.  A later [neural_insert] treats the net as empty all the
    same, because it tests [head == NULL || tail == NULL], and builds a
    well-formed net of one layer. *)
Theorem neural_free_releases h net cs :
  net_repr h net cs ->
  exists h' net',
    neural_free h net = Some (h', net') /\
    (forall a, a ∈ cs.*1 -> h' !! a = None) /\
    (forall a, a ∉ cs.*1 -> h' !! a = h !! a) /\
    head net' = head net /\ tail net' = None /\ n_layers net' = 0 /\
    n_inputs net' = n_inputs net /\ n_outputs net' = n_outputs net /\
    output net' = output net /\
    forall l pos,
      exists h'' net'',
        neural_insert h' net' l pos = Some (h'', net'') /\
        net_repr h'' net'' [(malloc h', l)].
Proof.
  intros (Hnd & Hd & Htl & Hhd & Hn).
  destruct (free_layers_spec cs None (S (size h)) h net Hnd Hd)
    as (h' & net' & E & Hgone & Hkeep & Hh & Ht & Hl & Hi & Ho & Hp).
  { pose proof (dll_size _ _ _ _ Hnd Hd). lia. }
  exists h', net'. unfold neural_free. rewrite Htl.
  split; [exact E|]. split; [exact Hgone|]. split; [exact Hkeep|].
  assert (Ht' : tail net' = None).
  { rewrite Ht. destruct cs; [|reflexivity]. rewrite Htl. reflexivity. }
  split; [exact Hh|]. split; [exact Ht'|]. split; [lia|].
  split; [exact Hi|]. split; [exact Ho|]. split; [exact Hp|].
  intros l pos. unfold neural_insert. rewrite Ht'.
  destruct (head net'); cbn [mbind option_bind];
    (eexists _, _; split; [reflexivity|];
     split; [apply NoDup_singleton|]; split;
     [cbn; split; [apply lookup_insert_eq|exact I]|cbn; split; [reflexivity|];
      split; [reflexivity|lia]]).
Qed.

(** The net that holds [layerA] and, pushed onto it, [layerB]. *)
Definition pushed : heap * Net :=
  default (heap1, net1) (neural_push heap1 net1 layerB).

Lemma pushed_repr :
  net_repr pushed.1 pushed.2 [(malloc ∅, layerA); (malloc heap1, layerB)].
Proof.
  destruct (neural_insert_head heap1 net1 [(malloc ∅, layerA)] layerB 1
              net1_repr ltac:(discriminate) ltac:(cbn; lia))
    as (h' & E & Hr).
  unfold pushed, neural_push. change (n_layers net1) with 1.
  rewrite E. exact Hr.
Qed.

Lemma neural_push_pop_witness :
  (([(malloc ∅, layerA)] : cells) <> [] ->
   cached_head net1 [(malloc ∅, layerA)] ->
   exists h1 net1',
     neural_push heap1 net1 layerB = Some (h1, net1') /\
     neural_pop h1 net1' = Some (heap1, net1)) /\
  (([(malloc ∅, layerA)] : cells) = [] ->
   exists h1 net1',
     neural_push heap1 net1 layerB = Some (h1, net1') /\
     neural_pop h1 net1' = None).
Proof.
  apply (neural_push_pop heap1 net1 [(malloc ∅, layerA)] layerB).
  exact net1_repr.
Defined.

Lemma neural_insert_position_witness :
  (([(malloc ∅, layerA); (malloc heap1, layerB)] : cells) <> [] -> 1 <= 0 ->
   neural_insert pushed.1 pushed.2 layerA 1 = None) /\
  (([(malloc ∅, layerA); (malloc heap1, layerB)] : cells) = [] \/ 0 < 1 ->
   exists h' net',
     neural_insert pushed.1 pushed.2 layerA 1 = Some (h', net') /\
     net_repr h' net'
       (take (Z.to_nat 1) [(malloc ∅, layerA); (malloc heap1, layerB)]
        ++ (malloc pushed.1, layerA)
           :: drop (Z.to_nat 1)
                [(malloc ∅, layerA); (malloc heap1, layerB)])).
Proof.
  apply (neural_insert_position pushed.1 pushed.2
           [(malloc ∅, layerA); (malloc heap1, layerB)] layerA 1).
  exact pushed_repr.
Defined.

Lemma neural_remove_position_witness :
  ((length [(malloc ∅, layerA); (malloc heap1, layerB)] <= 1)%nat \/
   Z.of_nat (length [(malloc ∅, layerA); (malloc heap1, layerB)]) <= 1 ->
   neural_remove pushed.1 pushed.2 1 = None) /\
  ((2 <= length [(malloc ∅, layerA); (malloc heap1, layerB)])%nat ->
   1 < Z.of_nat (length [(malloc ∅, layerA); (malloc heap1, layerB)]) ->
   exists h' net',
     neural_remove pushed.1 pushed.2 1 = Some (h', net') /\
     net_repr h' net'
       (delete (Z.to_nat 1) [(malloc ∅, layerA); (malloc heap1, layerB)])).
Proof.
  apply (neural_remove_position pushed.1 pushed.2
           [(malloc ∅, layerA); (malloc heap1, layerB)] 1).
  exact pushed_repr.
Defined.

(** A copy of a layer for the examples: the attributes are kept and the
    buffers are not allocated. *)
Definition plain_copy (l : Layer.Layer) : Layer.Layer :=
  {| Layer.layer_type := Layer.layer_type l;
     Layer.n_inputs := Layer.n_inputs l;
     Layer.n_outputs := Layer.n_outputs l;
     Layer.n_active := Layer.n_active l;
     Layer.output := None; Layer.delta := None |}.

Lemma neural_copy_layers_witness :
  exists h' dest ds,
    neural_copy plain_copy pushed.1 pushed.2 = Some (h', dest) /\
    net_repr h' dest ds /\
    ds.*2 = plain_copy
            <$> [(malloc ∅, layerA); (malloc heap1, layerB)].*2 /\
    cached_head dest ds /\ cached_tail dest ds /\
    net_repr h' pushed.2 [(malloc ∅, layerA); (malloc heap1, layerB)] /\
    (forall a, is_Some (pushed.1 !! a) -> h' !! a = pushed.1 !! a) /\
    (forall a, a ∈ ds.*1 -> pushed.1 !! a = None).
Proof.
  apply (neural_copy_layers plain_copy pushed.1 pushed.2
           [(malloc ∅, layerA); (malloc heap1, layerB)]).
  exact pushed_repr.
Defined.

Lemma neural_free_releases_witness :
  exists h' net',
    neural_free pushed.1 pushed.2 = Some (h', net') /\
    (forall a, a ∈ [(malloc ∅, layerA); (malloc heap1, layerB)].*1 ->
               h' !! a = None) /\
    (forall a, a ∉ [(malloc ∅, layerA); (malloc heap1, layerB)].*1 ->
               h' !! a = pushed.1 !! a) /\
    head net' = head pushed.2 /\ tail net' = None /\ n_layers net' = 0 /\
    n_inputs net' = n_inputs pushed.2 /\
    n_outputs net' = n_outputs pushed.2 /\
    output net' = output pushed.2 /\
    forall l pos,
      exists h'' net'',
        neural_insert h' net' l pos = Some (h'', net'') /\
        net_repr h'' net'' [(malloc h', l)].
Proof.
  apply (neural_free_releases pushed.1 pushed.2
           [(malloc ∅, layerA); (malloc heap1, layerB)]).
  exact pushed_repr.
Defined.

End Neural.

Module Config.

Import Stdlib.Strings.String Stdlib.Strings.Ascii.
Local Open Scope string_scope.

Definition MAXLEN : nat := 127.

(** [PARAM_LIST]: the name and value pairs read so far, most recent
    first. *)
Definition PARAM_LIST : Type := list (string * string).

Definition char_code (c : ascii) : Z := Z.of_N (N_of_ascii c).

(** [strcmp] and [strncmp] on C strings; the end of a string reads as
    the character 0. *)
Fixpoint strcmp (s1 s2 : string) : Z :=
  match s1, s2 with
  | EmptyString, EmptyString => 0
  | EmptyString, String c2 _ => 0 - char_code c2
  | String c1 _, EmptyString => char_code c1
  | String c1 r1, String c2 r2 =>
    if Ascii.eqb c1 c2 then strcmp r1 r2 else char_code c1 - char_code c2
  end.

Fixpoint strncmp (s1 s2 : string) (n : nat) {struct n} : Z :=
  match n with
  | O => 0
  | S n' =>
    match s1, s2 with
    | EmptyString, EmptyString => 0
    | EmptyString, String c2 _ => 0 - char_code c2
    | String c1 _, EmptyString => char_code c1
    | String c1 r1, String c2 r2 =>
      if Ascii.eqb c1 c2 then strncmp r1 r2 n'
      else char_code c1 - char_code c2
    end
  end.

(** [strnlen(s, MAXLEN)] *)
Definition strnlen (s : string) (n : nat) : nat := Nat.min (length s) n.

(** The position of the first ['='] among the first [n] characters. *)
Fixpoint find_eq (s : string) (n : nat) : option nat :=
  match n, s with
  | S n', String c r =>
    if Ascii.eqb c "=" then Some O else S <$> find_eq r n'
  | _, _ => None
  end.

(** [newnvpair]: [None] is the [exit] taken when the line has no ['=']. *)
Definition newnvpair (head : PARAM_LIST) (config : string)
    : option PARAM_LIST :=
  namelen ← find_eq config (strnlen config MAXLEN);
  let name := substring 0 namelen config in
  let valuelen := (strnlen config MAXLEN - namelen)%nat in
  let value :=
    substring 0 (valuelen - 1)
      (substring (namelen + 1) (length config - (namelen + 1)) config) in
  Some ((name, value) :: head).

(** The part of the line before the first ['#']. *)
Fixpoint before_hash (s : string) : string :=
  match s with
  | EmptyString => EmptyString
  | String c r =>
    if Ascii.eqb c "#" then EmptyString else String c (before_hash r)
  end.

(** [process]: one trimmed line of the configuration file. *)
Definition process (head : PARAM_LIST) (configline : string)
    : option PARAM_LIST :=
  match configline with
  | EmptyString => Some head
  | String c _ =>
    if Ascii.eqb c "#" then Some head
    else newnvpair head (before_hash configline)
  end.

(** [getvalue]: the value of the first pair with this name, or [NULL]. *)
Fixpoint getvalue (head : PARAM_LIST) (name : string) : option string :=
  match head with
  | [] => None
  | (n, v) :: rest =>
    if (strcmp name n =? 0)%Z then Some v else getvalue rest name
  end.

(** A boolean key of [constants_init]:
    [x = false; if (strncmp(getvalue(key), "true", 4) == 0) x = true;].
    A key that is missing makes [strncmp] read through [NULL]. *)
Definition config_bool (head : PARAM_LIST) (key : string) : option bool :=
  v ← getvalue head key;
  Some (strncmp v "true" 4 =? 0)%Z.

(** The boolean fields of [struct XCSF]. *)
Record XCSF_bools := {
  POP_INIT : bool;
  EA_SUBSUMPTION : bool;
  SET_SUBSUMPTION : bool;
  RESET_STATES : bool;
  COND_EVOLVE_WEIGHTS : bool;
  COND_EVOLVE_NEURONS : bool;
  COND_EVOLVE_FUNCTIONS : bool;
  PRED_EVOLVE_WEIGHTS : bool;
  PRED_EVOLVE_NEURONS : bool;
  PRED_EVOLVE_FUNCTIONS : bool;
  PRED_EVOLVE_ETA : bool;
  PRED_SGD_WEIGHTS : bool;
  PRED_RESET : bool
}.

(** The boolean part of [constants_init]. *)
Definition constants_init_bools (head : PARAM_LIST) : option XCSF_bools :=
  b1 ← config_bool head "POP_INIT";
  b2 ← config_bool head "EA_SUBSUMPTION";
  b3 ← config_bool head "SET_SUBSUMPTION";
  b4 ← config_bool head "RESET_STATES";
  b5 ← config_bool head "COND_EVOLVE_WEIGHTS";
  b6 ← config_bool head "COND_EVOLVE_NEURONS";
  b7 ← config_bool head "COND_EVOLVE_FUNCTIONS";
  b8 ← config_bool head "PRED_EVOLVE_WEIGHTS";
  b9 ← config_bool head "PRED_EVOLVE_NEURONS";
  b10 ← config_bool head "PRED_EVOLVE_FUNCTIONS";
  b11 ← config_bool head "PRED_EVOLVE_ETA";
  b12 ← config_bool head "PRED_SGD_WEIGHTS";
  b13 ← config_bool head "PRED_RESET";
  Some {| POP_INIT := b1; EA_SUBSUMPTION := b2; SET_SUBSUMPTION := b3;
          RESET_STATES := b4; COND_EVOLVE_WEIGHTS := b5;
          COND_EVOLVE_NEURONS := b6; COND_EVOLVE_FUNCTIONS := b7;
          PRED_EVOLVE_WEIGHTS := b8; PRED_EVOLVE_NEURONS := b9;
          PRED_EVOLVE_FUNCTIONS := b10; PRED_EVOLVE_ETA := b11;
          PRED_SGD_WEIGHTS := b12; PRED_RESET := b13 |}.

(** The boolean keys with the field each one sets. *)
Definition bool_keys : list (string * (XCSF_bools -> bool)) :=
  [("POP_INIT", POP_INIT); ("EA_SUBSUMPTION", EA_SUBSUMPTION);
   ("SET_SUBSUMPTION", SET_SUBSUMPTION); ("RESET_STATES", RESET_STATES);
   ("COND_EVOLVE_WEIGHTS", COND_EVOLVE_WEIGHTS);
   ("COND_EVOLVE_NEURONS", COND_EVOLVE_NEURONS);
   ("COND_EVOLVE_FUNCTIONS", COND_EVOLVE_FUNCTIONS);
   ("PRED_EVOLVE_WEIGHTS", PRED_EVOLVE_WEIGHTS);
   ("PRED_EVOLVE_NEURONS", PRED_EVOLVE_NEURONS);
   ("PRED_EVOLVE_FUNCTIONS", PRED_EVOLVE_FUNCTIONS);
   ("PRED_EVOLVE_ETA", PRED_EVOLVE_ETA);
   ("PRED_SGD_WEIGHTS", PRED_SGD_WEIGHTS); ("PRED_RESET", PRED_RESET)].

(** Reading a configuration file: its trimmed lines in order. *)
Fixpoint process_lines (head : PARAM_LIST) (lines : list string)
    : option PARAM_LIST :=
  match lines with
  | [] => Some head
  | l :: ls => head ← process head l; process_lines head ls
  end.

Lemma char_code_diff c1 c2 :
  Ascii.eqb c1 c2 = false -> (char_code c1 - char_code c2 <> 0)%Z.
Proof.
  intros Hne Hz. apply Ascii.eqb_neq in Hne. apply Hne.
  unfold char_code in Hz.
  rewrite <- (ascii_N_embedding c1), <- (ascii_N_embedding c2).
  f_equal. lia.
Qed.

(** [strncmp(v, "true", 4) == 0] holds exactly for the strings that
    begin with the four characters [true]. *)
Lemma strncmp_true v :
  strncmp v "true" 4 = 0%Z <-> exists rest, v = "true" ++ rest.
Proof.
  split.
  - destruct v as [|c1 [|c2 [|c3 [|c4 rest]]]]; cbn [strncmp];
      repeat match goal with
      | |- context [Ascii.eqb ?a ?b] =>
          destruct (Ascii.eqb a b) eqn:?;
            [|intros Hz; exfalso; revert Hz; apply char_code_diff; assumption]
      end; try discriminate.
    intros _.
    repeat match goal with
    | H : Ascii.eqb _ _ = true |- _ => apply Ascii.eqb_eq in H; subst
    end.
    exists rest. reflexivity.
  - intros [rest ->]. reflexivity.
Qed.

Lemma config_bool_spec head key b :
  config_bool head key = Some b ->
  exists v, getvalue head key = Some v /\
            (b = true <-> exists rest, v = "true" ++ rest).
Proof.
  unfold config_bool. destruct (getvalue head key) as [v|]; [|discriminate].
  cbn. intros [= <-]. exists v. split; [reflexivity|].
  rewrite Z.eqb_eq. apply strncmp_true.
Qed.

(** C8 (amended). For every boolean configuration key, the parsed value
    is true exactly when the stored value string begins with the four
    characters [true], and false for any other string. *)
Theorem constants_init_bools_prefix head flags :
  constants_init_bools head = Some flags ->
  Forall (fun kf : string * (XCSF_bools -> bool) =>
            exists v, getvalue head kf.1 = Some v /\
                      (kf.2 flags = true <-> exists rest, v = "true" ++ rest))
         bool_keys.
Proof.
  unfold constants_init_bools.
  repeat match goal with
  | |- context [config_bool head ?k] =>
      let E := fresh "E" in
      destruct (config_bool head k) eqn:E; cbn [mbind option_bind];
        [apply config_bool_spec in E|discriminate]
  end.
  intros [= <-]. unfold bool_keys.
  repeat (apply Forall_cons_2; [cbn [fst snd]; assumption|]).
  apply Forall_nil_2.
Qed.

(** A configuration that sets every boolean key. *)
Definition config_lines (pop_init : string) : list string :=
  ["# booleans"; "POP_INIT=" ++ pop_init; "EA_SUBSUMPTION=false";
   "SET_SUBSUMPTION=false"; "RESET_STATES=true";
   "COND_EVOLVE_WEIGHTS=true"; "COND_EVOLVE_NEURONS=false";
   "COND_EVOLVE_FUNCTIONS=false"; "PRED_EVOLVE_WEIGHTS=true";
   "PRED_EVOLVE_NEURONS=TRUE"; "PRED_EVOLVE_FUNCTIONS=no";
   "PRED_EVOLVE_ETA=true"; "PRED_SGD_WEIGHTS=true"; "PRED_RESET=false"].

Definition config_flags : XCSF_bools :=
  {| POP_INIT := true; EA_SUBSUMPTION := false; SET_SUBSUMPTION := false;
     RESET_STATES := true; COND_EVOLVE_WEIGHTS := true;
     COND_EVOLVE_NEURONS := false; COND_EVOLVE_FUNCTIONS := false;
     PRED_EVOLVE_WEIGHTS := true; PRED_EVOLVE_NEURONS := false;
     PRED_EVOLVE_FUNCTIONS := false; PRED_EVOLVE_ETA := true;
     PRED_SGD_WEIGHTS := true; PRED_RESET := false |}.

Lemma constants_init_bools_prefix_witness :
  Forall (fun kf : string * (XCSF_bools -> bool) =>
            exists v,
              getvalue
                (default [] (process_lines [] (config_lines "true"))) kf.1
              = Some v /\
              (kf.2 config_flags = true <-> exists rest, v = "true" ++ rest))
         bool_keys.
Proof.
  apply (constants_init_bools_prefix
           (default [] (process_lines [] (config_lines "true")))
           config_flags).
  vm_compute. reflexivity.
Defined.

(** C8, counterexample. The line [POP_INIT=trueish] stores the value
    [trueish], which is not the string [true]; [POP_INIT] is parsed as
    true. *)
Lemma constants_init_bools_trueish :
  exists head,
    process_lines [] (config_lines "trueish") = Some head /\
    getvalue head "POP_INIT" = Some "trueish" /\
    "trueish" <> "true" /\
    constants_init_bools head = Some config_flags /\
    POP_INIT config_flags = true.
Proof.
  eexists. split; [vm_compute; reflexivity|].
  split; [reflexivity|]. split; [discriminate|].
  split; [vm_compute; reflexivity|reflexivity].
Qed.

(** ** Names and values *)

(** Whether a character occurs in a string. *)
Fixpoint has_char (c : ascii) (s : string) : bool :=
  match s with
  | EmptyString => false
  | String d r => Ascii.eqb d c || has_char c r
  end.

Lemma strcmp_refl s : strcmp s s = 0%Z.
Proof.
  induction s as [|c s IH]; [reflexivity|].
  cbn [strcmp]. rewrite Ascii.eqb_refl. exact IH.
Qed.

Lemma char_code_pos c : (0 <= char_code c)%Z.
Proof. unfold char_code. lia. Qed.

(** [strcmp] returns 0 for equal strings only.  (A string of the model
    holds no character 0: it ends where the C string ends.) *)
Lemma strcmp_eq s1 : forall s2,
  has_char "000" s1 = false -> has_char "000" s2 = false ->
  (strcmp s1 s2 = 0%Z <-> s1 = s2).
Proof.
  induction s1 as [|c1 s1 IH]; intros [|c2 s2] H1 H2; cbn [strcmp].
  - tauto.
  - cbn [has_char] in H2. apply orb_false_iff in H2. destruct H2 as [H2 _].
    split; [|discriminate]. intros Hz. exfalso.
    assert (char_code c2 = 0%Z) as Hc by lia.
    apply Ascii.eqb_neq in H2. apply H2.
    rewrite <- (ascii_N_embedding c2). unfold char_code in Hc.
    replace (N_of_ascii c2) with 0%N by lia. reflexivity.
  - cbn [has_char] in H1. apply orb_false_iff in H1. destruct H1 as [H1 _].
    split; [|discriminate]. intros Hz. exfalso.
    apply Ascii.eqb_neq in H1. apply H1.
    rewrite <- (ascii_N_embedding c1). unfold char_code in Hz.
    replace (N_of_ascii c1) with 0%N by lia. reflexivity.
  - cbn [has_char] in H1, H2.
    apply orb_false_iff in H1. destruct H1 as [_ H1].
    apply orb_false_iff in H2. destruct H2 as [_ H2].
    destruct (Ascii.eqb c1 c2) eqn:E.
    + apply Ascii.eqb_eq in E. subst c2. rewrite (IH s2 H1 H2).
      split; [intros ->; reflexivity|intros [= ->]; reflexivity].
    + split.
      * intros Hz. exfalso. revert Hz. apply char_code_diff. exact E.
      * intros [= -> _]. rewrite Ascii.eqb_refl in E. discriminate.
Qed.

Lemma substring_prefix a b : substring 0 (length a) (a ++ b) = a.
Proof.
  induction a as [|c a IH]; simpl.
  - destruct b; reflexivity.
  - rewrite IH. reflexivity.
Qed.

Lemma substring_all a : substring 0 (length a) a = a.
Proof.
  induction a as [|c a IH]; simpl; [reflexivity|].
  rewrite IH. reflexivity.
Qed.

Lemma substring_skip a b n :
  substring (length a) n (a ++ b) = substring 0 n b.
Proof.
  induction a as [|c a IH]; simpl; [reflexivity|].
  exact IH.
Qed.

Lemma length_append a b : length (a ++ b) = (length a + length b)%nat.
Proof.
  induction a as [|c a IH]; simpl; [reflexivity|].
  rewrite IH. reflexivity.
Qed.

Lemma find_eq_name name v : forall n,
  has_char "=" name = false -> (length name < n)%nat ->
  find_eq (name ++ String "=" v) n = Some (length name).
Proof.
  induction name as [|c name IH]; intros n Hno Hn.
  - destruct n as [|n]; [cbn in Hn; lia|]. reflexivity.
  - destruct n as [|n]; [cbn in Hn; lia|].
    cbn [has_char] in Hno. apply orb_false_iff in Hno.
    destruct Hno as [Hc Hno].
    simpl. rewrite Hc.
    rewrite IH by (cbn in Hn; auto; lia). reflexivity.
Qed.

Lemma find_eq_none s : forall n,
  has_char "=" s = false -> find_eq s n = None.
Proof.
  induction s as [|c s IH]; intros n Hno; [destruct n; reflexivity|].
  destruct n as [|n]; [reflexivity|].
  cbn [has_char] in Hno. apply orb_false_iff in Hno. destruct Hno as [Hc Hno].
  cbn [find_eq]. rewrite Hc, IH by assumption. reflexivity.
Qed.

Lemma before_hash_none s : has_char "#" s = false -> before_hash s = s.
Proof.
  induction s as [|c s IH]; intros Hno; [reflexivity|].
  cbn [has_char] in Hno. apply orb_false_iff in Hno. destruct Hno as [Hc Hno].
  cbn [before_hash]. rewrite Hc, IH by assumption. reflexivity.
Qed.

Lemma before_hash_comment s c :
  has_char "#" s = false -> before_hash (s ++ String "#" c) = s.
Proof.
  induction s as [|d s IH]; intros Hno; [reflexivity|].
  cbn [has_char] in Hno. apply orb_false_iff in Hno. destruct Hno as [Hc Hno].
  simpl. rewrite Hc, IH by assumption. reflexivity.
Qed.

Lemma has_char_append c a b :
  has_char c (a ++ b) = has_char c a || has_char c b.
Proof.
  induction a as [|d a IH]; simpl; [reflexivity|].
  rewrite IH, orb_assoc. reflexivity.
Qed.

(** What [newnvpair] stores for a line [name=value] of fewer than
    [MAXLEN] characters: the name is what precedes the first ['='] and
    the value all that follows it. *)
Lemma newnvpair_pair head name value :
  has_char "=" name = false ->
  (length (name ++ String "=" value) <= MAXLEN)%nat ->
  newnvpair head (name ++ String "=" value) = Some ((name, value) :: head).
Proof.
  intros Hno Hlen. unfold newnvpair, strnlen.
  rewrite Nat.min_l by assumption.
  rewrite length_append in *. simpl length in *.
  rewrite find_eq_name by (assumption || lia).
  cbn [mbind option_bind]. rewrite substring_prefix.
  replace (length name + 1)%nat with (length (name ++ "=")%string)
    by (rewrite length_append; reflexivity).
  replace (name ++ String "=" value)%string with ((name ++ "=") ++ value)%string.
  2:{ clear. induction name as [|c name IH]; [reflexivity|].
      change ((String c name ++ "=") ++ value)
        with (String c ((name ++ "=") ++ value)).
      rewrite IH. reflexivity. }
  rewrite substring_skip.
  replace (length name + S (length value) - length (name ++ "="))%nat
    with (length value) by (rewrite length_append; cbn; lia).
  rewrite substring_all.
  replace (length name + S (length value) - length name - 1)%nat
    with (length value) by lia.
  rewrite substring_all. reflexivity.
Qed.

Lemma has_char_before_hash c s :
  has_char c s = false -> has_char c (before_hash s) = false.
Proof.
  induction s as [|d s IH]; intros Hno; [reflexivity|].
  simpl in Hno. apply orb_false_iff in Hno. destruct Hno as [Hd Hno].
  simpl. destruct (Ascii.eqb d "#"); [reflexivity|].
  simpl. rewrite Hd, IH by assumption. reflexivity.
Qed.

(** A line [name=value] defines [name]: whatever the list held, the
    value that [getvalue] returns for [name] afterwards is [value], and
    the other names keep their values.  The name is what precedes the
    first ['='], with any blank it contains; the value is all that
    follows, with any further ['='] and any blank. *)
Theorem process_defines head name value :
  has_char "=" name = false -> has_char "#" name = false ->
  has_char "#" value = false -> has_char "000" name = false ->
  (length (name ++ String "=" value) <= MAXLEN)%nat ->
  process head (name ++ String "=" value) = Some ((name, value) :: head) /\
  getvalue ((name, value) :: head) name = Some value /\
  (forall key, has_char "000" key = false -> key <> name ->
     getvalue ((name, value) :: head) key = getvalue head key).
Proof.
  intros He Hh Hv H0 Hlen. split; [|split].
  - assert (Hline : has_char "#" (name ++ String "=" value) = false).
    { rewrite has_char_append. simpl. rewrite Hh, Hv. reflexivity. }
    unfold process.
    destruct (name ++ String "=" value) as [|c r] eqn:El.
    { destruct name; discriminate. }
    simpl in Hline. apply orb_false_iff in Hline. destruct Hline as [Hc Hr].
    rewrite Hc. rewrite before_hash_none by (simpl; rewrite Hc, Hr; reflexivity).
    rewrite <- El in *. apply newnvpair_pair; assumption.
  - cbn [getvalue]. rewrite strcmp_refl. reflexivity.
  - intros key Hk Hne. cbn [getvalue].
    destruct (Z.eqb_spec (strcmp key name) 0) as [E|E]; [|reflexivity].
    apply strcmp_eq in E; [contradiction|assumption|assumption].
Qed.

Lemma process_defines_witness :
  process [("POP_INIT", "true")] "POP_INIT=false # later"
  = Some [("POP_INIT", "false "); ("POP_INIT", "true")] /\
  process [("POP_INIT", "true")] ("POP_INIT" ++ String "=" "false ")
  = Some [("POP_INIT", "false "); ("POP_INIT", "true")] /\
  getvalue [("POP_INIT", "false "); ("POP_INIT", "true")] "POP_INIT"
  = Some "false " /\
  (forall key, has_char "000" key = false -> key <> "POP_INIT" ->
     getvalue [("POP_INIT", "false "); ("POP_INIT", "true")] key
     = getvalue [("POP_INIT", "true")] key).
Proof.
  split; [reflexivity|].
  apply (process_defines [("POP_INIT", "true")] "POP_INIT" "false ");
    try reflexivity.
  vm_compute. lia.
Defined.

(** The lines that define nothing: an empty line and a line that starts
    with ['#'] are skipped; what follows the first ['#'] of another line
    is dropped before the line is read, the blanks before it staying in
    the value; and a line that then holds no ['='] ends the program. *)
Theorem process_skips head :
  process head "" = Some head /\
  (forall c, process head (String "#" c) = Some head) /\
  (forall body c,
     body <> "" -> has_char "#" body = false ->
     process head (body ++ String "#" c) = process head body) /\
  (forall line,
     line <> "" -> (forall c, line <> String "#" c) ->
     has_char "=" line = false -> process head line = None).
Proof.
  split; [reflexivity|]. split; [reflexivity|]. split.
  - intros body c Hne Hno. destruct body as [|d body]; [contradiction|].
    pose proof Hno as Hno'.
    simpl in Hno. apply orb_false_iff in Hno. destruct Hno as [Hd _].
    change (String d body ++ String "#" c)
      with (String d (body ++ String "#" c)).
    unfold process. rewrite Hd.
    change (String d (body ++ String "#" c))
      with (String d body ++ String "#" c).
    rewrite before_hash_comment, before_hash_none by assumption.
    reflexivity.
  - intros line Hne Hnh He. destruct line as [|d line]; [contradiction|].
    unfold process. destruct (Ascii.eqb d "#") eqn:Ed.
    { apply Ascii.eqb_eq in Ed. subst d. exfalso. apply (Hnh line).
      reflexivity. }
    unfold newnvpair. rewrite find_eq_none; [reflexivity|].
    apply has_char_before_hash. assumption.
Qed.

Lemma process_skips_witness :
  process [("a", "1")] "b=2 # two" = process [("a", "1")] "b=2 " /\
  process [("a", "1")] "b 2" = None.
Proof.
  split.
  - apply (proj1 (proj2 (proj2 (process_skips [("a", "1")]))) "b=2 " " two");
      [discriminate|reflexivity].
  - apply (proj2 (proj2 (proj2 (process_skips [("a", "1")]))) "b 2");
      [discriminate|intros c; discriminate|reflexivity].
Defined.

(** A boolean key that the configuration does not define is not given a
    default: [getvalue] returns [NULL] and [strncmp] reads through it.
    [constants_init] gets past the booleans exactly when the thirteen
    keys are all defined. *)
Theorem constants_init_bools_missing head :
  constants_init_bools head = None <->
  Exists (fun kf : string * (XCSF_bools -> bool) => getvalue head kf.1 = None)
         bool_keys.
Proof.
  unfold constants_init_bools, config_bool, bool_keys.
  split.
  - repeat match goal with
    | |- context [getvalue head ?k] =>
        let E := fresh "E" in
        destruct (getvalue head k) eqn:E; cbn [mbind option_bind];
          [|intros _; rewrite !Exists_cons; cbn [fst]; tauto]
    end.
    discriminate.
  - rewrite !Exists_cons, Exists_nil. cbn [fst].
    intros Hex.
    repeat match goal with
    | |- context [getvalue head ?k] =>
        let E := fresh "E" in
        destruct (getvalue head k) eqn:E; cbn [mbind option_bind];
          [|reflexivity]
    end.
    exfalso.
    repeat match goal with
    | H : _ \/ _ |- _ => destruct H as [H|H]; [discriminate|]
    end.
    contradiction.
Qed.

(** ** Reading the file

    The line buffer is the list of its cells; a string in it ends at the
    first cell that holds the character 0. *)
Local Open Scope list_scope.

Definition NUL : ascii := "000"%char.

(** [c == ' ' || c == '\t' || c == '\n' || c == '\r'] *)
Definition is_blank (c : ascii) : bool :=
  Ascii.eqb c " " || Ascii.eqb c "009" || Ascii.eqb c "010"
  || Ascii.eqb c "013".

(** [s[i] = c]: a fault outside the buffer. *)
Definition buf_set (s : list ascii) (i : nat) (c : ascii)
    : option (list ascii) :=
  if (i <? List.length s)%nat then Some (<[i := c]> s) else None.

(** [strnlen(s, n)] on a buffer: a fault when neither the character 0
    nor [n] characters are found inside the buffer. *)
Fixpoint buf_strnlen (s : list ascii) (n : nat) : option nat :=
  match n with
  | O => Some O
  | S n' =>
    match s with
    | [] => None
    | c :: s' =>
      if Ascii.eqb c NUL then Some O else S <$> buf_strnlen s' n'
    end
  end.

(** [while (s[i] is blank) i++;] *)
Fixpoint skip_blanks (fuel : nat) (s : list ascii) (i : nat) : option nat :=
  match fuel with
  | O => None
  | S fuel' =>
    c ← s !! i;
    if is_blank c then skip_blanks fuel' s (S i) else Some i
  end.

(** [while (j < strnlen(s, MAXLEN)) { s[j] = s[j + i]; j++; }] *)
Fixpoint shift_left (fuel : nat) (s : list ascii) (i j : nat)
    : option (list ascii * nat) :=
  match fuel with
  | O => None
  | S fuel' =>
    len ← buf_strnlen s MAXLEN;
    if (j <? len)%nat then
      c ← s !! (j + i)%nat;
      s ← buf_set s j c;
      shift_left fuel' s i (S j)
    else Some (s, j)
  end.

(** [size_t], taken to be 64 bits wide.  A value of that type is
    written as the offset it stands for: [0 - 1] is the offset [-1],
    whose value is [SIZE_MAX]. *)
Definition SIZE_MAX : Z := 2 ^ 64 - 1.

Definition size_t (z : Z) : Z := z mod (SIZE_MAX + 1).

(** The cells around the buffer.  [before] holds the cells that precede
    the buffer in memory, the nearest first: [s[i]] with an index that
    has wrapped around below 0 is one of them, [s[SIZE_MAX]] being the
    cell at [s - 1].  Further away than [before] reaches, nothing is
    mapped. *)
Definition mem_get (before s : list ascii) (i : Z) : option ascii :=
  if (i <? 0)%Z then before !! Z.to_nat (- i - 1) else s !! Z.to_nat i.

Definition mem_set (before s : list ascii) (i : Z) (c : ascii)
    : option (list ascii * list ascii) :=
  if (i <? 0)%Z then
    before ← buf_set before (Z.to_nat (- i - 1)) c; Some (before, s)
  else
    s ← buf_set s (Z.to_nat i) c; Some (before, s).

(** [while (s[i] is blank) i--;] with [i] a [size_t]: below 0 it wraps
    around and the loop goes on in the cells before the buffer. *)
Fixpoint skip_back (fuel : nat) (before s : list ascii) (i : Z)
    : option Z :=
  match fuel with
  | O => None
  | S fuel' =>
    c ← mem_get before s i;
    if is_blank c then skip_back fuel' before s (i - 1) else Some i
  end.

(** [trim], with the cells before the buffer, which it may read and
    write.  When the string is empty after the first part,
    [strnlen(s, MAXLEN) - 1] wraps around and [s[i]] is the cell before
    the buffer; the comparison [i < strnlen(s, MAXLEN) - 1] is one of
    [size_t] values. *)
Definition trim (before s : list ascii)
    : option (list ascii * list ascii) :=
  i ← skip_blanks (S (List.length s)) s 0;
  s ← (if (0 <? i)%nat then
         '(s, j) ← shift_left (S (List.length s)) s i 0;
         buf_set s j NUL
       else Some s);
  len ← buf_strnlen s MAXLEN;
  let last := Z.of_nat len - 1 in
  i ← skip_back (S (List.length before + List.length s)) before s last;
  if (size_t i <? size_t last)%Z then mem_set before s (i + 1) NUL
  else Some (before, s).

(** The string that a buffer holds. *)
Fixpoint cstring (s : list ascii) : string :=
  match s with
  | [] => EmptyString
  | c :: s' => if Ascii.eqb c NUL then EmptyString else String c (cstring s')
  end.

(** [fgets(buff, n, f)]: the characters read, at most [n - 1] and none
    after a newline, the rest of the file, and whether the end of the
    file was hit. *)
Fixpoint fgets_chars (n : nat) (f : list ascii)
    : list ascii * list ascii * bool :=
  match n with
  | O => ([], f, false)
  | S n' =>
    match f with
    | [] => ([], [], true)
    | c :: f' =>
      if Ascii.eqb c "010" then ([c], f', false)
      else let '(l, r, e) := fgets_chars n' f' in (c :: l, r, e)
    end
  end.

(** The buffer after [fgets], or [None] when it returns [NULL] because
    nothing was read. *)
Definition fgets (buff : list ascii) (n : nat) (f : list ascii)
    : option (list ascii) * list ascii * bool :=
  let '(l, r, e) := fgets_chars (n - 1) f in
  match l with
  | [] => (None, r, e)
  | _ => (Some (l ++ NUL :: drop (S (List.length l)) buff), r, e)
  end.

(** What [process] writes into the buffer: the character 0 over the
    first ['#'] of a line that is not empty and does not start with
    one. *)
Fixpoint cut_hash (s : list ascii) : list ascii :=
  match s with
  | [] => []
  | c :: s' =>
    if Ascii.eqb c NUL then s
    else if Ascii.eqb c "#" then NUL :: s'
    else c :: cut_hash s'
  end.

Definition process_buffer (buff : list ascii) : list ascii :=
  match buff with
  | c :: _ => if Ascii.eqb c "#" then buff else cut_hash buff
  | [] => buff
  end.

(** The loop of [init_config]:
    [while (!feof(f)) { if (fgets(...) == NULL) break; trim; process; }]
    The cells before the buffer lie in the frame of [init_config]; they
    change only by what [trim] writes there. *)
Fixpoint read_config (fuel : nat) (before buff : list ascii)
    (f : list ascii) (eof : bool) (head : PARAM_LIST)
    : option PARAM_LIST :=
  match fuel with
  | O => None
  | S fuel' =>
    if eof then Some head
    else
      let '(line, f, eof) := fgets buff (MAXLEN - 2) f in
      match line with
      | None => Some head
      | Some buff =>
        '(before, buff) ← trim before buff;
        head ← process head (cstring buff);
        read_config fuel' before (process_buffer buff) f eof head
      end
  end.

(** [init_config]: a file that cannot be opened ([None]) leaves the list
    as it was; otherwise the list is emptied and the lines are read into
    the stack buffer [buff] of [MAXLEN] cells, which has the cells
    [before] in front of it. *)
Definition init_config (file : option (list ascii))
    (before buff : list ascii) (head : PARAM_LIST) : option PARAM_LIST :=
  match file with
  | None => Some head
  | Some f => read_config (S (S (List.length f))) before buff f false []
  end.

(** Trimming as a function on the characters of a line. *)
Fixpoint drop_blanks (l : list ascii) : list ascii :=
  match l with
  | [] => []
  | c :: l' => if is_blank c then drop_blanks l' else l
  end.

Definition strip (l : list ascii) : list ascii :=
  rev (drop_blanks (rev (drop_blanks l))).

Lemma is_blank_NUL : is_blank NUL = false.
Proof. reflexivity. Qed.

Lemma buf_strnlen_nul (x junk : list ascii) : forall n,
  Forall (fun c => Ascii.eqb c NUL = false) x -> (List.length x <= n)%nat ->
  buf_strnlen (x ++ NUL :: junk) n = Some (List.length x).
Proof.
  induction x as [|c x IH]; intros n Hx Hn.
  - destruct n; reflexivity.
  - destruct n as [|n]; [cbn in Hn; lia|].
    apply Forall_cons in Hx. destruct Hx as [Hc Hx].
    cbn [app buf_strnlen]. rewrite Hc.
    rewrite IH by (assumption || (cbn in Hn; lia)). reflexivity.
Qed.

Lemma skip_blanks_spec (pre : list ascii) : forall done c rest fuel,
  Forall (fun c => is_blank c = true) pre -> is_blank c = false ->
  (List.length pre < fuel)%nat ->
  skip_blanks fuel (done ++ pre ++ c :: rest) (List.length done)
  = Some (List.length done + List.length pre)%nat.
Proof.
  induction pre as [|b pre IH]; intros done c rest fuel Hpre Hc Hfuel.
  - destruct fuel as [|fuel]; [lia|]. cbn [skip_blanks app].
    rewrite list_lookup_middle by reflexivity. cbn [mbind option_bind].
    rewrite Hc. f_equal. cbn. lia.
  - destruct fuel as [|fuel]; [lia|].
    apply Forall_cons in Hpre. destruct Hpre as [Hb Hpre].
    cbn [skip_blanks app].
    rewrite list_lookup_middle by reflexivity. cbn [mbind option_bind].
    rewrite Hb.
    specialize (IH (done ++ [b]) c rest fuel Hpre Hc).
    rewrite <- app_assoc, length_app in IH. cbn [app List.length] in IH.
    replace (S (List.length done)) with (List.length done + 1)%nat by lia.
    rewrite IH by (cbn in Hfuel; lia). f_equal. cbn. lia.
Qed.

Lemma buf_set_middle (a b : list ascii) (c d : ascii) :
  buf_set (a ++ c :: b) (List.length a) d = Some (a ++ d :: b).
Proof.
  unfold buf_set. rewrite length_app. cbn [List.length].
  destruct (Nat.ltb_spec (List.length a) (List.length a + S (List.length b)));
    [|lia].
  rewrite insert_app_r_alt by lia. rewrite Nat.sub_diag. reflexivity.
Qed.

(** The shifting loop, [|done|] characters into it: the characters
    [todo] still to move stand [|mid|] places to the right of where they
    go.  When it ends they have all moved, followed by the character 0
    that ended the string. *)
Lemma shift_left_spec (junk : list ascii) (todo : list ascii) :
  forall done mid fuel,
  mid <> [] ->
  Forall (fun c => Ascii.eqb c NUL = false) (done ++ mid ++ todo) ->
  (List.length (done ++ mid ++ todo) <= MAXLEN)%nat ->
  (S (List.length todo) < fuel)%nat ->
  exists tl,
    shift_left fuel (done ++ mid ++ todo ++ NUL :: junk)
      (List.length mid) (List.length done)
    = Some ((done ++ todo) ++ NUL :: tl, S (List.length (done ++ todo))) /\
    tl <> [] /\
    List.length ((done ++ todo) ++ NUL :: tl)
    = List.length (done ++ mid ++ todo ++ NUL :: junk).
Proof.
  induction todo as [|c todo IH]; intros done mid fuel Hmid Hnul Hlen Hfuel.
  - destruct fuel as [|[|fuel]]; [cbn in Hfuel; lia|cbn in Hfuel; lia|].
    destruct mid as [|m mid]; [contradiction|].
    rewrite !app_nil_r in *. cbn [app] in *.
    exists (mid ++ NUL :: junk).
    split; [|split; [destruct mid; discriminate|]].
    2:{ rewrite !length_app. cbn [List.length]. rewrite !length_app.
        cbn [List.length]. lia. }
    cbn [shift_left].
    replace (done ++ m :: mid ++ NUL :: junk)
      with ((done ++ m :: mid) ++ NUL :: junk)
      by (rewrite <- app_assoc; reflexivity).
    rewrite buf_strnlen_nul by assumption.
    cbn [mbind option_bind].
    rewrite (proj2 (Nat.ltb_lt _ _))
      by (rewrite length_app; cbn [List.length]; lia).
    replace (List.length done + List.length (m :: mid))%nat
      with (List.length (done ++ m :: mid))
      by (rewrite length_app; reflexivity).
    rewrite list_lookup_middle by reflexivity. cbn [mbind option_bind].
    rewrite <- app_assoc. cbn [app].
    rewrite buf_set_middle. cbn [mbind option_bind shift_left].
    rewrite buf_strnlen_nul.
    2:{ apply Forall_app in Hnul. tauto. }
    2:{ rewrite length_app in Hlen. lia. }
    cbn [mbind option_bind].
    rewrite (proj2 (Nat.ltb_ge _ _)) by lia.
    reflexivity.
  - destruct fuel as [|fuel]; [cbn in Hfuel; lia|].
    destruct mid as [|m mid]; [contradiction|].
    cbn [shift_left].
    replace (done ++ (m :: mid) ++ (c :: todo) ++ NUL :: junk)
      with ((done ++ (m :: mid) ++ c :: todo) ++ NUL :: junk)
      by (rewrite <- !app_assoc; reflexivity).
    rewrite buf_strnlen_nul by assumption.
    cbn [mbind option_bind].
    rewrite (proj2 (Nat.ltb_lt _ _))
      by (rewrite !length_app; cbn [List.length]; lia).
    replace ((done ++ (m :: mid) ++ c :: todo) ++ NUL :: junk)
      with ((done ++ m :: mid) ++ c :: todo ++ NUL :: junk)
      by (rewrite <- !app_assoc; reflexivity).
    replace (List.length done + List.length (m :: mid))%nat
      with (List.length (done ++ m :: mid))
      by (rewrite length_app; reflexivity).
    rewrite list_lookup_middle by reflexivity. cbn [mbind option_bind].
    rewrite <- app_assoc. cbn [app].
    rewrite buf_set_middle. cbn [mbind option_bind].
    destruct (IH (done ++ [c]) (mid ++ [c]) fuel) as (tl & E & Htl & Hl).
    { destruct mid; discriminate. }
    { apply Forall_app in Hnul. destruct Hnul as [Hd Hnul].
      apply Forall_app in Hnul. destruct Hnul as [Hm Ht].
      apply Forall_cons in Hm. destruct Hm as [_ Hm].
      apply Forall_cons in Ht. destruct Ht as [Hc Ht].
      repeat (apply Forall_app; split); try assumption;
        repeat constructor; assumption. }
    { rewrite !length_app. rewrite !length_app in Hlen.
      cbn [List.length] in *. lia. }
    { cbn in Hfuel. lia. }
    exists tl. split; [|split; [assumption|]].
    + rewrite <- !app_assoc in E. cbn [app] in E.
      rewrite !length_app in E. cbn [List.length] in E.
      replace (List.length mid + 1)%nat with (S (List.length mid)) in E
        by lia.
      replace (List.length done + 1)%nat with (S (List.length done)) in E
        by lia.
      cbn [List.length]. rewrite E. rewrite <- !app_assoc. cbn [app].
      rewrite !length_app. cbn [List.length]. reflexivity.
    + rewrite <- !app_assoc in Hl. cbn [app] in Hl.
      rewrite <- !app_assoc. cbn [app]. rewrite Hl.
      rewrite !length_app. cbn [List.length]. rewrite !length_app.
      cbn [List.length]. rewrite !length_app. cbn [List.length]. lia.
Qed.

Lemma size_t_small (z : Z) : 0 <= z <= SIZE_MAX -> size_t z = z.
Proof. intros Hz. unfold size_t. apply Z.mod_small. lia. Qed.

Lemma skip_back_spec (core : list ascii) (z : ascii) (post : list ascii) :
  forall rest fuel before,
  Forall (fun c => is_blank c = true) post -> is_blank z = false ->
  (List.length post < fuel)%nat ->
  skip_back fuel before (core ++ z :: post ++ rest)
    (Z.of_nat (List.length core + List.length post))
  = Some (Z.of_nat (List.length core)).
Proof.
  induction post as [|b post IH] using rev_ind;
    intros rest fuel before Hpost Hz Hfuel.
  - destruct fuel as [|fuel]; [cbn in Hfuel; lia|].
    cbn [app List.length skip_back]. rewrite Nat.add_0_r.
    unfold mem_get. rewrite (proj2 (Z.ltb_ge _ _)) by lia.
    rewrite Nat2Z.id, list_lookup_middle by reflexivity.
    cbn [mbind option_bind]. rewrite Hz. reflexivity.
  - destruct fuel as [|fuel]; [cbn in Hfuel; lia|].
    apply Forall_app in Hpost. destruct Hpost as [Hpost Hb].
    apply Forall_cons in Hb. destruct Hb as [Hb _].
    rewrite length_app in Hfuel |- *. cbn [List.length] in Hfuel |- *.
    cbn [skip_back]. unfold mem_get at 1.
    rewrite (proj2 (Z.ltb_ge _ _)) by lia. rewrite Nat2Z.id.
    replace (core ++ z :: (post ++ [b]) ++ rest)
      with ((core ++ z :: post) ++ b :: rest)
      by (rewrite <- !app_assoc; reflexivity).
    rewrite list_lookup_middle
      by (rewrite length_app; cbn [List.length]; lia).
    cbn [mbind option_bind]. rewrite Hb.
    replace ((core ++ z :: post) ++ b :: rest)
      with (core ++ z :: post ++ b :: rest)
      by (rewrite <- !app_assoc; reflexivity).
    replace (Z.of_nat (List.length core + (List.length post + 1)) - 1)
      with (Z.of_nat (List.length core + List.length post)) by lia.
    apply IH; [assumption|assumption|lia].
Qed.

Lemma cstring_nul (x junk : list ascii) :
  Forall (fun c => Ascii.eqb c NUL = false) x ->
  cstring (x ++ NUL :: junk) = string_of_list_ascii x.
Proof.
  induction 1 as [|c x Hc Hx IH]; [reflexivity|].
  cbn [app cstring string_of_list_ascii]. rewrite Hc, IH. reflexivity.
Qed.

Lemma blank_not_NUL c : is_blank c = true -> Ascii.eqb c NUL = false.
Proof.
  intros Hb. destruct (Ascii.eqb c NUL) eqn:E; [|reflexivity].
  apply Ascii.eqb_eq in E. subst c. discriminate.
Qed.

(** The second part of [trim], on a buffer that holds a string without
    leading blanks. *)
Lemma trim_back (before core : list ascii) (z : ascii)
    (post junk : list ascii) (fuel : nat) :
  Forall (fun c => Ascii.eqb c NUL = false) (core ++ [z]) ->
  Forall (fun c => is_blank c = true) post -> is_blank z = false ->
  (List.length (core ++ z :: post) <= MAXLEN)%nat ->
  (List.length post < fuel)%nat ->
  exists s',
    (len ← buf_strnlen (core ++ z :: post ++ NUL :: junk) MAXLEN;
     let last := Z.of_nat len - 1 in
     i ← skip_back fuel before (core ++ z :: post ++ NUL :: junk) last;
     if (size_t i <? size_t last)%Z
     then mem_set before (core ++ z :: post ++ NUL :: junk) (i + 1) NUL
     else Some (before, core ++ z :: post ++ NUL :: junk))
    = Some (before, s') /\
    cstring s' = string_of_list_ascii (core ++ [z]) /\
    List.length s' = List.length (core ++ z :: post ++ NUL :: junk).
Proof.
  intros Hnul Hpost Hz Hlen Hfuel.
  replace (core ++ z :: post ++ NUL :: junk)
    with ((core ++ z :: post) ++ NUL :: junk)
    by (rewrite <- app_assoc; reflexivity).
  rewrite buf_strnlen_nul.
  2:{ apply Forall_app in Hnul. destruct Hnul as [Hc Hzz].
      apply Forall_app. split; [assumption|].
      apply Forall_cons in Hzz. destruct Hzz as [Hzz _].
      constructor; [assumption|].
      apply (Forall_impl _ _ _ Hpost). apply blank_not_NUL. }
  2:{ assumption. }
  cbn [mbind option_bind]. cbv zeta.
  rewrite length_app in Hlen |- *. cbn [List.length] in Hlen |- *.
  replace (Z.of_nat (List.length core + S (List.length post)) - 1)
    with (Z.of_nat (List.length core + List.length post)) by lia.
  replace ((core ++ z :: post) ++ NUL :: junk)
    with (core ++ z :: post ++ NUL :: junk)
    by (rewrite <- app_assoc; reflexivity).
  rewrite skip_back_spec by assumption. cbn [mbind option_bind].
  assert (HM : Z.of_nat MAXLEN <= SIZE_MAX) by (vm_compute; discriminate).
  rewrite !size_t_small by lia.
  destruct post as [|b post].
  - rewrite (proj2 (Z.ltb_ge _ _)) by (cbn [List.length]; lia).
    eexists. split; [reflexivity|]. split; [|reflexivity].
    cbn [app].
    replace (core ++ z :: NUL :: junk) with ((core ++ [z]) ++ NUL :: junk)
      by (rewrite <- app_assoc; reflexivity).
    apply cstring_nul. assumption.
  - rewrite (proj2 (Z.ltb_lt _ _)) by (cbn [List.length]; lia).
    unfold mem_set. rewrite (proj2 (Z.ltb_ge _ _)) by lia.
    replace (core ++ z :: (b :: post) ++ NUL :: junk)
      with ((core ++ [z]) ++ b :: post ++ NUL :: junk)
      by (rewrite <- app_assoc; reflexivity).
    replace (Z.to_nat (Z.of_nat (List.length core) + 1))
      with (List.length (core ++ [z]))
      by (rewrite length_app; cbn [List.length]; lia).
    rewrite buf_set_middle. cbn [mbind option_bind].
    eexists. split; [reflexivity|]. split.
    + apply cstring_nul. assumption.
    + rewrite !length_app. cbn [List.length]. rewrite !length_app.
      cbn [List.length]. reflexivity.
Qed.

(** [trim] on a buffer that holds the line [pre ++ core ++ [z] ++ post],
    where [pre] and [post] are blanks and [core ++ [z]] starts and ends
    with a character that is not blank. *)
Lemma trim_line (before pre core : list ascii) (a z : ascii)
    (post junk : list ascii) :
  Forall (fun c => is_blank c = true) pre ->
  Forall (fun c => is_blank c = true) post ->
  Forall (fun c => Ascii.eqb c NUL = false) (core ++ [z]) ->
  (core ++ [z]) !! 0%nat = Some a -> is_blank a = false ->
  is_blank z = false ->
  (List.length (pre ++ core ++ z :: post) <= MAXLEN)%nat ->
  exists s',
    trim before (pre ++ core ++ z :: post ++ NUL :: junk)
    = Some (before, s') /\
    cstring s' = string_of_list_ascii (core ++ [z]) /\
    List.length s' = List.length (pre ++ core ++ z :: post ++ NUL :: junk).
Proof.
  intros Hpre Hpost Hnul Ha Hab Hz Hlen.
  unfold trim.
  assert (Hhead : exists tl0, core ++ z :: post ++ NUL :: junk = a :: tl0).
  { destruct core as [|c core]; cbn in Ha |- *; injection Ha as ->; eauto. }
  destruct Hhead as [tl0 Hhead].
  pose proof (skip_blanks_spec pre [] a tl0
                (S (List.length (pre ++ core ++ z :: post ++ NUL :: junk)))
                Hpre Hab) as Hskip.
  cbn [app List.length] in Hskip. rewrite <- Hhead in Hskip.
  rewrite Hskip by (rewrite !length_app; lia).
  cbn [mbind option_bind].
  assert (Hbody : Forall (fun c => Ascii.eqb c NUL = false)
                         (core ++ z :: post)).
  { apply Forall_app in Hnul. destruct Hnul as [Hc Hzz].
    apply Forall_app. split; [assumption|].
    apply Forall_cons in Hzz. destruct Hzz as [Hzz _].
    constructor; [assumption|].
    apply (Forall_impl _ _ _ Hpost). apply blank_not_NUL. }
  destruct pre as [|b pre].
  - cbn [List.length Nat.add Nat.ltb Nat.leb app mbind option_bind].
    cbn [app] in Hlen.
    apply trim_back; try assumption.
    rewrite !length_app. cbn [List.length]. rewrite !length_app.
    cbn [List.length]. lia.
  - rewrite (proj2 (Nat.ltb_lt _ _)) by (cbn [List.length]; lia).
    destruct (shift_left_spec junk (core ++ z :: post) [] (b :: pre)
                (S (List.length ((b :: pre) ++ core ++ z :: post
                                 ++ NUL :: junk))))
      as (tl & E & Htl & Hl).
    { discriminate. }
    { change (Forall (fun c => Ascii.eqb c NUL = false)
                     ((b :: pre) ++ core ++ z :: post)).
      apply Forall_app. split; [|assumption].
      apply (Forall_impl _ _ _ Hpre). apply blank_not_NUL. }
    { exact Hlen. }
    { rewrite !length_app. cbn [List.length]. rewrite !length_app.
      cbn [List.length]. lia. }
    cbn [app List.length] in E, Hl.
    rewrite <- app_assoc in E. cbn [app] in E.
    cbn [app List.length Nat.add]. rewrite E. cbn [mbind option_bind].
    destruct tl as [|t tl]; [contradiction|].
    replace (S (List.length (core ++ z :: post)))
      with (List.length ((core ++ z :: post) ++ [NUL]))
      by (rewrite length_app; cbn; lia).
    replace ((core ++ z :: post) ++ NUL :: t :: tl)
      with (((core ++ z :: post) ++ [NUL]) ++ t :: tl)
      by (rewrite <- !app_assoc; reflexivity).
    rewrite buf_set_middle. cbn [mbind option_bind].
    replace (((core ++ z :: post) ++ [NUL]) ++ NUL :: tl)
      with (core ++ z :: post ++ NUL :: NUL :: tl)
      by (rewrite <- !app_assoc; reflexivity).
    destruct (trim_back before core z post (NUL :: tl)
                (S (List.length before
                    + List.length (core ++ z :: post ++ NUL :: NUL :: tl)))
                Hnul Hpost Hz)
      as (s' & Es & Hc & Hls).
    { cbn [app List.length] in Hlen. rewrite length_app in Hlen. lia. }
    { rewrite !length_app. cbn [List.length]. rewrite !length_app.
      cbn [List.length]. lia. }
    exists s'. split; [exact Es|]. split; [exact Hc|].
    rewrite Hls. clear -Hl.
    repeat (rewrite ?length_app in *; cbn [List.length] in * ). lia.
Qed.

(** [trim] on a line of blanks only, the empty line included: the first
    part leaves the empty string, and the second part starts at the
    cell before the buffer. *)
Lemma trim_blank_line (before pre junk : list ascii) :
  Forall (fun c => is_blank c = true) pre ->
  (List.length pre <= MAXLEN)%nat ->
  exists tl,
    List.length (NUL :: tl) = List.length (pre ++ NUL :: junk) /\
    trim before (pre ++ NUL :: junk)
    = (i ← skip_back (S (List.length before + List.length (NUL :: tl)))
           before (NUL :: tl) (-1);
       if (size_t i <? size_t (-1))%Z
       then mem_set before (NUL :: tl) (i + 1) NUL
       else Some (before, NUL :: tl)).
Proof.
  intros Hpre Hlen. unfold trim.
  pose proof (skip_blanks_spec pre [] NUL junk
                (S (List.length (pre ++ NUL :: junk))) Hpre is_blank_NUL)
    as Hskip.
  cbn [app List.length] in Hskip.
  rewrite Hskip by (rewrite length_app; lia).
  cbn [mbind option_bind].
  destruct pre as [|b pre].
  - exists junk. split; reflexivity.
  - rewrite (proj2 (Nat.ltb_lt _ _)) by (cbn [List.length]; lia).
    destruct (shift_left_spec junk [] [] (b :: pre)
                (S (List.length ((b :: pre) ++ NUL :: junk))))
      as (tl & E & Htl & Hl).
    { discriminate. }
    { change (Forall (fun c => Ascii.eqb c NUL = false) ((b :: pre) ++ [])).
      rewrite app_nil_r.
      apply (Forall_impl _ _ _ Hpre). apply blank_not_NUL. }
    { change (List.length ((b :: pre) ++ []) <= MAXLEN)%nat.
      rewrite app_nil_r. assumption. }
    { cbn. lia. }
    cbn [app List.length] in E, Hl. cbn [app List.length Nat.add].
    rewrite E. cbn [mbind option_bind].
    destruct tl as [|t tl]; [contradiction|].
    exists (NUL :: tl). split.
    { cbn [List.length] in Hl |- *. lia. }
    reflexivity.
Qed.

Lemma drop_blanks_split (l : list ascii) :
  exists pre,
    l = pre ++ drop_blanks l /\ Forall (fun c => is_blank c = true) pre.
Proof.
  induction l as [|c l IH].
  - exists []. split; [reflexivity|constructor].
  - cbn [drop_blanks]. destruct (is_blank c) eqn:E.
    + destruct IH as (pre & H1 & H2). exists (c :: pre).
      split; [cbn [app]; f_equal; exact H1|constructor; assumption].
    + exists []. split; [reflexivity|constructor].
Qed.

Lemma drop_blanks_head (l : list ascii) :
  match drop_blanks l with
  | [] => True
  | a :: _ => is_blank a = false
  end.
Proof.
  induction l as [|c l IH]; cbn [drop_blanks]; [trivial|].
  destruct (is_blank c) eqn:E; [assumption|exact E].
Qed.

(** A line is blanks, its stripped part, and blanks; the stripped part,
    unless empty, starts and ends with a character that is not blank. *)
Lemma strip_split (l : list ascii) :
  exists pre post,
    l = pre ++ strip l ++ post /\
    Forall (fun c => is_blank c = true) pre /\
    Forall (fun c => is_blank c = true) post /\
    (strip l = [] \/
     exists core z a,
       strip l = core ++ [z] /\ is_blank z = false /\
       (core ++ [z]) !! 0%nat = Some a /\ is_blank a = false).
Proof.
  destruct (drop_blanks_split l) as (pre & Hl & Hpre).
  destruct (drop_blanks_split (rev (drop_blanks l))) as (post' & Hr & Hpost').
  pose proof (drop_blanks_head (rev (drop_blanks l))) as Hz.
  pose proof (drop_blanks_head l) as Ha.
  unfold strip.
  remember (drop_blanks (rev (drop_blanks l))) as m eqn:Em.
  assert (Hd : drop_blanks l = rev m ++ rev post').
  { rewrite <- (rev_involutive (drop_blanks l)), Hr, rev_app_distr.
    reflexivity. }
  exists pre, (rev post').
  split; [rewrite <- Hd; exact Hl|].
  split; [assumption|].
  split; [apply Forall_rev; assumption|].
  destruct m as [|z r]; [left; reflexivity|right].
  cbn [rev] in Hd |- *.
  destruct (rev r ++ [z]) as [|a t] eqn:E.
  { destruct (rev r); discriminate. }
  exists (rev r), z, a. rewrite E.
  split; [reflexivity|]. split; [assumption|].
  split; [reflexivity|].
  rewrite Hd in Ha. exact Ha.
Qed.

Lemma strip_blank (l : list ascii) (b : ascii) :
  is_blank b = true -> strip (l ++ [b]) = strip l.
Proof.
  intros Hb. unfold strip.
  assert (H : drop_blanks (l ++ [b]) = []
              /\ drop_blanks l = [] \/
              drop_blanks (l ++ [b]) = drop_blanks l ++ [b]).
  { induction l as [|c l IH].
    - left. cbn. rewrite Hb. split; reflexivity.
    - cbn [app drop_blanks]. destruct (is_blank c); [exact IH|].
      right. reflexivity. }
  destruct H as [[-> ->] | ->]; [reflexivity|].
  rewrite rev_app_distr. cbn [rev app drop_blanks]. rewrite Hb.
  reflexivity.
Qed.

Lemma trim_nonblank (before line junk : list ascii) :
  Forall (fun c => Ascii.eqb c NUL = false) line ->
  (List.length line <= MAXLEN)%nat ->
  strip line <> [] ->
  exists s',
    trim before (line ++ NUL :: junk) = Some (before, s') /\
    cstring s' = string_of_list_ascii (strip line) /\
    List.length s' = List.length (line ++ NUL :: junk).
Proof.
  intros Hnul Hlen Hne.
  destruct (strip_split line)
    as (pre & post & Hl & Hpre & Hpost & [E|(core & z & a & E & Hz & Ha & Hab)]);
    [contradiction|].
  rewrite E in Hl |- *. rewrite Hl. rewrite Hl in Hnul, Hlen.
  replace ((pre ++ (core ++ [z]) ++ post) ++ NUL :: junk)
    with (pre ++ core ++ z :: post ++ NUL :: junk)
    by (rewrite <- !app_assoc; reflexivity).
  apply (trim_line before pre core a z post junk); try assumption.
  - apply Forall_app in Hnul. destruct Hnul as [_ Hnul].
    apply Forall_app in Hnul. tauto.
  - rewrite <- !app_assoc in Hlen. exact Hlen.
Qed.

Lemma strip_nil_blank (line : list ascii) :
  strip line = [] -> Forall (fun c => is_blank c = true) line.
Proof.
  intros He.
  destruct (strip_split line) as (pre & post & Hl & Hpre & Hpost & _).
  rewrite He in Hl. cbn [app] in Hl.
  rewrite Hl. apply Forall_app. split; assumption.
Qed.

(** The backward loop in the cells before the buffer. *)
Lemma skip_back_before (pre : list ascii) (c : ascii) (rest s : list ascii) :
  forall done fuel,
  Forall (fun c => is_blank c = true) pre -> is_blank c = false ->
  (List.length pre < fuel)%nat ->
  skip_back fuel (done ++ pre ++ c :: rest) s
    (- 1 - Z.of_nat (List.length done))
  = Some (- 1 - Z.of_nat (List.length done + List.length pre)).
Proof.
  induction pre as [|b pre IH]; intros done fuel Hpre Hc Hfuel.
  - destruct fuel as [|fuel]; [cbn in Hfuel; lia|].
    cbn [app List.length skip_back]. unfold mem_get.
    rewrite (proj2 (Z.ltb_lt _ _)) by lia.
    replace (Z.to_nat (- (- 1 - Z.of_nat (List.length done)) - 1))
      with (List.length done) by lia.
    rewrite list_lookup_middle by reflexivity.
    cbn [mbind option_bind]. rewrite Hc, Nat.add_0_r. reflexivity.
  - destruct fuel as [|fuel]; [cbn in Hfuel; lia|].
    apply Forall_cons in Hpre. destruct Hpre as [Hb Hpre].
    cbn [skip_back]. unfold mem_get at 1.
    rewrite (proj2 (Z.ltb_lt _ _)) by lia.
    replace (Z.to_nat (- (- 1 - Z.of_nat (List.length done)) - 1))
      with (List.length done) by lia.
    change ((b :: pre) ++ c :: rest) with (b :: pre ++ c :: rest).
    rewrite list_lookup_middle by reflexivity.
    cbn [mbind option_bind]. rewrite Hb.
    specialize (IH (done ++ [b]) fuel Hpre Hc).
    rewrite <- app_assoc, length_app in IH. cbn [app List.length] in IH.
    replace (- 1 - Z.of_nat (List.length done) - 1)
      with (- 1 - Z.of_nat (List.length done + 1)) by lia.
    rewrite IH by (cbn in Hfuel; lia). f_equal. cbn [List.length]. lia.
Qed.

(** [trim] on a line of blanks only when nothing is mapped before the
    buffer. *)
Lemma trim_blank_unmapped (line junk : list ascii) :
  (List.length line <= MAXLEN)%nat ->
  strip line = [] ->
  trim [] (line ++ NUL :: junk) = None.
Proof.
  intros Hlen He.
  destruct (trim_blank_line [] line junk (strip_nil_blank line He) Hlen)
    as (tl & _ & ->).
  reflexivity.
Qed.

(** [trim] on a line of blanks only, when the cells before the buffer
    are the blanks [pre] and then a cell that is not blank: the loop
    stops at that cell, and the last blank it passed is overwritten. *)
Lemma trim_blank_cells (pre : list ascii) (c : ascii)
    (rest line junk : list ascii) :
  Forall (fun c => is_blank c = true) pre -> is_blank c = false ->
  Z.of_nat (List.length pre) <= SIZE_MAX ->
  (List.length line <= MAXLEN)%nat ->
  strip line = [] ->
  exists s',
    trim (pre ++ c :: rest) (line ++ NUL :: junk)
    = Some (match pre with
            | [] => pre ++ c :: rest
            | _ => <[(List.length pre - 1)%nat := NUL]> (pre ++ c :: rest)
            end, s') /\
    cstring s' = "" /\
    List.length s' = List.length (line ++ NUL :: junk).
Proof.
  intros Hpre Hc Hmax Hlen He.
  destruct (trim_blank_line (pre ++ c :: rest) line junk
              (strip_nil_blank line He) Hlen) as (tl & Hl & ->).
  rewrite (skip_back_before pre c rest (NUL :: tl) [] _ Hpre Hc)
    by (rewrite length_app; lia).
  cbn [mbind option_bind List.length Nat.add].
  exists (NUL :: tl). split; [|split; [reflexivity|exact Hl]].
  unfold size_t. change (SIZE_MAX + 1) with (2 ^ 64) in *.
  unfold SIZE_MAX in Hmax.
  change ((-1) mod 2 ^ 64) with (2 ^ 64 - 1).
  replace ((- 1 - Z.of_nat (List.length pre)) mod 2 ^ 64)
    with (2 ^ 64 - 1 - Z.of_nat (List.length pre)).
  2:{ apply (Z.mod_unique_pos _ _ (-1)); lia. }
  destruct pre as [|b pre].
  - rewrite (proj2 (Z.ltb_ge _ _)) by (cbn [List.length]; lia).
    reflexivity.
  - rewrite (proj2 (Z.ltb_lt _ _)) by (cbn [List.length]; lia).
    unfold mem_set, buf_set.
    rewrite (proj2 (Z.ltb_lt _ _)) by (cbn [List.length]; lia).
    replace (Z.to_nat (- (- 1 - Z.of_nat (List.length (b :: pre)) + 1) - 1))
      with (List.length (b :: pre) - 1)%nat by (cbn [List.length]; lia).
    rewrite (proj2 (Nat.ltb_lt _ _))
      by (rewrite length_app; cbn [List.length]; lia).
    reflexivity.
Qed.

Definition newline : ascii := "010"%char.

Lemma fgets_chars_line (l rest : list ascii) : forall n,
  Forall (fun c => Ascii.eqb c newline = false) l ->
  (List.length l < n)%nat ->
  fgets_chars n (l ++ newline :: rest) = (l ++ [newline], rest, false).
Proof.
  induction l as [|c l IH]; intros n Hl Hn.
  - destruct n as [|n]; [cbn in Hn; lia|]. reflexivity.
  - destruct n as [|n]; [cbn in Hn; lia|].
    apply Forall_cons in Hl. destruct Hl as [Hc Hl].
    cbn [app fgets_chars]. unfold newline in Hc. rewrite Hc.
    rewrite IH by (assumption || (cbn in Hn; lia)). reflexivity.
Qed.

Lemma cut_hash_length (s : list ascii) :
  List.length (cut_hash s) = List.length s.
Proof.
  induction s as [|c s IH]; [reflexivity|].
  cbn [cut_hash]. destruct (Ascii.eqb c NUL); [reflexivity|].
  destruct (Ascii.eqb c "#"); cbn [List.length]; congruence.
Qed.

Lemma process_buffer_length (s : list ascii) :
  List.length (process_buffer s) = List.length s.
Proof.
  destruct s as [|c s]; [reflexivity|].
  unfold process_buffer. destruct (Ascii.eqb c "#"); [reflexivity|].
  apply cut_hash_length.
Qed.

(** The lines of a text file, each one ended by a newline. *)
Definition file_of (lines : list (list ascii)) : list ascii :=
  List.concat (List.map (fun l => l ++ [newline]) lines).

(** A line that [fgets] reads whole and that holds more than blanks. *)
Definition plain_line (l : list ascii) : Prop :=
  Forall (fun c => Ascii.eqb c NUL = false /\ Ascii.eqb c newline = false) l
  /\ (List.length l + 1 < MAXLEN - 2)%nat.

Lemma fgets_line (buff l rest : list ascii) :
  plain_line l -> List.length buff = MAXLEN ->
  exists junk,
    fgets buff (MAXLEN - 2) (l ++ newline :: rest)
    = (Some ((l ++ [newline]) ++ NUL :: junk), rest, false) /\
    List.length ((l ++ [newline]) ++ NUL :: junk) = MAXLEN.
Proof.
  intros [Hl Hn] Hb. unfold fgets.
  rewrite fgets_chars_line.
  2:{ apply (Forall_impl _ _ _ Hl). tauto. }
  2:{ lia. }
  exists (drop (S (List.length (l ++ [newline]))) buff).
  split.
  - destruct (l ++ [newline]) eqn:E; [destruct l; discriminate|].
    reflexivity.
  - rewrite length_app. cbn [List.length]. rewrite length_drop.
    rewrite length_app in *. cbn [List.length] in *.
    unfold MAXLEN in *. lia.
Qed.

(** A line that [init_config] gets past: one that holds more than
    blanks, or any line when the cell before the buffer is not blank. *)
Definition line_ok (before l : list ascii) : Prop :=
  plain_line l /\
  (strip l <> [] \/
   exists c rest, before = c :: rest /\ is_blank c = false).

Lemma read_config_lines (lines : list (list ascii)) :
  forall fuel before buff head,
  Forall (line_ok before) lines ->
  List.length buff = MAXLEN ->
  (List.length lines < fuel)%nat ->
  read_config fuel before buff (file_of lines) false head
  = process_lines head
      (List.map (fun l => string_of_list_ascii (strip l)) lines).
Proof.
  induction lines as [|l lines IH]; intros fuel before buff head Hok Hb Hfuel.
  - destruct fuel as [|fuel]; [cbn in Hfuel; lia|]. reflexivity.
  - destruct fuel as [|fuel]; [cbn in Hfuel; lia|].
    pose proof Hok as Hall.
    apply Forall_cons in Hok. destruct Hok as [[Hl Hcase] Hok].
    unfold file_of. cbn [List.map List.concat]. fold (file_of lines).
    rewrite <- app_assoc. cbn [app read_config].
    destruct (fgets_line buff l (file_of lines) Hl Hb) as (junk & -> & Hj).
    assert (Hbound : (List.length (l ++ [newline]) <= MAXLEN)%nat).
    { destruct Hl as [_ Hl]. rewrite length_app. cbn [List.length].
      unfold MAXLEN in *. lia. }
    assert (Htrim : exists s',
               trim before ((l ++ [newline]) ++ NUL :: junk)
               = Some (before, s') /\
               cstring s' = string_of_list_ascii (strip l) /\
               List.length s' = MAXLEN).
    { destruct (strip l) as [|a t] eqn:E.
      - destruct Hcase as [Hne|(c & rest & -> & Hc)]; [contradiction|].
        destruct (trim_blank_cells [] c rest (l ++ [newline]) junk)
          as (s' & Es & Hc' & Hs);
          [constructor|assumption|vm_compute; discriminate|assumption
          |rewrite strip_blank by reflexivity; assumption|].
        exists s'. split; [exact Es|]. split; [exact Hc'|congruence].
      - destruct (trim_nonblank before (l ++ [newline]) junk)
          as (s' & Es & Hc' & Hs).
        { destruct Hl as [Hl _]. apply Forall_app. split.
          - apply (Forall_impl _ _ _ Hl). tauto.
          - repeat constructor. }
        { assumption. }
        { rewrite strip_blank, E by reflexivity. discriminate. }
        exists s'. split; [exact Es|].
        rewrite strip_blank, E in Hc' by reflexivity.
        split; [exact Hc'|congruence]. }
    destruct Htrim as (s' & -> & Hc & Hs).
    cbn [mbind option_bind process_lines]. rewrite Hc.
    destruct (process head (string_of_list_ascii (strip l))) as [head'|];
      [|reflexivity].
    cbn [mbind option_bind].
    apply IH; [assumption| |cbn in Hfuel; lia].
    rewrite process_buffer_length. assumption.
Qed.

Lemma file_of_length (lines : list (list ascii)) :
  (List.length lines <= List.length (file_of lines))%nat.
Proof.
  induction lines as [|l lines IH]; [cbn; lia|].
  unfold file_of in *. cbn [List.map List.concat List.length].
  rewrite !length_app. cbn [List.length]. lia.
Qed.

(** [trim] leaves in the buffer the line without the blanks at its two
    ends, and keeps the size of the buffer and the cells before it.  On
    a line of blanks only, the empty line included, the string is empty
    after the first part, [strnlen(s, MAXLEN) - 1] wraps around, and
    [s[i]] is read outside the buffer, in the cell before it: the call
    faults when nothing is mapped there, and returns with the empty
    string when that cell holds a character that is not blank. *)
Theorem trim_strips (before line junk : list ascii) :
  Forall (fun c => Ascii.eqb c NUL = false) line ->
  (List.length line <= MAXLEN)%nat ->
  (strip line <> [] ->
   exists s',
     trim before (line ++ NUL :: junk) = Some (before, s') /\
     cstring s' = string_of_list_ascii (strip line) /\
     List.length s' = List.length (line ++ NUL :: junk)) /\
  (strip line = [] ->
   trim [] (line ++ NUL :: junk) = None /\
   forall c rest,
     is_blank c = false ->
     exists s',
       trim (c :: rest) (line ++ NUL :: junk) = Some (c :: rest, s') /\
       cstring s' = "" /\
       List.length s' = List.length (line ++ NUL :: junk)).
Proof.
  intros Hnul Hlen. split.
  - apply trim_nonblank; assumption.
  - intros He. split; [apply trim_blank_unmapped; assumption|].
    intros c rest Hc.
    apply (trim_blank_cells [] c rest line junk);
      [constructor|assumption|vm_compute; discriminate|assumption
      |assumption].
Qed.

Lemma trim_strips_witness :
  (exists s',
     trim ["x"%char]
       (list_ascii_of_string "  POP_INIT = true  " ++ NUL :: [NUL; NUL])
     = Some (["x"%char], s') /\
     cstring s' = "POP_INIT = true" /\ List.length s' = 22%nat) /\
  trim [] (list_ascii_of_string "   " ++ NUL :: [NUL; NUL]) = None.
Proof.
  split.
  - apply (trim_strips ["x"%char]
             (list_ascii_of_string "  POP_INIT = true  ") [NUL; NUL]).
    + repeat constructor.
    + vm_compute. lia.
    + discriminate.
  - apply (trim_strips [] (list_ascii_of_string "   ") [NUL; NUL]).
    + repeat constructor.
    + vm_compute. lia.
    + reflexivity.
Defined.

(** On a line of blanks only, when the cell before the buffer holds a
    blank too, [trim] goes on backwards through the blanks that precede
    the buffer, stops at the first cell that is not blank, and writes
    the character 0 over the blank next to it, outside the buffer. *)
Theorem trim_blank_writes_before (b : ascii) (pre : list ascii) (c : ascii)
    (rest line junk : list ascii) :
  Forall (fun c => is_blank c = true) (b :: pre) -> is_blank c = false ->
  Z.of_nat (List.length (b :: pre)) <= SIZE_MAX ->
  (List.length line <= MAXLEN)%nat ->
  strip line = [] ->
  exists s',
    trim ((b :: pre) ++ c :: rest) (line ++ NUL :: junk)
    = Some (<[List.length pre := NUL]> ((b :: pre) ++ c :: rest), s') /\
    cstring s' = "" /\
    List.length s' = List.length (line ++ NUL :: junk).
Proof.
  intros Hpre Hc Hmax Hlen He.
  destruct (trim_blank_cells (b :: pre) c rest line junk Hpre Hc Hmax Hlen He)
    as (s' & Es & Hs).
  exists s'. split; [|exact Hs].
  rewrite Es. cbn [List.length Nat.sub]. rewrite ?Nat.sub_0_r. reflexivity.
Qed.

Lemma trim_blank_writes_before_witness :
  exists s',
    trim (list_ascii_of_string "  x") (list_ascii_of_string " " ++ NUL :: [NUL])
    = Some (list_ascii_of_string " " ++ [NUL; "x"%char], s') /\
    cstring s' = "" /\ List.length s' = 3%nat.
Proof.
  apply (trim_blank_writes_before " " [" "%char] "x" []
           (list_ascii_of_string " ") [NUL]).
  - repeat constructor.
  - reflexivity.
  - vm_compute. discriminate.
  - vm_compute. lia.
  - reflexivity.
Defined.

(** Reading a file whose lines are ended by a newline, are short enough
    for [fgets] to read whole, and hold more than blanks: [init_config]
    drops what the list held and gives each line, without the blanks at
    its two ends, to [process], in the order of the file.  It exits
    where [process] does. *)
Theorem init_config_lines (lines : list (list ascii))
    (before buff : list ascii) (head : PARAM_LIST) :
  Forall (fun l => plain_line l /\ strip l <> []) lines ->
  List.length buff = MAXLEN ->
  init_config (Some (file_of lines)) before buff head
  = process_lines []
      (List.map (fun l => string_of_list_ascii (strip l)) lines).
Proof.
  intros Hok Hb. unfold init_config.
  apply read_config_lines; [|assumption|].
  - apply (Forall_impl _ _ _ Hok). intros l [Hl Hne].
    split; [assumption|left; assumption].
  - pose proof (file_of_length lines). lia.
Qed.

Definition file_lines : list (list ascii) :=
  [list_ascii_of_string "# parameters";
   list_ascii_of_string "  POP_INIT=true # initial population";
   list_ascii_of_string "MAX_TRIALS=100  "].

Lemma init_config_lines_witness :
  init_config (Some (file_of file_lines)) [] (repeat "x"%char MAXLEN)
    [("OLD", "1")]
  = Some [("MAX_TRIALS", "100"); ("POP_INIT", "true ")].
Proof.
  rewrite (init_config_lines file_lines [] (repeat "x"%char MAXLEN)
             [("OLD", "1")]).
  - reflexivity.
  - repeat constructor; try (vm_compute; lia); discriminate.
  - reflexivity.
Defined.

(** Lines of blanks only, the empty line included, in a file: when the
    cell before the line buffer holds a character that is not blank,
    [trim] returns from its read of that cell with the empty string,
    [process] ignores it, and [init_config] reads the file to its end;
    the list is the one that the other lines give. *)
Theorem init_config_blank_line (lines : list (list ascii)) (c : ascii)
    (rest buff : list ascii) (head : PARAM_LIST) :
  Forall plain_line lines -> is_blank c = false ->
  List.length buff = MAXLEN ->
  init_config (Some (file_of lines)) (c :: rest) buff head
  = process_lines []
      (List.map (fun l => string_of_list_ascii (strip l))
         (List.filter (fun l => negb (Nat.eqb (List.length (strip l)) 0))
            lines)).
Proof.
  intros Hok Hc Hb. unfold init_config.
  rewrite read_config_lines; [|
    apply (Forall_impl _ _ _ Hok); intros l Hl;
      split; [assumption|right; eauto]
    |assumption|pose proof (file_of_length lines); lia].
  generalize (@nil (string * string)). clear.
  induction lines as [|l lines IH]; intros head; [reflexivity|].
  cbn [List.map List.filter process_lines].
  destruct (strip l) as [|a t] eqn:E.
  - cbn [List.length Nat.eqb negb string_of_list_ascii process mbind
         option_bind]. apply IH.
  - cbn [List.length Nat.eqb negb List.map process_lines]. rewrite E.
    destruct (process head (string_of_list_ascii (a :: t))); [|reflexivity].
    cbn [mbind option_bind]. apply IH.
Qed.

Definition blank_lines : list (list ascii) :=
  [list_ascii_of_string "POP_INIT=true"; [];
   list_ascii_of_string "   ";
   list_ascii_of_string "MAX_TRIALS=100"].

Lemma init_config_blank_line_witness :
  init_config (Some (file_of blank_lines)) ["x"%char]
    (repeat "x"%char MAXLEN) []
  = Some [("MAX_TRIALS", "100"); ("POP_INIT", "true")].
Proof.
  rewrite (init_config_blank_line blank_lines "x" []
             (repeat "x"%char MAXLEN) []).
  - reflexivity.
  - repeat constructor; vm_compute; lia.
  - reflexivity.
  - reflexivity.
Defined.

End Config.

Module LayerArgs.

(** The fields of [struct ArgsLayer] that validation reads or writes; the
    chain linked by [next] is the list of its nodes. *)
Record ArgsLayer := {
  type : Z;
  n_inputs : Z;
  n_init : Z;
  n_max : Z;
  max_neuron_grow : Z;
  height : Z;
  width : Z;
  channels : Z;
  evolve_neurons : bool
}.

(** The layer kinds of neural_layer.h are not part of the sources: the
    two kind tags that validation names and [layer_receives_images] are
    parameters. *)
Class LayerKinds := {
  DROPOUT : Z;
  NOISE : Z;
  layer_receives_images : Z -> bool
}.

(** The messages printed before [exit(EXIT_FAILURE)]. *)
Inductive error : Type :=
  | empty_list
  | input_channels
  | input_height
  | input_width
  | number_of_inputs
  | neuron_grow.

(** The product of two [int]s as a 32-bit machine computes it. *)
Definition int_mul (a b : Z) : Z :=
  (a * b + 2 ^ 31) mod 2 ^ 32 - 2 ^ 31.

Definition set_inputs (arg : ArgsLayer) (n c hh w : Z) : ArgsLayer :=
  {| type := type arg; n_inputs := n; n_init := n_init arg;
     n_max := n_max arg; max_neuron_grow := max_neuron_grow arg;
     height := hh; width := w; channels := c;
     evolve_neurons := evolve_neurons arg |}.

Definition set_n_max (arg : ArgsLayer) (m : Z) : ArgsLayer :=
  {| type := type arg; n_inputs := n_inputs arg; n_init := n_init arg;
     n_max := m; max_neuron_grow := max_neuron_grow arg;
     height := height arg; width := width arg; channels := channels arg;
     evolve_neurons := evolve_neurons arg |}.

(** [layer_args_validate_inputs] *)
Definition layer_args_validate_inputs `{LayerKinds} (arg : ArgsLayer)
    : error + ArgsLayer :=
  let arg :=
    if (type arg =? DROPOUT) || (type arg =? NOISE) then
      if n_inputs arg <? 1 then
        set_inputs arg
          (int_mul (int_mul (channels arg) (height arg)) (width arg))
          (channels arg) (height arg) (width arg)
      else if (channels arg <? 1) || (height arg <? 1) || (width arg <? 1)
      then set_inputs arg (n_inputs arg) 1 1 (n_inputs arg)
      else arg
    else arg in
  if layer_receives_images (type arg) then
    if channels arg <? 1 then inl input_channels
    else if height arg <? 1 then inl input_height
    else if width arg <? 1 then inl input_width
    else inr arg
  else if n_inputs arg <? 1 then inl number_of_inputs
  else inr arg.

(** The [do ... while (arg != NULL)] loop of [layer_args_validate]. *)
Fixpoint validate_nodes (args : list ArgsLayer)
    : error + list ArgsLayer :=
  match args with
  | [] => inr []
  | arg :: rest =>
    if evolve_neurons arg && (max_neuron_grow arg <? 1) then inl neuron_grow
    else
      let arg := if n_max arg <? n_init arg then set_n_max arg (n_init arg)
                 else arg in
      match validate_nodes rest with
      | inl e => inl e
      | inr rest' => inr (arg :: rest')
      end
  end.

(** [layer_args_validate] *)
Definition layer_args_validate `{LayerKinds} (args : list ArgsLayer)
    : error + list ArgsLayer :=
  match args with
  | [] => inl empty_list
  | arg :: rest =>
    match layer_args_validate_inputs arg with
    | inl e => inl e
    | inr arg => validate_nodes (arg :: rest)
    end
  end.

Section Validate.
Context `{LayerKinds}.

(** A node that makes validation fail: it evolves neurons and cannot
    grow any. *)
Definition cannot_grow (a : ArgsLayer) : Prop :=
  evolve_neurons a = true /\ max_neuron_grow a < 1.

(** What validation does to the bounds of a node that passes. *)
Definition raised (a a' : ArgsLayer) : Prop :=
  n_max a' = Z.max (n_max a) (n_init a) /\ n_init a' = n_init a.

Lemma layer_args_validate_inputs_keeps a a' :
  layer_args_validate_inputs a = inr a' ->
  n_max a' = n_max a /\ n_init a' = n_init a /\
  evolve_neurons a' = evolve_neurons a /\
  max_neuron_grow a' = max_neuron_grow a.
Proof.
  unfold layer_args_validate_inputs.
  repeat match goal with
  | |- context [if ?b then _ else _] => destruct b
  end; intros [= <-]; cbn; auto.
Qed.

Lemma validate_nodes_ok args : forall args',
  validate_nodes args = inr args' ->
  Forall (fun a => n_init a <= n_max a) args' /\ Forall2 raised args args'.
Proof.
  induction args as [|a args IH]; intros args'; cbn [validate_nodes].
  - intros [= <-]. split; constructor.
  - destruct (evolve_neurons a && (max_neuron_grow a <? 1)); [discriminate|].
    destruct (validate_nodes args) as [e|rest']; [discriminate|].
    intros [= <-]. destruct (IH rest' eq_refl) as [Hb Hr].
    destruct (Z.ltb_spec (n_max a) (n_init a)).
    + split; constructor; try assumption; [cbn; lia|].
      unfold raised. cbn. lia.
    + split; constructor; try assumption. unfold raised. lia.
Qed.

Lemma validate_nodes_error args : forall e,
  validate_nodes args = inl e <-> e = neuron_grow /\ Exists cannot_grow args.
Proof.
  induction args as [|a args IH]; intros e; cbn [validate_nodes].
  - split; [discriminate|]. intros [_ Hex]. inversion Hex.
  - assert (Hrest : (match validate_nodes args with
                     | inl e0 => inl e0
                     | inr rest' =>
                       inr ((if n_max a <? n_init a
                             then set_n_max a (n_init a) else a) :: rest')
                     end = inl e) <-> e = neuron_grow /\ Exists cannot_grow args).
    { rewrite <- IH. destruct (validate_nodes args); split; congruence. }
    destruct (evolve_neurons a) eqn:Ee; cbn [andb].
    + destruct (Z.ltb_spec (max_neuron_grow a) 1) as [Hlt|Hge].
      * split.
        -- intros [= <-]. split; [reflexivity|]. left. split; assumption.
        -- intros [-> _]. reflexivity.
      * rewrite Hrest. split.
        -- intros [-> Hex]. split; [reflexivity|]. right. exact Hex.
        -- intros [-> Hex]. split; [reflexivity|].
           apply Exists_cons in Hex. destruct Hex as [[_ Hlt]|Hex]; [lia|].
           exact Hex.
    + rewrite Hrest. split.
      * intros [-> Hex]. split; [reflexivity|]. right. exact Hex.
      * intros [-> Hex]. split; [reflexivity|].
        apply Exists_cons in Hex.
        destruct Hex as [[Hev _]|Hex]; [congruence|]. exact Hex.
Qed.

(** C9. [layer_args_validate] has no error for a node with
    [n_max < n_init]: every error it reports is the empty list, an error
    of the first node's input shape, or a node that evolves neurons with
    [max_neuron_grow < 1], and the last two kinds of node and the empty
    list always end in an error.  When validation passes, each node keeps
    [n_init], its [n_max] is the larger of its [n_max] and [n_init], and
    so every node of the chain has [n_max >= n_init]. *)
Theorem layer_args_validate_raises_n_max :
  layer_args_validate [] = inl empty_list /\
  (forall args,
     Exists cannot_grow args -> exists e, layer_args_validate args = inl e) /\
  (forall args args',
     layer_args_validate args = inr args' ->
     Forall (fun a => n_init a <= n_max a) args' /\
     Forall2 raised args args') /\
  (forall args e,
     layer_args_validate args = inl e ->
     (args = [] /\ e = empty_list) \/
     (exists a rest,
        args = a :: rest /\ layer_args_validate_inputs a = inl e) \/
     (e = neuron_grow /\ Exists cannot_grow args)) /\
  (forall a a' rest,
     layer_args_validate_inputs a = inr a' ->
     ~ Exists cannot_grow (a :: rest) ->
     exists args', layer_args_validate (a :: rest) = inr args').
Proof.
  split; [reflexivity|]. split; [|split; [|split]].
  - intros [|a rest] Hex; [inversion Hex|]. cbn [layer_args_validate].
    destruct (layer_args_validate_inputs a) as [e|a'] eqn:Ei; [eauto|].
    exists neuron_grow. apply validate_nodes_error. split; [reflexivity|].
    destruct (layer_args_validate_inputs_keeps _ _ Ei) as (_ & _ & He & Hg).
    apply Exists_cons in Hex. destruct Hex as [[H1 H2]|Hex].
    + left. split; congruence.
    + right. exact Hex.
  - intros [|a rest] args'; [discriminate|]. cbn [layer_args_validate].
    destruct (layer_args_validate_inputs a) as [e|a'] eqn:Ei; [discriminate|].
    intros Hv. apply validate_nodes_ok in Hv. destruct Hv as [Hb Hr].
    split; [exact Hb|].
    destruct (layer_args_validate_inputs_keeps _ _ Ei) as (Hm & Hi & _).
    inversion Hr as [|? b ? bs [R1 R2] Hrest]; subst.
    constructor; [|assumption]. unfold raised. rewrite R1, R2, Hm, Hi. auto.
  - intros [|a rest] e; cbn [layer_args_validate].
    + intros [= <-]. left. auto.
    + destruct (layer_args_validate_inputs a) as [e'|a'] eqn:Ei.
      * intros [= <-]. right. left. eauto.
      * intros Hv. apply validate_nodes_error in Hv. destruct Hv as [-> Hex].
        right. right. split; [reflexivity|].
        destruct (layer_args_validate_inputs_keeps _ _ Ei) as (_ & _ & He & Hg).
        apply Exists_cons in Hex. destruct Hex as [[H1 H2]|Hex].
        -- left. split; congruence.
        -- right. exact Hex.
  - intros a a' rest Ei Hno. cbn [layer_args_validate]. rewrite Ei.
    destruct (validate_nodes (a' :: rest)) as [e|args'] eqn:Ev; [|eauto].
    exfalso. apply validate_nodes_error in Ev. destruct Ev as [_ Hex].
    apply Hno.
    destruct (layer_args_validate_inputs_keeps _ _ Ei) as (_ & _ & He & Hg).
    apply Exists_cons in Hex. destruct Hex as [[H1 H2]|Hex].
    + left. split; congruence.
    + right. exact Hex.
Qed.

End Validate.

(** The layer kinds of the upstream headers, for the examples. *)
#[export] Instance upstream_kinds : LayerKinds :=
  {| DROPOUT := 1; NOISE := 2;
     layer_receives_images := fun t => (t =? 6) || (t =? 7) || (t =? 8)
                                       || (t =? 9) |}.

(** A connected layer of ten neurons whose [n_max] was left at zero. *)
Definition args_small_max : ArgsLayer :=
  {| type := 0; n_inputs := 4; n_init := 10; n_max := 0;
     max_neuron_grow := 0; height := 0; width := 0; channels := 0;
     evolve_neurons := false |}.

Example layer_args_validate_small_max :
  layer_args_validate [args_small_max]
  = inr [set_n_max args_small_max 10].
Proof. reflexivity. Qed.

(** ** Validation twice *)

Section Idempotent.
Context `{LayerKinds}.

Lemma int_mul_0_r a : int_mul a 0 = 0.
Proof. unfold int_mul. rewrite Z.mul_0_r. reflexivity. Qed.

Lemma int_mul_0_l a : int_mul 0 a = 0.
Proof. unfold int_mul. reflexivity. Qed.

Lemma validate_nodes_idempotent args : forall args',
  validate_nodes args = inr args' -> validate_nodes args' = inr args'.
Proof.
  induction args as [|a args IH]; intros args'; cbn [validate_nodes].
  - intros [= <-]. reflexivity.
  - destruct (evolve_neurons a && (max_neuron_grow a <? 1)) eqn:Eg;
      [discriminate|].
    destruct (validate_nodes args) as [e|rest'] eqn:Er; [discriminate|].
    intros [= <-]. cbn [validate_nodes].
    rewrite (IH rest' eq_refl).
    destruct (Z.ltb_spec (n_max a) (n_init a)).
    + cbn [evolve_neurons max_neuron_grow n_max n_init set_n_max].
      rewrite Eg, Z.ltb_irrefl. reflexivity.
    + rewrite Eg. destruct (Z.ltb_spec (n_max a) (n_init a)); [lia|].
      reflexivity.
Qed.

(** The two halves of [layer_args_validate_inputs]: the shape or the
    number of inputs derived for a dropout or noise layer, and the
    checks. *)
Definition derive_inputs (arg : ArgsLayer) : ArgsLayer :=
  if (type arg =? DROPOUT) || (type arg =? NOISE) then
    if n_inputs arg <? 1 then
      set_inputs arg
        (int_mul (int_mul (channels arg) (height arg)) (width arg))
        (channels arg) (height arg) (width arg)
    else if (channels arg <? 1) || (height arg <? 1) || (width arg <? 1)
    then set_inputs arg (n_inputs arg) 1 1 (n_inputs arg)
    else arg
  else arg.

Definition check_inputs (arg : ArgsLayer) : error + ArgsLayer :=
  if layer_receives_images (type arg) then
    if channels arg <? 1 then inl input_channels
    else if height arg <? 1 then inl input_height
    else if width arg <? 1 then inl input_width
    else inr arg
  else if n_inputs arg <? 1 then inl number_of_inputs
  else inr arg.

Lemma layer_args_validate_inputs_split a :
  layer_args_validate_inputs a = check_inputs (derive_inputs a).
Proof. reflexivity. Qed.

Lemma check_inputs_inr a a' :
  check_inputs a = inr a' ->
  a' = a /\
  (if layer_receives_images (type a)
   then 1 <= channels a /\ 1 <= height a /\ 1 <= width a
   else 1 <= n_inputs a).
Proof.
  unfold check_inputs. destruct (layer_receives_images (type a)).
  - destruct (Z.ltb_spec (channels a) 1); [discriminate|].
    destruct (Z.ltb_spec (height a) 1); [discriminate|].
    destruct (Z.ltb_spec (width a) 1); [discriminate|].
    intros [= <-]. auto.
  - destruct (Z.ltb_spec (n_inputs a) 1); [discriminate|].
    intros [= <-]. auto.
Qed.

Lemma derive_inputs_idempotent a a' :
  0 <= channels a -> 0 <= height a -> 0 <= width a ->
  check_inputs (derive_inputs a) = inr a' ->
  derive_inputs (derive_inputs a) = derive_inputs a.
Proof.
  intros Hc Hh Hw Hv. apply check_inputs_inr in Hv. destruct Hv as [_ Hv].
  remember (derive_inputs a) as d eqn:Ed.
  unfold derive_inputs in Ed.
  destruct ((type a =? DROPOUT) || (type a =? NOISE)) eqn:Et.
  2:{ subst d. unfold derive_inputs. rewrite Et. reflexivity. }
  destruct (Z.ltb_spec (n_inputs a) 1) as [Hn|Hn].
  - set (m := int_mul (int_mul (channels a) (height a)) (width a)) in *.
    subst d. cbn [type channels height width n_inputs set_inputs] in Hv.
    unfold derive_inputs.
    cbn [type channels height width n_inputs set_inputs]. rewrite Et.
    fold m.
    destruct (Z.ltb_spec m 1) as [Hm|Hm]; [reflexivity|].
    assert (Hdims : 1 <= channels a /\ 1 <= height a /\ 1 <= width a).
    { destruct (layer_receives_images (type a)); [exact Hv|].
      unfold m in Hm.
      destruct (Z.eq_dec (channels a) 0) as [E|E];
        [rewrite E, !int_mul_0_l in Hm; lia|].
      destruct (Z.eq_dec (height a) 0) as [E'|E'];
        [rewrite E', int_mul_0_r, int_mul_0_l in Hm; lia|].
      destruct (Z.eq_dec (width a) 0) as [E''|E''];
        [rewrite E'', int_mul_0_r in Hm; lia|].
      lia. }
    destruct Hdims as (H1 & H2 & H3).
    destruct (Z.ltb_spec (channels a) 1); [lia|].
    destruct (Z.ltb_spec (height a) 1); [lia|].
    destruct (Z.ltb_spec (width a) 1); [lia|]. reflexivity.
  - destruct ((channels a <? 1) || (height a <? 1) || (width a <? 1)) eqn:Edim.
    + subst d. unfold derive_inputs.
      cbn [type channels height width n_inputs set_inputs]. rewrite Et.
      destruct (Z.ltb_spec (n_inputs a) 1); [lia|].
      change (1 <? 1) with false. cbn [orb]. reflexivity.
    + subst d. unfold derive_inputs. rewrite Et, Edim.
      destruct (Z.ltb_spec (n_inputs a) 1); [lia|]. reflexivity.
Qed.

Lemma derive_inputs_set_n_max a m :
  derive_inputs (set_n_max a m) = set_n_max (derive_inputs a) m.
Proof.
  unfold derive_inputs.
  cbn [type channels height width n_inputs set_n_max].
  repeat match goal with
  | |- context [if ?b then _ else _] => destruct b
  end; reflexivity.
Qed.

Lemma check_inputs_set_n_max a m :
  check_inputs a = inr a -> check_inputs (set_n_max a m) = inr (set_n_max a m).
Proof.
  unfold check_inputs.
  cbn [type channels height width n_inputs set_n_max].
  repeat match goal with
  | |- context [if ?b then _ else _] => destruct b
  end; intros [= ]; reflexivity.
Qed.

Lemma layer_args_validate_inputs_idempotent a a' :
  0 <= channels a -> 0 <= height a -> 0 <= width a ->
  layer_args_validate_inputs a = inr a' ->
  layer_args_validate_inputs a' = inr a'.
Proof.
  intros Hc Hh Hw Hv. rewrite layer_args_validate_inputs_split in *.
  pose proof (derive_inputs_idempotent a a' Hc Hh Hw Hv) as Hd.
  pose proof (check_inputs_inr _ _ Hv) as [-> _].
  rewrite Hd. exact Hv.
Qed.

(** Validating a list that has passed validation changes nothing and
    passes again, when the image shape given for the first node has no
    negative dimension.  (With a negative dimension a second pass may
    rewrite the shape that the first pass accepted.) *)
Theorem layer_args_validate_idempotent a rest args' :
  0 <= channels a -> 0 <= height a -> 0 <= width a ->
  layer_args_validate (a :: rest) = inr args' ->
  layer_args_validate args' = inr args'.
Proof.
  intros Hc Hh Hw. cbn [layer_args_validate].
  destruct (layer_args_validate_inputs a) as [e|a1] eqn:Ei; [discriminate|].
  intros Hv. pose proof (validate_nodes_idempotent _ _ Hv) as Hidem.
  cbn [validate_nodes] in Hv.
  destruct (evolve_neurons a1 && (max_neuron_grow a1 <? 1)); [discriminate|].
  destruct (validate_nodes rest) as [e|rest']; [discriminate|].
  injection Hv as <-. cbn [layer_args_validate].
  pose proof (layer_args_validate_inputs_idempotent a a1 Hc Hh Hw Ei) as Ei1.
  assert (Ei2 : layer_args_validate_inputs
                  (if n_max a1 <? n_init a1 then set_n_max a1 (n_init a1)
                   else a1)
                = inr (if n_max a1 <? n_init a1 then set_n_max a1 (n_init a1)
                       else a1)).
  { destruct (n_max a1 <? n_init a1); [|exact Ei1].
    rewrite layer_args_validate_inputs_split in *.
    pose proof (check_inputs_inr _ _ Ei1) as [Hd _].
    rewrite derive_inputs_set_n_max, <- Hd.
    apply check_inputs_set_n_max. rewrite Hd at 1. exact Ei1. }
  rewrite Ei2. exact Hidem.
Qed.

End Idempotent.

Lemma layer_args_validate_idempotent_witness :
  layer_args_validate [set_n_max args_small_max 10]
  = inr [set_n_max args_small_max 10].
Proof.
  apply (layer_args_validate_idempotent args_small_max []
           [set_n_max args_small_max 10]).
  - cbn. lia.
  - cbn. lia.
  - cbn. lia.
  - reflexivity.
Defined.

End LayerArgs.

Module LayerArgsIO.

(** [struct ArgsLayer] with all its fields, as the persistence functions
    and [layer_args_opt] read it; the chain linked by [next] is the list
    of its nodes.  The representation of a [double] is a parameter. *)
Record ArgsLayer (double : Type) := {
  type : Z;
  n_inputs : Z;
  n_init : Z;
  n_max : Z;
  max_neuron_grow : Z;
  function : Z;
  recurrent_function : Z;
  height : Z;
  width : Z;
  channels : Z;
  size : Z;
  stride : Z;
  pad : Z;
  eta : double;
  eta_min : double;
  momentum : double;
  decay : double;
  probability : double;
  scale : double;
  evolve_weights : bool;
  evolve_neurons : bool;
  evolve_functions : bool;
  evolve_eta : bool;
  evolve_connect : bool;
  sgd_weights : bool
}.
Arguments type {double} _.
Arguments n_inputs {double} _.
Arguments n_init {double} _.
Arguments n_max {double} _.
Arguments max_neuron_grow {double} _.
Arguments function {double} _.
Arguments recurrent_function {double} _.
Arguments height {double} _.
Arguments width {double} _.
Arguments channels {double} _.
Arguments size {double} _.
Arguments stride {double} _.
Arguments pad {double} _.
Arguments eta {double} _.
Arguments eta_min {double} _.
Arguments momentum {double} _.
Arguments decay {double} _.
Arguments probability {double} _.
Arguments scale {double} _.
Arguments evolve_weights {double} _.
Arguments evolve_neurons {double} _.
Arguments evolve_functions {double} _.
Arguments evolve_eta {double} _.
Arguments evolve_connect {double} _.
Arguments sgd_weights {double} _.

(** [layer_args_length] *)
Definition layer_args_length {D} (args : list (ArgsLayer D)) : Z :=
  Z.of_nat (length args).

(** [layer_args_tail]: [None] is the read through a [NULL] head. *)
Definition layer_args_tail {D} (head : list (ArgsLayer D))
    : option (ArgsLayer D) :=
  last head.

(** A [bool] is stored in one byte, 1 for true and 0 for false; a byte
    read that holds another value is no [bool]. *)
Definition bool_byte (b : bool) : Z := if b then 1 else 0.

Definition fread_bool (f : stream) : option (bool * stream) :=
  match f with
  | b :: f' =>
    if b =? 0 then Some (false, f')
    else if b =? 1 then Some (true, f')
    else None
  | [] => None
  end.

(** The bytes that the body of the loop of [layer_args_save] writes for
    one node: 25 elements. *)
Definition save_node `{Double D} (a : ArgsLayer D) : list Z :=
  int_bytes (type a) ++ int_bytes (n_inputs a) ++ int_bytes (n_init a)
  ++ int_bytes (n_max a) ++ int_bytes (max_neuron_grow a)
  ++ int_bytes (function a) ++ int_bytes (recurrent_function a)
  ++ int_bytes (height a) ++ int_bytes (width a) ++ int_bytes (channels a)
  ++ int_bytes (size a) ++ int_bytes (stride a) ++ int_bytes (pad a)
  ++ double_bytes (eta a) ++ double_bytes (eta_min a)
  ++ double_bytes (momentum a) ++ double_bytes (decay a)
  ++ double_bytes (probability a) ++ double_bytes (scale a)
  ++ [bool_byte (evolve_weights a); bool_byte (evolve_neurons a);
      bool_byte (evolve_functions a); bool_byte (evolve_eta a);
      bool_byte (evolve_connect a); bool_byte (sgd_weights a)].

(** [layer_args_save]: the bytes written and the number of elements. *)
Definition layer_args_save `{Double D} (args : list (ArgsLayer D))
    : list Z * Z :=
  (int_bytes (layer_args_length args) ++ concat (save_node <$> args),
   1 + 25 * Z.of_nat (length args)).

(** The reads of one iteration of the loop of [layer_args_load]: every
    field that [layer_args_init] has set in the new node is overwritten. *)
Definition load_node `{Double D} (f : stream)
    : option (ArgsLayer D * stream) :=
  '(type, f) ← fread_int f;
  '(n_inputs, f) ← fread_int f;
  '(n_init, f) ← fread_int f;
  '(n_max, f) ← fread_int f;
  '(max_neuron_grow, f) ← fread_int f;
  '(function, f) ← fread_int f;
  '(recurrent_function, f) ← fread_int f;
  '(height, f) ← fread_int f;
  '(width, f) ← fread_int f;
  '(channels, f) ← fread_int f;
  '(size, f) ← fread_int f;
  '(stride, f) ← fread_int f;
  '(pad, f) ← fread_int f;
  '(eta, f) ← fread_double f;
  '(eta_min, f) ← fread_double f;
  '(momentum, f) ← fread_double f;
  '(decay, f) ← fread_double f;
  '(probability, f) ← fread_double f;
  '(scale, f) ← fread_double f;
  '(evolve_weights, f) ← fread_bool f;
  '(evolve_neurons, f) ← fread_bool f;
  '(evolve_functions, f) ← fread_bool f;
  '(evolve_eta, f) ← fread_bool f;
  '(evolve_connect, f) ← fread_bool f;
  '(sgd_weights, f) ← fread_bool f;
  Some ({| type := type; n_inputs := n_inputs; n_init := n_init;
           n_max := n_max; max_neuron_grow := max_neuron_grow;
           function := function; recurrent_function := recurrent_function;
           height := height; width := width; channels := channels;
           size := size; stride := stride; pad := pad; eta := eta;
           eta_min := eta_min; momentum := momentum; decay := decay;
           probability := probability; scale := scale;
           evolve_weights := evolve_weights;
           evolve_neurons := evolve_neurons;
           evolve_functions := evolve_functions; evolve_eta := evolve_eta;
           evolve_connect := evolve_connect; sgd_weights := sgd_weights |},
        f).

(** The loop of [layer_args_load]: each node read is linked after the
    last node of the list. *)
Fixpoint load_nodes `{Double D} (n : nat) (largs : list (ArgsLayer D))
    (f : stream) (s : Z) : option (list (ArgsLayer D) * stream * Z) :=
  match n with
  | O => Some (largs, f, s)
  | S n' =>
    '(arg, f) ← load_node f;
    load_nodes n' (largs ++ [arg]) f (s + 25)
  end.

(** [layer_args_load]: the list that [*largs] held is freed first. *)
Definition layer_args_load `{Double D} (largs : list (ArgsLayer D))
    (f : stream) : option (list (ArgsLayer D) * stream * Z) :=
  '(n, f) ← fread_int f;
  load_nodes (Z.to_nat n) [] f 1.

(** The values that the C types of the [int] fields admit. *)
Definition node_storable {D} (a : ArgsLayer D) : Prop :=
  int_range (type a) /\ int_range (n_inputs a) /\ int_range (n_init a) /\
  int_range (n_max a) /\ int_range (max_neuron_grow a) /\
  int_range (function a) /\ int_range (recurrent_function a) /\
  int_range (height a) /\ int_range (width a) /\ int_range (channels a) /\
  int_range (size a) /\ int_range (stride a) /\ int_range (pad a).

Lemma fread_bool_byte b rest : fread_bool (bool_byte b :: rest) = Some (b, rest).
Proof. destruct b; reflexivity. Qed.

Section RoundTrip.
Context `{Double D}.

Lemma load_node_save (a : ArgsLayer D) rest :
  node_storable a -> load_node (save_node a ++ rest) = Some (a, rest).
Proof.
  intros (H1 & H2 & H3 & H4 & H5 & H6 & H7 & H8 & H9 & H10 & H11 & H12 & H13).
  unfold load_node, save_node. rewrite <- !app_assoc.
  repeat (rewrite fread_int_bytes by assumption; cbn [mbind option_bind]).
  repeat (rewrite fread_double_bytes; cbn [mbind option_bind]).
  cbn [app].
  repeat (rewrite fread_bool_byte; cbn [mbind option_bind]).
  destruct a. reflexivity.
Qed.

Lemma load_nodes_save (args : list (ArgsLayer D)) : forall acc rest s,
  Forall node_storable args ->
  load_nodes (length args) acc (concat (save_node <$> args) ++ rest) s
  = Some (acc ++ args, rest, s + 25 * Z.of_nat (length args)).
Proof.
  induction args as [|a args IH]; intros acc rest s Hall.
  - cbn. rewrite app_nil_r. do 2 f_equal. lia.
  - apply Forall_cons in Hall. destruct Hall as [Ha Hall].
    cbn [length load_nodes fmap list_fmap concat].
    rewrite <- app_assoc, load_node_save by assumption.
    cbn [mbind option_bind]. rewrite IH by assumption.
    rewrite <- app_assoc. cbn [app]. do 2 f_equal. lia.
Qed.

(** A list of layer parameters that is saved and loaded comes back node
    for node with every field as it was; exactly the bytes written are
    consumed and as many elements counted, 1 plus 25 for each node.  The
    list that the destination held before does not matter. *)
Theorem layer_args_save_load (args old : list (ArgsLayer D)) rest :
  Forall node_storable args -> int_range (Z.of_nat (length args)) ->
  layer_args_load old ((layer_args_save args).1 ++ rest)
  = Some (args, rest, (layer_args_save args).2) /\
  (layer_args_save args).2 = 1 + 25 * layer_args_length args /\
  (forall n, int_range n -> n <= 0 ->
     layer_args_load old (int_bytes n ++ rest) = Some ([], rest, 1)).
Proof.
  intros Hall Hn. split; [|split; [reflexivity|]].
  - unfold layer_args_load, layer_args_save, layer_args_length.
    cbn [fst snd]. rewrite <- app_assoc.
    rewrite fread_int_bytes by assumption. cbn [mbind option_bind].
    rewrite Nat2Z.id, load_nodes_save by assumption. reflexivity.
  - intros n Hr Hle. unfold layer_args_load.
    rewrite fread_int_bytes by assumption. cbn [mbind option_bind].
    replace (Z.to_nat n) with 0%nat by lia. reflexivity.
Qed.

End RoundTrip.

#[local] Existing Instance GP.raw_Double.

(** A connected layer of ten neurons that evolves its weights. *)
Definition args_example : ArgsLayer GP.raw_double :=
  {| type := 0; n_inputs := 4; n_init := 10; n_max := 10;
     max_neuron_grow := 0; function := 0; recurrent_function := 0;
     height := 0; width := 0; channels := 0; size := 0; stride := 0;
     pad := 0;
     eta := (0, 0, 0, 0, 0, 0, 224, 63);
     eta_min := (0, 0, 0, 0, 0, 0, 0, 0);
     momentum := (0, 0, 0, 0, 0, 0, 0, 0);
     decay := (0, 0, 0, 0, 0, 0, 0, 0);
     probability := (0, 0, 0, 0, 0, 0, 0, 0);
     scale := (0, 0, 0, 0, 0, 0, 0, 0);
     evolve_weights := true; evolve_neurons := false;
     evolve_functions := false; evolve_eta := false;
     evolve_connect := false; sgd_weights := true |}.

Lemma layer_args_save_load_witness :
  layer_args_load [args_example; args_example]
    ((layer_args_save [args_example]).1 ++ [7; 7])
  = Some ([args_example], [7; 7], (layer_args_save [args_example]).2) /\
  (layer_args_save [args_example]).2
  = 1 + 25 * layer_args_length [args_example] /\
  (forall n, int_range n -> n <= 0 ->
     layer_args_load [args_example; args_example] (int_bytes n ++ [7; 7])
     = Some ([], [7; 7], 1)).
Proof.
  apply (layer_args_save_load [args_example]).
  - apply Forall_cons_2; [|apply Forall_nil_2].
    assert (R : forall z, 0 <= z < 100 -> int_range z)
      by (unfold int_range; lia).
    repeat split; apply R; cbn; lia.
  - unfold int_range. cbn. lia.
Defined.

(** ** Options of a layer *)

(** The option bits of neural_layer.h are not part of the sources: the
    six masks are parameters. *)
Class LayerFlags := {
  LAYER_EVOLVE_WEIGHTS : Z;
  LAYER_EVOLVE_NEURONS : Z;
  LAYER_EVOLVE_FUNCTIONS : Z;
  LAYER_SGD_WEIGHTS : Z;
  LAYER_EVOLVE_ETA : Z;
  LAYER_EVOLVE_CONNECT : Z
}.

(** [layer_args_opt] *)
Definition layer_args_opt `{LayerFlags} {D} (args : ArgsLayer D) : Z :=
  let lopt := 0 in
  let lopt := if evolve_eta args then Z.lor lopt LAYER_EVOLVE_ETA
              else lopt in
  let lopt := if sgd_weights args then Z.lor lopt LAYER_SGD_WEIGHTS
              else lopt in
  let lopt := if evolve_weights args then Z.lor lopt LAYER_EVOLVE_WEIGHTS
              else lopt in
  let lopt := if evolve_neurons args then Z.lor lopt LAYER_EVOLVE_NEURONS
              else lopt in
  let lopt := if evolve_functions args then Z.lor lopt LAYER_EVOLVE_FUNCTIONS
              else lopt in
  let lopt := if evolve_connect args then Z.lor lopt LAYER_EVOLVE_CONNECT
              else lopt in
  lopt.

Lemma testbit_flag (b : bool) (x : Z) (kF k : Z) :
  0 <= kF ->
  Z.testbit (if b then Z.lor x (2 ^ kF) else x) k
  = Z.testbit x k || (b && (kF =? k)).
Proof.
  intros HkF. destruct b; cbn [andb].
  - rewrite Z.lor_spec, Z.pow2_bits_eqb by assumption. reflexivity.
  - rewrite orb_false_r. reflexivity.
Qed.

(** When the six masks are six different single bits, the bitstring
    that [layer_args_opt] returns has the bit of a permission set
    exactly when the permission is granted: the six flags can be read
    back from it, and no other bit is set. *)
Theorem layer_args_opt_bits `{LayerFlags} {D} (args : ArgsLayer D)
    (kw kn kf ks ke kc : Z) :
  0 <= kw -> 0 <= kn -> 0 <= kf -> 0 <= ks -> 0 <= ke -> 0 <= kc ->
  NoDup [kw; kn; kf; ks; ke; kc] ->
  LAYER_EVOLVE_WEIGHTS = 2 ^ kw -> LAYER_EVOLVE_NEURONS = 2 ^ kn ->
  LAYER_EVOLVE_FUNCTIONS = 2 ^ kf -> LAYER_SGD_WEIGHTS = 2 ^ ks ->
  LAYER_EVOLVE_ETA = 2 ^ ke -> LAYER_EVOLVE_CONNECT = 2 ^ kc ->
  Z.testbit (layer_args_opt args) kw = evolve_weights args /\
  Z.testbit (layer_args_opt args) kn = evolve_neurons args /\
  Z.testbit (layer_args_opt args) kf = evolve_functions args /\
  Z.testbit (layer_args_opt args) ks = sgd_weights args /\
  Z.testbit (layer_args_opt args) ke = evolve_eta args /\
  Z.testbit (layer_args_opt args) kc = evolve_connect args /\
  (forall k, k ∉ [kw; kn; kf; ks; ke; kc] ->
             Z.testbit (layer_args_opt args) k = false).
Proof.
  intros Hw Hn Hf Hs He Hc Hnd Ew En Ef Es Ee Ec.
  assert (Hbit : forall k,
    Z.testbit (layer_args_opt args) k
    = (evolve_eta args && (ke =? k)) || (sgd_weights args && (ks =? k))
      || (evolve_weights args && (kw =? k))
      || (evolve_neurons args && (kn =? k))
      || (evolve_functions args && (kf =? k))
      || (evolve_connect args && (kc =? k))).
  { intros k. unfold layer_args_opt. rewrite Ew, En, Ef, Es, Ee, Ec.
    cbv zeta. rewrite !testbit_flag by assumption.
    rewrite Z.bits_0. reflexivity. }
  assert (Hne : kw <> kn /\ kw <> kf /\ kw <> ks /\ kw <> ke /\ kw <> kc /\
                kn <> kf /\ kn <> ks /\ kn <> ke /\ kn <> kc /\
                kf <> ks /\ kf <> ke /\ kf <> kc /\
                ks <> ke /\ ks <> kc /\ ke <> kc).
  { repeat match goal with
    | H : NoDup (_ :: _) |- _ =>
        apply NoDup_cons in H; destruct H
    end.
    repeat match goal with
    | H : _ ∉ _ :: _ |- _ => apply not_elem_of_cons in H; destruct H
    end.
    repeat split; assumption. }
  destruct Hne as (N1 & N2 & N3 & N4 & N5 & N6 & N7 & N8 & N9 & N10 & N11
                   & N12 & N13 & N14 & N15).
  assert (Hneq : forall a b : Z, a <> b -> (a =? b) = false)
    by (intros a b; apply Z.eqb_neq).
  repeat split; try (rewrite Hbit, ?Z.eqb_refl,
    ?(Hneq kw kn), ?(Hneq kw kf), ?(Hneq kw ks), ?(Hneq kw ke), ?(Hneq kw kc),
    ?(Hneq kn kw), ?(Hneq kn kf), ?(Hneq kn ks), ?(Hneq kn ke), ?(Hneq kn kc),
    ?(Hneq kf kw), ?(Hneq kf kn), ?(Hneq kf ks), ?(Hneq kf ke), ?(Hneq kf kc),
    ?(Hneq ks kw), ?(Hneq ks kn), ?(Hneq ks kf), ?(Hneq ks ke), ?(Hneq ks kc),
    ?(Hneq ke kw), ?(Hneq ke kn), ?(Hneq ke kf), ?(Hneq ke ks), ?(Hneq ke kc),
    ?(Hneq kc kw), ?(Hneq kc kn), ?(Hneq kc kf), ?(Hneq kc ks), ?(Hneq kc ke)
    by auto;
    rewrite ?andb_false_r, ?andb_true_r, ?orb_false_r, ?orb_false_l;
    reflexivity).
  intros k Hk. rewrite Hbit.
  repeat match goal with
  | H : _ ∉ _ :: _ |- _ => apply not_elem_of_cons in H; destruct H
  end.
  rewrite (Hneq ke k), (Hneq ks k), (Hneq kw k), (Hneq kn k), (Hneq kf k),
    (Hneq kc k) by auto.
  rewrite !andb_false_r. reflexivity.
Qed.

(** The masks of the upstream header, for the examples. *)
#[export] Instance upstream_flags : LayerFlags :=
  {| LAYER_EVOLVE_WEIGHTS := 1; LAYER_EVOLVE_NEURONS := 2;
     LAYER_EVOLVE_FUNCTIONS := 4; LAYER_SGD_WEIGHTS := 8;
     LAYER_EVOLVE_ETA := 16; LAYER_EVOLVE_CONNECT := 32 |}.

Lemma layer_args_opt_bits_witness :
  Z.testbit (layer_args_opt args_example) 0 = evolve_weights args_example /\
  Z.testbit (layer_args_opt args_example) 1 = evolve_neurons args_example /\
  Z.testbit (layer_args_opt args_example) 2
  = evolve_functions args_example /\
  Z.testbit (layer_args_opt args_example) 3 = sgd_weights args_example /\
  Z.testbit (layer_args_opt args_example) 4 = evolve_eta args_example /\
  Z.testbit (layer_args_opt args_example) 5 = evolve_connect args_example /\
  (forall k, k ∉ [0; 1; 2; 3; 4; 5] ->
             Z.testbit (layer_args_opt args_example) k = false).
Proof.
  apply (layer_args_opt_bits args_example 0 1 2 3 4 5);
    try lia; try reflexivity.
  repeat (apply NoDup_cons_2;
          [rewrite ?elem_of_cons, elem_of_nil; lia|]).
  apply NoDup_nil_2.
Defined.

End LayerArgsIO.
